(** * ElvinGadd: a min-heap priority queue with snapshots (eg_heap.py)

    A shallow embedding of [src/eg_heap.py] and of the parts of Python's
    standard [heapq] module it calls, followed by the properties of the
    specification that hold of it and the concrete runs where it departs
    from them.

    Python objects are modelled the way the program uses them:
    - a [HeapNode] is a mutable object, shared between the live storage,
      the snapshot copies ([self.heap[:]] copies the list, not the nodes)
      and the heaps that took part in a [merge]; nodes therefore live in a
      store and lists hold references to them;
    - lists are never shared between two holders, so they are passed by
      value;
    - integers are unbounded ([Z]); list indices are naturals;
    - priorities are numbers, as [HeapNode] declares them: a node whose
      priority is a string or a tuple is outside the model;
    - an exception ends the call that raised it and leaves the mutations
      made so far in place: calls return an outcome together with the
      state. *)

From Stdlib Require Import ZArith Lia Zify ZifyNat PreOmega String Sorting.Sorted.
From stdpp Require Import base list.

Ltac Zify.zify_post_hook ::= Z.to_euclidean_division_equations.

Local Open Scope nat_scope.

(** * The standard library's heapq, over any item type with [<] *)

(** The functions of CPython's [Lib/heapq.py] that the program calls, loop
    by loop.  [heap[i]] is read with the total lookup [!!!]: each function
    is called with a position inside the list, and then every index it
    reads is inside the list; the one IndexError, [heappop] of an empty
    list, is the result [None]. *)

Module heapq.
Section heapq.
Context {A : Type} `{Inhabited A}.

(** [lt a b] is what [a < b] evaluates to on items. *)
Variable lt : A -> A -> bool.

(** The [while pos > startpos] loop of [_siftdown].  [pos] strictly
    decreases, so [pos] iterations always suffice. *)
Fixpoint _siftdown_loop (fuel : nat) (heap : list A) (newitem : A)
    (startpos pos : nat) : list A * nat :=
  match fuel with
  | 0 => (heap, pos)
  | S fuel =>
      if startpos <? pos then
        let parentpos := (pos - 1) / 2 in        (* (pos - 1) >> 1 *)
        let parent := heap !!! parentpos in
        if lt newitem parent then
          _siftdown_loop fuel (<[pos := parent]> heap) newitem startpos parentpos
        else (heap, pos)                         (* break *)
      else (heap, pos)
  end.

Definition _siftdown (heap : list A) (startpos pos : nat) : list A :=
  let newitem := heap !!! pos in
  let '(heap, pos) := _siftdown_loop pos heap newitem startpos pos in
  <[pos := newitem]> heap.

(** The [while childpos < endpos] loop of [_siftup]; [childpos] is
    [2*pos + 1] at every test of the loop condition. *)
Fixpoint _siftup_loop (fuel : nat) (heap : list A) (endpos pos : nat)
    : list A * nat :=
  match fuel with
  | 0 => (heap, pos)
  | S fuel =>
      let childpos := 2 * pos + 1 in
      if childpos <? endpos then
        let rightpos := childpos + 1 in
        let childpos :=
          if (rightpos <? endpos)
             && negb (lt (heap !!! childpos) (heap !!! rightpos))
          then rightpos else childpos in
        _siftup_loop fuel (<[pos := heap !!! childpos]> heap) endpos childpos
      else (heap, pos)
  end.

Definition _siftup (heap : list A) (pos : nat) : list A :=
  let endpos := length heap in
  let startpos := pos in
  let newitem := heap !!! pos in
  let '(heap, pos) := _siftup_loop endpos heap endpos pos in
  let heap := <[pos := newitem]> heap in
  _siftdown heap startpos pos.

Definition heappush (heap : list A) (item : A) : list A :=
  let heap := heap ++ [item] in
  _siftdown heap 0 (length heap - 1).

(** [heappop] returns [None] where Python raises IndexError (empty list). *)
Definition heappop (heap : list A) : option (A * list A) :=
  match last heap with
  | None => None
  | Some lastelt =>
      let heap := take (length heap - 1) heap in      (* heap.pop() *)
      match heap with
      | [] => Some (lastelt, heap)
      | returnitem :: _ =>
          let heap := <[0 := lastelt]> heap in
          Some (returnitem, _siftup heap 0)
      end
  end.

(** [for i in reversed(range(n//2)): _siftup(x, i)] *)
Definition heapify (x : list A) : list A :=
  let n := length x in
  foldl _siftup x (reverse (seq 0 (n / 2))).

(** ** The heap invariant *)

(** [le a b] is [not (b < a)], the only comparison heapq makes. *)
Definition le (a b : A) : bool := negb (lt b a).

(** Every node at or below [startpos] is not greater than its children. *)
Definition heap_from (startpos : nat) (heap : list A) : Prop :=
  forall c, 0 < c -> c < length heap -> startpos <= (c - 1) / 2 ->
    le (heap !!! ((c - 1) / 2)) (heap !!! c) = true.

Definition heap_inv (heap : list A) : Prop := heap_from 0 heap.

(** [pos] lies in the subtree rooted at [startpos]. *)
Inductive below (startpos : nat) : nat -> Prop :=
  | below_root : below startpos startpos
  | below_child pos c :
      below startpos pos -> 0 < c -> (c - 1) / 2 = pos -> below startpos c.

(** Loop invariant of [_siftdown]: slot [pos] is a hole waiting for
    [newitem]; every other slot is in order with its parent, the children
    of the hole are in order with the parent of the hole, and [newitem]
    fits above them. *)
Definition hole_up (startpos : nat) (heap : list A) (pos : nat) (newitem : A)
    : Prop :=
  below startpos pos /\ pos < length heap /\
  (forall c, 0 < c -> c < length heap -> c <> pos -> startpos <= (c - 1) / 2 ->
     le (heap !!! ((c - 1) / 2)) (heap !!! c) = true) /\
  (pos <> startpos -> forall c, 0 < c -> c < length heap -> (c - 1) / 2 = pos ->
     le (heap !!! ((pos - 1) / 2)) (heap !!! c) = true) /\
  (forall c, 0 < c -> c < length heap -> (c - 1) / 2 = pos ->
     le newitem (heap !!! c) = true).

(** Loop invariant of the first loop of [_siftup]: slot [pos] is a hole on
    its way down; the slots that are neither the hole nor its children
    are in order with their parents, and the children of the hole are in
    order with the parent of the hole. *)
Definition hole_down (startpos : nat) (heap : list A) (pos : nat) : Prop :=
  below startpos pos /\ pos < length heap /\
  (forall c, 0 < c -> c < length heap -> c <> pos -> (c - 1) / 2 <> pos ->
     startpos <= (c - 1) / 2 ->
     le (heap !!! ((c - 1) / 2)) (heap !!! c) = true) /\
  (pos <> startpos -> forall c, 0 < c -> c < length heap -> (c - 1) / 2 = pos ->
     le (heap !!! ((pos - 1) / 2)) (heap !!! c) = true).

(** A boolean version, to check concrete lists by evaluation. *)
Definition heap_invb (heap : list A) : bool :=
  forallb (fun c => le (heap !!! ((c - 1) / 2)) (heap !!! c))
          (seq 1 (length heap - 1)).

End heapq.
End heapq.

(** * Python values, exceptions and outcomes *)

(** The dynamically typed values the program is given: [None], integers,
    strings and tuples.  (Floats are left out; priorities are integers.) *)
#[warnings="-register-all"]
Inductive PyVal : Type :=
  | PNone
  | PInt (z : Z)
  | PStr (s : string)
  | PTuple (items : list PyVal).

(** [a == b] on values. *)
Fixpoint py_eqb (a b : PyVal) : bool :=
  match a, b with
  | PNone, PNone => true
  | PInt x, PInt y => (x =? y)%Z
  | PStr x, PStr y => String.eqb x y
  | PTuple xs, PTuple ys =>
      (fix all2 (xs ys : list PyVal) : bool :=
         match xs, ys with
         | [], [] => true
         | x :: xs, y :: ys => py_eqb x y && all2 xs ys
         | _, _ => false
         end) xs ys
  | _, _ => false
  end.

(** The exceptions of the model.  [ConfigurationError] is the name the
    specification uses; no statement of the program raises it. *)
Inductive exn : Type := TypeError | ValueError | IndexError | ConfigurationError.

(** A call returns, raises, or (for [drain] on an inconsistent heap) never
    comes back. *)
Inductive outcome (A : Type) : Type :=
  | Return (a : A)
  | Raise (e : exn)
  | Diverge.
Arguments Return {A} a.
Arguments Raise {A} e.
Arguments Diverge {A}.

(** [priority, value = item]: a tuple or a string of length two unpacks;
    any other length is a ValueError, a non-iterable a TypeError. *)
Definition unpack2 (item : PyVal) : outcome (PyVal * PyVal) :=
  match item with
  | PTuple [a; b] => Return (a, b)
  | PTuple _ => Raise ValueError
  | PStr (String a (String b EmptyString)) =>
      Return (PStr (String a EmptyString), PStr (String b EmptyString))
  | PStr _ => Raise ValueError
  | PNone | PInt _ => Raise TypeError
  end.

(** * HeapNode *)

Module HeapNode.

Record t : Type := mk {
  priority : Z;
  value : PyVal;
  insertion_count : Z }.

Definition __lt__ (self other : t) : bool :=
  if (priority self =? priority other)%Z
  then (insertion_count self <? insertion_count other)%Z
  else (priority self <? priority other)%Z.

(** [self <= other].  The class defines [__lt__] only, and [@dataclass]
    with its default [order=False] adds [__eq__] but no [__le__]; Python
    derives no [<=] from [<] and [==], so both [__le__] and the reflected
    [__ge__] answer NotImplemented and the comparison raises TypeError. *)
Definition __le__ (self other : t) : outcome bool := Raise TypeError.

(** The total order of the specification: priority ascending, then
    sequence number ascending. *)
Definition leb (a b : t) : bool :=
  (priority a <? priority b)%Z
  || ((priority a =? priority b)%Z
      && (insertion_count a <=? insertion_count b)%Z).

End HeapNode.

#[global] Instance HeapNode_inhabited : Inhabited HeapNode.t :=
  populate (HeapNode.mk 0 PNone 0).

(** Node objects live in a store; a reference is an index into it. *)
Definition ref := nat.
Definition Store := list HeapNode.t.

Definition deref (s : Store) (r : ref) : HeapNode.t := s !!! r.

(** [a < b] on two node objects. *)
Definition ref_lt (s : Store) (a b : ref) : bool :=
  HeapNode.__lt__ (deref s a) (deref s b).

(** [node.priority = p] on the object behind a reference. *)
Definition set_priority (s : Store) (r : ref) (p : Z) : Store :=
  <[r := HeapNode.mk p (HeapNode.value (deref s r))
                     (HeapNode.insertion_count (deref s r))]> s.

(** * MinHeap *)

Module MinHeap.

Record t : Type := mk {
  heap : list ref;
  size : Z;
  _insertion_count : Z;
  key_func : option (PyVal -> Z);
  _snapshots : list (list ref) }.

(** A method runs on the node store and on the fields of [self]. *)
Record state : Type := mkst { store : Store; self : t }.

Definition M (A : Type) : Type := state -> outcome A * state.

Definition ret {A} (a : A) : M A := fun st => (Return a, st).
Definition raise {A} (e : exn) : M A := fun st => (Raise e, st).
Definition bind {A B} (m : M A) (k : A -> M B) : M B :=
  fun st =>
    match m st with
    | (Return a, st) => k a st
    | (Raise e, st) => (Raise e, st)
    | (Diverge, st) => (Diverge, st)
    end.
Definition lift {A} (o : outcome A) : M A := fun st => (o, st).
Definition get : M state := fun st => (Return st, st).
Definition set_self (f : t -> t) : M unit :=
  fun st => (Return tt, mkst (store st) (f (self st))).
Definition set_store (f : Store -> Store) : M unit :=
  fun st => (Return tt, mkst (f (store st)) (self st)).

Declare Scope heap_scope.
Delimit Scope heap_scope with heap.
Notation "x <- m ;; k" := (bind m (fun x => k))
  (at level 100, m at next level, right associativity) : heap_scope.
Notation "m ;; k" := (bind m (fun _ => k))
  (at level 100, right associativity) : heap_scope.
Local Open Scope heap_scope.

(** Field updates. *)
Definition with_heap (l : list ref) (h : t) : t :=
  mk l (size h) (_insertion_count h) (key_func h) (_snapshots h).
Definition with_size (n : Z) (h : t) : t :=
  mk (heap h) n (_insertion_count h) (key_func h) (_snapshots h).
Definition with_count (n : Z) (h : t) : t :=
  mk (heap h) (size h) n (key_func h) (_snapshots h).
Definition with_snapshots (ss : list (list ref)) (h : t) : t :=
  mk (heap h) (size h) (_insertion_count h) (key_func h) ss.

(** [self.heap[i]] and [self.heap[i] = r]; out of range is IndexError. *)
Definition getitem (i : nat) : M ref :=
  fun st =>
    match heap (self st) !! i with
    | Some r => (Return r, st)
    | None => (Raise IndexError, st)
    end.
Definition setitem (i : nat) (r : ref) : M unit :=
  fun st =>
    if i <? length (heap (self st))
    then set_self (fun h => with_heap (<[i := r]> (heap h)) h) st
    else (Raise IndexError, st).

(** [HeapNode(priority, value, insertion_count)]: a new object. *)
Definition new_node (n : HeapNode.t) : M ref :=
  fun st => (Return (length (store st)), mkst (store st ++ [n]) (self st)).

(** ** Methods *)

Definition push_with_priority (value : PyVal) (priority : Z) : M unit :=
  st <- get ;;
  node <- new_node (HeapNode.mk priority value (_insertion_count (self st))) ;;
  set_self (fun h => with_count (_insertion_count h + 1) h) ;;
  st <- get ;;
  set_self (with_heap (heapq.heappush (ref_lt (store st)) (heap (self st)) node)) ;;
  set_self (fun h => with_size (size h + 1) h).

(** [priority = self.key_func(value) if self.key_func else value].
    The nodes of the model carry a number as priority, as [HeapNode]
    declares it.  Without a key function a value that is not a number
    would be its own priority: the code creates that node all the same
    and raises only when its priority is first compared with a number.
    Such a node has no counterpart here: the last branch is the boundary
    of the model, and the properties that depend on what a [push] does are
    stated for the values it takes in, numbers and any value under a key
    function. *)
Definition push (value : PyVal) : M unit :=
  st <- get ;;
  match key_func (self st) with
  | Some key => push_with_priority value (key value)
  | None =>
      match value with
      | PInt priority => push_with_priority value priority
      | _ => raise TypeError
      end
  end.

(** The loop of [_build_from_items].  A pair whose first element is not a
    number would give a node with that element as priority; as in [push],
    this is outside the model. *)
Fixpoint _build_from_items (items : list PyVal) : M unit :=
  match items with
  | [] => ret tt
  | item :: items =>
      match item with
      | PInt _ => push item                      (* isinstance(item, (int, float)) *)
      | _ =>
          pv <- lift (unpack2 item) ;;
          match fst pv with
          | PInt priority => push_with_priority (snd pv) priority
          | _ => raise TypeError                 (* no such node: see [push] *)
          end
      end ;;
      _build_from_items items
  end.

Definition blank (key : option (PyVal -> Z)) : t := mk [] 0 0 key [].

(** [MinHeap(items, key)]; [if items:] is false for [None] and for an
    empty sequence. *)
Definition __init__ (items : option (list PyVal)) (key : option (PyVal -> Z))
    (s : Store) : outcome unit * state :=
  let st := mkst s (blank key) in
  match items with
  | Some (item :: items) => _build_from_items (item :: items) st
  | _ => (Return tt, st)
  end.

Definition pop : M PyVal :=
  st <- get ;;
  match heapq.heappop (ref_lt (store st)) (heap (self st)) with
  | None => ret PNone                            (* if not self.heap *)
  | Some (node, rest) =>
      set_self (fun h => with_size (size h - 1) h) ;;
      set_self (with_heap rest) ;;
      ret (HeapNode.value (deref (store st) node))
  end.

Definition peek : M PyVal :=
  st <- get ;;
  match heap (self st) with
  | [] => ret PNone
  | node :: _ =>
      ret (PTuple [PInt (HeapNode.priority (deref (store st) node));
                   HeapNode.value (deref (store st) node)])
  end.

Definition _heapify : M unit :=
  st <- get ;;
  set_self (with_heap (heapq.heapify (ref_lt (store st)) (heap (self st)))).

Fixpoint push_all (items : list PyVal) : M unit :=
  match items with
  | [] => ret tt
  | item :: items => push item ;; push_all items
  end.

Definition bulk_push (items : list PyVal) : M unit :=
  push_all items ;; _heapify.

(** [other] is the other heap object as it is when the call is made. *)
Definition merge (other : t) : M unit :=
  set_self (fun h => with_heap (heap h ++ heap other) h) ;;
  set_self (fun h => with_size (size h + size other) h) ;;
  _heapify.

Definition is_empty : M bool :=
  st <- get ;; ret (size (self st) =? 0)%Z.

Definition __len__ : M Z :=
  st <- get ;; ret (size (self st)).

(** [list(heap)]: the values in storage order. *)
Definition __iter__ : M (list PyVal) :=
  st <- get ;;
  ret (map (fun r => HeapNode.value (deref (store st) r)) (heap (self st))).

(** [list(self.drain())]: [while not self.is_empty(): yield self.pop()].
    The loop has no bound of its own (a [pop] on empty storage returns
    None without changing [size]); [Diverge] is the outcome when [fuel]
    iterations did not end it. *)
Fixpoint drain_loop (fuel : nat) : M (list PyVal) :=
  match fuel with
  | 0 => e <- is_empty ;; if e then ret [] else lift Diverge
  | S fuel =>
      e <- is_empty ;;
      if e then ret []
      else v <- pop ;; vs <- drain_loop fuel ;; ret (v :: vs)
  end.

Definition drain : M (list PyVal) :=
  st <- get ;; drain_loop (Z.to_nat (size (self st))).

(** The two halves of the [snapshot] context manager. *)
Definition snapshot_enter : M unit :=
  set_self (fun h => with_snapshots (_snapshots h ++ [heap h]) h).

Definition snapshot_exit : M unit :=
  st <- get ;;
  match last (_snapshots (self st)) with
  | None => raise IndexError                     (* pop from empty list *)
  | Some saved =>
      set_self (fun h =>
        with_snapshots (take (length (_snapshots h) - 1) (_snapshots h)) h) ;;
      set_self (with_heap saved) ;;
      set_self (fun h => with_size (Z.of_nat (length (heap h))) h)
  end.

(** [with self.snapshot(): body].  The [finally] clause runs on return
    and on exception; an exception of the body is raised again after it. *)
Definition snapshot {A} (body : M A) : M A :=
  fun st =>
    match snapshot_enter st with
    | (Return _, st) =>
        match body st with
        | (Diverge, st) => (Diverge, st)
        | (r, st) =>
            match snapshot_exit st with
            | (Return _, st) => (r, st)
            | (Raise e, st) => (Raise e, st)
            | (Diverge, st) => (Diverge, st)
            end
        end
    | (Raise e, st) => (Raise e, st)
    | (Diverge, st) => (Diverge, st)
    end.

(** [[self.pop() for _ in range(n)]] *)
Fixpoint pop_n (n : nat) : M (list PyVal) :=
  match n with
  | 0 => ret []
  | S n => v <- pop ;; vs <- pop_n n ;; ret (v :: vs)
  end.

Definition k_smallest (k : Z) : M (list PyVal) :=
  snapshot (st <- get ;; pop_n (Z.to_nat (Z.min k (size (self st))))).

(** The [while idx > 0] loop of [_sift_up]; it returns the final [idx]. *)
Fixpoint _sift_up_loop (fuel : nat) (temp : ref) (idx : nat) : M nat :=
  match fuel with
  | 0 => ret idx
  | S fuel =>
      if 0 <? idx then
        let parent_idx := (idx - 1) / 2 in
        parent <- getitem parent_idx ;;
        st <- get ;;
        stop <- lift (HeapNode.__le__ (deref (store st) parent)
                                      (deref (store st) temp)) ;;
        if (stop : bool) then ret idx
        else setitem idx parent ;; _sift_up_loop fuel temp parent_idx
      else ret idx
  end.

Definition _sift_up (idx : nat) : M unit :=
  temp <- getitem idx ;;
  idx <- _sift_up_loop idx temp idx ;;
  setitem idx temp.

(** The [while True] loop of [_sift_down]; it returns the final [idx].
    [idx] grows at every turn and stays below [self.size]. *)
Fixpoint _sift_down_loop (fuel : nat) (temp : ref) (idx : nat) : M nat :=
  match fuel with
  | 0 => ret idx
  | S fuel =>
      st <- get ;;
      let smallest := idx in
      let left := 2 * idx + 1 in
      let right := 2 * idx + 2 in
      smallest <-
        (if (Z.of_nat left <? size (self st))%Z then
           l <- getitem left ;;
           ret (if ref_lt (store st) l temp then left else smallest)
         else ret smallest) ;;
      smallest <-
        (if (Z.of_nat right <? size (self st))%Z then
           r <- getitem right ;;
           s <- getitem smallest ;;
           ret (if ref_lt (store st) r s then right else smallest)
         else ret smallest) ;;
      if smallest =? idx then ret idx
      else
        s <- getitem smallest ;;
        setitem idx s ;;
        _sift_down_loop fuel temp smallest
  end.

Definition _sift_down (idx : nat) : M unit :=
  temp <- getitem idx ;;
  st <- get ;;
  idx <- _sift_down_loop (S (Z.to_nat (size (self st)))) temp idx ;;
  setitem idx temp.

(** [for i, node in enumerate(self.heap): if node.value == value]: the
    first index whose node carries [value]. *)
Fixpoint index_of (s : Store) (value : PyVal) (l : list ref) (i : nat)
    : option nat :=
  match l with
  | [] => None
  | r :: l =>
      if py_eqb (HeapNode.value (deref s r)) value then Some i
      else index_of s value l (S i)
  end.

Definition update_priority (value : PyVal) (new_priority : Z) : M bool :=
  st <- get ;;
  match index_of (store st) value (heap (self st)) 0 with
  | Some i =>
      node <- getitem i ;;
      let old_priority := HeapNode.priority (deref (store st) node) in
      set_store (fun s => set_priority s node new_priority) ;;
      (if (new_priority <? old_priority)%Z then _sift_up i else _sift_down i) ;;
      ret true
  | None => ret false
  end.

Definition remove (value : PyVal) : M bool :=
  st <- get ;;
  match index_of (store st) value (heap (self st)) 0 with
  | Some i =>
      match last (heap (self st)) with           (* self.heap[-1] *)
      | None => raise IndexError
      | Some lastnode =>
          setitem i lastnode ;;
          set_self (fun h => with_heap (take (length (heap h) - 1) (heap h)) h) ;;
          set_self (fun h => with_size (size h - 1) h) ;;
          st <- get ;;
          (if i <? length (heap (self st)) then _sift_down i else ret tt) ;;
          ret true
      end
  | None => ret false
  end.

End MinHeap.

(** * Several heap objects: merge *)

#[global] Instance MinHeap_inhabited : Inhabited MinHeap.t :=
  populate (MinHeap.blank None).

Module World.

(** The node objects and the heap objects of a program. *)
Record t : Type := mk {
  nodes : Store;
  heaps : list MinHeap.t }.

(** A method call on the heap object [self]. *)
Definition call {A} (self : nat) (m : MinHeap.M A) (w : t) : outcome A * t :=
  match m (MinHeap.mkst (nodes w) (heaps w !!! self)) with
  | (r, st) =>
      (r, mk (MinHeap.store st) (<[self := MinHeap.self st]> (heaps w)))
  end.

(** [self.merge(other)] on two heap objects. *)
Definition merge (self other : nat) (w : t) : outcome unit * t :=
  call self (MinHeap.merge (heaps w !!! other)) w.

End World.

(** * What the specification observes of a heap *)

Definition node_at (st : MinHeap.state) (i : nat) : HeapNode.t :=
  deref (MinHeap.store st) (MinHeap.heap (MinHeap.self st) !!! i).

(** The node objects in storage order. *)
Definition live_nodes (st : MinHeap.state) : list HeapNode.t :=
  map (deref (MinHeap.store st)) (MinHeap.heap (MinHeap.self st)).

(** The (priority, value) pairs in storage order; as a multiset, up to
    permutation. *)
Definition entries (st : MinHeap.state) : list (Z * PyVal) :=
  map (fun n => (HeapNode.priority n, HeapNode.value n)) (live_nodes st).

(** The heap invariant of the specification: every index below [size] is
    in order with its children below [size]. *)
Definition heap_invariant (st : MinHeap.state) : Prop :=
  forall i c : nat, c = 2 * i + 1 \/ c = 2 * i + 2 ->
    (Z.of_nat c < MinHeap.size (MinHeap.self st))%Z ->
    HeapNode.leb (node_at st i) (node_at st c) = true.

Definition heap_invariantb (st : MinHeap.state) : bool :=
  forallb (fun c => HeapNode.leb (node_at st ((c - 1) / 2)) (node_at st c))
          (seq 1 (Z.to_nat (MinHeap.size (MinHeap.self st)) - 1)).

(** [size] counts the nodes in storage. *)
Definition consistent (h : MinHeap.t) : Prop :=
  MinHeap.size h = Z.of_nat (length (MinHeap.heap h)).

(** Ascending order of references by the nodes behind them. *)
Definition ascending (s : Store) (rs : list ref) : Prop :=
  StronglySorted (fun a b => HeapNode.leb (deref s a) (deref s b) = true) rs.

Definition values_of (s : Store) (rs : list ref) : list PyVal :=
  map (fun r => HeapNode.value (deref s r)) rs.

(** * Client programs: sequences of public calls *)

#[warnings="-register-all"]
Inductive Call : Type :=
  | call_push (value : PyVal)
  | call_push_with_priority (value : PyVal) (priority : Z)
  | call_pop
  | call_peek
  | call_bulk_push (items : list PyVal)
  | call_merge (other : MinHeap.t)
  | call_k_smallest (k : Z)
  | call_update_priority (value : PyVal) (new_priority : Z)
  | call_remove (value : PyVal)
  | call_drain
  | with_snapshot (body : list Call)        (* with heap.snapshot(): body *)
  | try_except (body : list Call).          (* try: body / except Exception: pass *)

Definition discard {A} (m : MinHeap.M A) : MinHeap.M unit :=
  MinHeap.bind m (fun _ => MinHeap.ret tt).

Definition catch (m : MinHeap.M unit) : MinHeap.M unit :=
  fun st =>
    match m st with
    | (Raise _, st) => (Return tt, st)
    | r => r
    end.

Fixpoint exec (c : Call) : MinHeap.M unit :=
  let run :=
    fix run (cs : list Call) : MinHeap.M unit :=
      match cs with
      | [] => MinHeap.ret tt
      | c :: cs => MinHeap.bind (exec c) (fun _ => run cs)
      end in
  match c with
  | call_push v => MinHeap.push v
  | call_push_with_priority v p => MinHeap.push_with_priority v p
  | call_pop => discard MinHeap.pop
  | call_peek => discard MinHeap.peek
  | call_bulk_push items => MinHeap.bulk_push items
  | call_merge other => MinHeap.merge other
  | call_k_smallest k => discard (MinHeap.k_smallest k)
  | call_update_priority v p => discard (MinHeap.update_priority v p)
  | call_remove v => discard (MinHeap.remove v)
  | call_drain => discard MinHeap.drain
  | with_snapshot body => MinHeap.snapshot (run body)
  | try_except body => catch (run body)
  end.

Fixpoint run (cs : list Call) : MinHeap.M unit :=
  match cs with
  | [] => MinHeap.ret tt
  | c :: cs => MinHeap.bind (exec c) (fun _ => run cs)
  end.

(** ** Counting pushes and extractions *)

Local Open Scope Z_scope.

(** The elements of a [bulk_push] that were pushed. *)
Fixpoint pushed (items : list PyVal) (st : MinHeap.state) : Z :=
  match items with
  | [] => 0
  | item :: items =>
      match MinHeap.push item st with
      | (Return _, st) => 1 + pushed items st
      | _ => 0
      end
  end.

(** Successful pushes and absorbed nodes, minus successful pops, removes
    and drain extractions, made by a call from state [st].  With [scopes]
    the calls inside snapshot scopes count like any other; without, they
    do not count. *)
Definition tally (scopes : bool) : Call -> MinHeap.state -> Z :=
  fix tally (c : Call) (st : MinHeap.state) : Z :=
    let tally_run :=
      fix tally_run (cs : list Call) (st : MinHeap.state) : Z :=
        match cs with
        | [] => 0
        | c :: cs =>
            tally c st
            + match exec c st with
              | (Return _, st) => tally_run cs st
              | _ => 0
              end
        end in
    match c with
    | call_push v =>
        match MinHeap.push v st with (Return _, _) => 1 | _ => 0 end
    | call_push_with_priority _ _ => 1
    | call_pop =>
        match MinHeap.heap (MinHeap.self st) with [] => 0 | _ => -1 end
    | call_bulk_push items => pushed items st
    | call_merge other => Z.of_nat (length (MinHeap.heap other))
    | call_remove v =>
        match MinHeap.remove v st with (Return true, _) => -1 | _ => 0 end
    | call_drain =>
        match MinHeap.drain st with
        | (Return vs, _) => - Z.of_nat (length vs)
        | _ => 0
        end
    | call_peek | call_k_smallest _ | call_update_priority _ _ => 0
    | with_snapshot body =>
        if scopes then
          match MinHeap.snapshot_enter st with
          | (_, st) => tally_run body st
          end
        else 0
    | try_except body => tally_run body st
    end.

Definition tally_run (scopes : bool) : list Call -> MinHeap.state -> Z :=
  fix tally_run (cs : list Call) (st : MinHeap.state) : Z :=
    match cs with
    | [] => 0
    | c :: cs =>
        tally scopes c st
        + match exec c st with
          | (Return _, st) => tally_run cs st
          | _ => 0
          end
    end.

Local Close Scope Z_scope.

(** The heaps a program merges in are consistent heap objects. *)
Fixpoint merges_consistent (c : Call) : Prop :=
  let all :=
    fix all (cs : list Call) : Prop :=
      match cs with
      | [] => True
      | c :: cs => merges_consistent c /\ all cs
      end in
  match c with
  | call_merge other => consistent other
  | with_snapshot body | try_except body => all body
  | _ => True
  end.

Fixpoint all_merges_consistent (cs : list Call) : Prop :=
  match cs with
  | [] => True
  | c :: cs => merges_consistent c /\ all_merges_consistent cs
  end.

(** * The runs of the demonstration and of the examples *)

Definition fresh : MinHeap.state := MinHeap.mkst [] (MinHeap.blank None).

Definition task (name : string) (n : Z) : PyVal := PTuple [PStr name; PInt n].

(** Scenario A: priorities 5, 2, 8, 1 pushed with task1 .. task4. *)
Definition scenario_A_calls : list Call :=
  [call_push_with_priority (task "task1" 1) 5;
   call_push_with_priority (task "task2" 2) 2;
   call_push_with_priority (task "task3" 3) 8;
   call_push_with_priority (task "task4" 4) 1].

Definition scenario_A : MinHeap.state :=
  Eval vm_compute in (run scenario_A_calls fresh).2.

(** The integers of a list pushed one by one, each its own priority. *)
Definition pushes (ps : list Z) : list Call :=
  map (fun p => call_push (PInt p)) ps.

(** * Relations between the state before and after a call *)

(** [m] is framed by [R] when [R] relates the state a call of [m] starts in
    to the state it leaves, whatever the outcome. *)
Definition frame (R : MinHeap.state -> MinHeap.state -> Prop) {A}
    (m : MinHeap.M A) : Prop :=
  forall st, R st (m st).2.

(** [m] always comes back: it returns or raises. *)
Definition terminates {A} (m : MinHeap.M A) : Prop :=
  forall st, (m st).1 <> Diverge.

(** The sequence numbers of the node objects, in order of creation. *)
Definition sequence_numbers (s : Store) : list Z :=
  map HeapNode.insertion_count s.

(** From [st] to [st'] some [n] nodes were created; they carry the [n]
    consecutive numbers from the counter of [st] on, the counter of [st']
    is past them all, and no older node changed its number. *)
Definition numbered (st st' : MinHeap.state) : Prop :=
  exists n : nat,
    MinHeap._insertion_count (MinHeap.self st')
      = (MinHeap._insertion_count (MinHeap.self st) + Z.of_nat n)%Z
    /\ sequence_numbers (MinHeap.store st')
       = sequence_numbers (MinHeap.store st)
         ++ map (fun i => (MinHeap._insertion_count (MinHeap.self st) + Z.of_nat i)%Z)
                (seq 0 n).

(** Only the order of the storage and the priorities of nodes may differ. *)
Definition kept (st st' : MinHeap.state) : Prop :=
  length (MinHeap.heap (MinHeap.self st')) = length (MinHeap.heap (MinHeap.self st))
  /\ MinHeap.size (MinHeap.self st') = MinHeap.size (MinHeap.self st)
  /\ MinHeap._snapshots (MinHeap.self st') = MinHeap._snapshots (MinHeap.self st).

(** The storage was reordered in place; nothing else changed. *)
Definition reordered (st st' : MinHeap.state) : Prop :=
  MinHeap.store st' = MinHeap.store st
  /\ exists l, MinHeap.self st' = MinHeap.with_heap l (MinHeap.self st)
       /\ length l = length (MinHeap.heap (MinHeap.self st)).

(** Called in a state of [P], [m] returns a value and a state of [Q]. *)
Definition returns {A} (P : MinHeap.state -> Prop) (m : MinHeap.M A)
    (Q : A -> MinHeap.state -> Prop) : Prop :=
  forall st, P st -> exists a st', m st = (Return a, st') /\ Q a st'.

(** What a call did to a consistent heap: it came back, left the heap
    consistent and the snapshot stack as it was, and changed [size] by [d]. *)
Definition effect {A} (st : MinHeap.state) (res : outcome A * MinHeap.state)
    (d : Z) : Prop :=
  res.1 <> Diverge
  /\ consistent (MinHeap.self res.2)
  /\ MinHeap._snapshots (MinHeap.self res.2) = MinHeap._snapshots (MinHeap.self st)
  /\ MinHeap.size (MinHeap.self res.2) = (MinHeap.size (MinHeap.self st) + d)%Z.

(** The items that construction accepts: a number, or a pair whose first
    component is a number. *)
Definition accepted (item : PyVal) : Prop :=
  match item with
  | PInt _ => True
  | PTuple [PInt _; _] => True
  | _ => False
  end.

(** The heap of the removal example: 1, 10, 2, 11, 12, 3, 4 pushed in this
    order. *)
Definition seven : MinHeap.state :=
  Eval vm_compute in (run (pushes [1; 10; 2; 11; 12; 3; 4]%Z) fresh).2.

(** One entry, ("a", priority 5). *)
Definition single : MinHeap.state :=
  Eval vm_compute in (run [call_push_with_priority (PStr "a") 5] fresh).2.

(** Scenario D before the merge: heap 0 is the heap of Scenario A, heap 1
    holds task5 with priority 3. *)
Definition two_heaps : World.t :=
  Eval vm_compute in
    (World.call 1 (MinHeap.push_with_priority (task "task5" 5) 3)
       (World.call 0 (run scenario_A_calls)
          (World.mk [] [MinHeap.blank None; MinHeap.blank None])).2).2.

(** A program with a rolled-back push. *)
Definition rolled_back_push : list Call :=
  [with_snapshot [call_push_with_priority (PStr "x") 1]].

(** Every reference in the storage points into the store. *)
Definition valid (st : MinHeap.state) : Prop :=
  Forall (fun r => r < length (MinHeap.store st)) (MinHeap.heap (MinHeap.self st)).

(** Node objects were created, none was changed. *)
Definition appended (st st' : MinHeap.state) : Prop :=
  exists new, MinHeap.store st' = MinHeap.store st ++ new.

(** The program makes no call of [update_priority]. *)
Fixpoint update_free (c : Call) : Prop :=
  let all :=
    fix all (cs : list Call) : Prop :=
      match cs with
      | [] => True
      | c :: cs => update_free c /\ all cs
      end in
  match c with
  | call_update_priority _ _ => False
  | with_snapshot body | try_except body => all body
  | _ => True
  end.

Fixpoint all_update_free (cs : list Call) : Prop :=
  match cs with
  | [] => True
  | c :: cs => update_free c /\ all_update_free cs
  end.

(** The heap 1, 2, 10, 20, 3 of the sift-down example. *)
Definition five : MinHeap.state :=
  Eval vm_compute in (run (pushes [1; 2; 10; 20; 3]%Z) fresh).2.

(** The heap of the drain example: 1, 10, 2, 11, 12, 20, 4. *)
Definition seven' : MinHeap.state :=
  Eval vm_compute in (run (pushes [1; 10; 2; 11; 12; 20; 4]%Z) fresh).2.

(** * Further observations *)

(** A heap as the data model describes it: [size] counts the storage,
    every reference points into the store, and the heap order holds. *)
Definition well_formed (st : MinHeap.state) : Prop :=
  consistent (MinHeap.self st) /\ valid st /\ heap_invariant st.

(** The priority [push] gives a value: [key_func(value)], or the value
    itself when it is a number and there is no key function. *)
Definition priority_of (key : option (PyVal -> Z)) (value : PyVal) : Z :=
  match key, value with
  | Some key, _ => key value
  | None, PInt z => z
  | None, _ => 0%Z
  end.

(** The values [push] takes in: any value under a key function, a number
    without one. *)
Definition pushable (key : option (PyVal -> Z)) (value : PyVal) : Prop :=
  match key, value with
  | Some _, _ => True
  | None, PInt _ => True
  | None, _ => False
  end.

(** The values a program pushes, by [push] or [bulk_push], are values
    that [push] takes in under the key function [key]. *)
Definition pushes_accepted (key : option (PyVal -> Z)) : Call -> Prop :=
  fix pushes_accepted (c : Call) : Prop :=
    let all :=
      fix all (cs : list Call) : Prop :=
        match cs with
        | [] => True
        | c :: cs => pushes_accepted c /\ all cs
        end in
    match c with
    | call_push v => pushable key v
    | call_bulk_push items => Forall (pushable key) items
    | with_snapshot body | try_except body => all body
    | _ => True
    end.

Definition all_pushes_accepted (key : option (PyVal -> Z)) :
    list Call -> Prop :=
  fix all (cs : list Call) : Prop :=
    match cs with
    | [] => True
    | c :: cs => pushes_accepted key c /\ all cs
    end.


(** The removal that breaks the heap order, from a new heap: 1, 10, 2, 11,
    12, 20, 4 pushed in this order, then [remove(11)]. *)
Definition pushes_then_remove : list Call :=
  pushes [1; 10; 2; 11; 12; 20; 4]%Z ++ [call_remove (PInt 11)].

(** Scenario A, then Scenario C with its exception handled. *)
Definition scenario_C_handled : list Call :=
  scenario_A_calls ++ [try_except [call_update_priority (task "task3" 3) 0]].

(** The entry an accepted item of the constructor becomes. *)
Definition item_entry (key : option (PyVal -> Z)) (item : PyVal) : Z * PyVal :=
  match item with
  | PTuple [PInt priority; value] => (priority, value)
  | _ => (priority_of key item, item)
  end.

(** The values in storage order, as [__iter__] yields them. *)
Definition values (st : MinHeap.state) : list PyVal :=
  map HeapNode.value (live_nodes st).

(** The heap that [remove(11)] leaves of 1, 10, 2, 11, 12, 3, 4: consistent,
    and not in heap order. *)
Definition seven_broken : MinHeap.state :=
  Eval vm_compute in (MinHeap.remove (PInt 11) seven).2.

(** A call that is expected to keep the heap order, on a heap with key
    function [key] whose store extends [s]: neither [remove] nor
    [update_priority]; [push] and [bulk_push] of values that [push] takes
    in; [merge] of a consistent heap whose references point into [s]. *)
Definition order_safe (key : option (PyVal -> Z)) (s : Store) : Call -> Prop :=
  fix order_safe (c : Call) : Prop :=
    let all :=
      fix all (cs : list Call) : Prop :=
        match cs with
        | [] => True
        | c :: cs => order_safe c /\ all cs
        end in
    match c with
    | call_push v => pushable key v
    | call_bulk_push items => Forall (pushable key) items
    | call_merge other =>
        consistent other /\ Forall (fun r => r < length s) (MinHeap.heap other)
    | call_update_priority _ _ | call_remove _ => False
    | with_snapshot body | try_except body => all body
    | _ => True
    end.

Definition all_order_safe (key : option (PyVal -> Z)) (s : Store) :
    list Call -> Prop :=
  fix all (cs : list Call) : Prop :=
    match cs with
    | [] => True
    | c :: cs => order_safe key s c /\ all cs
    end.

(** A well-formed heap with key function [key], over a store that extends
    [s], whose saved storages are in heap order as well. *)
Definition sound (key : option (PyVal -> Z)) (s : Store)
    (st : MinHeap.state) : Prop :=
  MinHeap.key_func (MinHeap.self st) = key
  /\ length s <= length (MinHeap.store st)
  /\ well_formed st
  /\ Forall (fun saved =>
       Forall (fun r => r < length (MinHeap.store st)) saved
       /\ heapq.heap_inv (ref_lt (MinHeap.store st)) saved)
     (MinHeap._snapshots (MinHeap.self st)).

(** Scenario A, then a scope that pops twice, a merge of a one-node heap
    and a bulk push under the key function that reads the number of a
    task. *)
Definition task_number (v : PyVal) : Z :=
  match v with
  | PTuple [_; PInt n] => n
  | _ => 0%Z
  end.

Definition keyed : MinHeap.state :=
  Eval vm_compute in
    (run scenario_A_calls (MinHeap.mkst [] (MinHeap.blank (Some task_number)))).2.

Definition demonstration : list Call :=
  [call_k_smallest 2;
   with_snapshot [call_pop; call_pop];
   try_except [call_push (task "task5" 5); call_peek];
   call_bulk_push [task "task6" 6; task "task7" 7];
   call_merge (MinHeap.mk [0; 1] 2 0 None []);
   call_drain].

(** * Facts about heapq *)

Section heapq_facts.
Context {A : Type} `{Inhabited A}.
Variable lt : A -> A -> bool.

Local Abbreviation le := (heapq.le lt).
Local Abbreviation heap_from := (heapq.heap_from lt).
Local Abbreviation heap_inv := (heapq.heap_inv lt).

(** ** Multiset of items: every operation permutes the list *)

Lemma hole_move (l : list A) (i j : nat) (x : A) :
  i < length l -> j < length l -> i <> j ->
  <[j := x]> (<[i := l !!! j]> l) ≡ₚ <[i := x]> l.
Proof.
  intros Hi Hj Hij.
  rewrite <- (list_insert_insert_eq l i (l !!! j) x).
  apply Permutation_insert_swap.
  - apply list_lookup_insert_eq. done.
  - rewrite list_lookup_insert_ne by done.
    by apply list_lookup_lookup_total_lt.
Qed.

Lemma _siftdown_loop_length fuel (l : list A) x s pos :
  length (heapq._siftdown_loop lt fuel l x s pos).1 = length l.
Proof.
  revert l pos. induction fuel as [|fuel IH]; intros l pos; cbn [heapq._siftdown_loop]; [done|].
  destruct (s <? pos); [|done].
  destruct (lt x _); [|done].
  rewrite IH. apply length_insert.
Qed.

Lemma _siftdown_loop_pos fuel (l : list A) x s pos :
  (heapq._siftdown_loop lt fuel l x s pos).2 <= pos.
Proof.
  revert l pos. induction fuel as [|fuel IH]; intros l pos; cbn [heapq._siftdown_loop]; [done|].
  destruct (s <? pos) eqn:E; [|done].
  destruct (lt x _); [|done].
  apply Nat.ltb_lt in E.
  etrans; [apply IH|]. lia.
Qed.

(** Any fuel from [pos] on gives the same result: the loop of [_siftdown]
    ends by its own condition. *)
Lemma _siftdown_loop_fuel fuel fuel' (l : list A) x s pos :
  pos <= fuel -> pos <= fuel' ->
  heapq._siftdown_loop lt fuel l x s pos = heapq._siftdown_loop lt fuel' l x s pos.
Proof.
  revert fuel' l pos.
  induction fuel as [|fuel IH]; intros [|fuel'] l pos Hf Hf'; try done.
  - replace pos with 0 by lia. done.
  - replace pos with 0 by lia. done.
  - cbn [heapq._siftdown_loop].
    destruct (s <? pos) eqn:E; [|done].
    destruct (lt x _); [|done].
    apply Nat.ltb_lt in E. apply IH; lia.
Qed.

Lemma _siftdown_loop_perm fuel (l : list A) x s pos :
  pos < length l ->
  let r := heapq._siftdown_loop lt fuel l x s pos in
  <[r.2 := x]> r.1 ≡ₚ <[pos := x]> l.
Proof.
  revert l pos. induction fuel as [|fuel IH]; intros l pos Hp; cbn [heapq._siftdown_loop]; [done|].
  destruct (s <? pos) eqn:E; [|done].
  destruct (lt x _); [|done].
  apply Nat.ltb_lt in E.
  etrans; [apply IH; rewrite length_insert; lia|].
  apply hole_move; lia.
Qed.

Lemma _siftdown_length (l : list A) s pos :
  length (heapq._siftdown lt l s pos) = length l.
Proof.
  unfold heapq._siftdown.
  pose proof (_siftdown_loop_length pos l (l !!! pos) s pos) as Hl.
  destruct (heapq._siftdown_loop _ _ _ _ _) as [l' p']. simpl in Hl.
  by rewrite length_insert.
Qed.

Lemma _siftdown_perm (l : list A) s pos :
  pos < length l -> heapq._siftdown lt l s pos ≡ₚ l.
Proof.
  intros Hp. unfold heapq._siftdown.
  pose proof (_siftdown_loop_perm pos l (l !!! pos) s pos Hp) as Hl.
  destruct (heapq._siftdown_loop _ _ _ _ _) as [l' p']. simpl in Hl.
  rewrite Hl. rewrite list_insert_id; [done|].
  by apply list_lookup_lookup_total_lt.
Qed.


(** ** Order: the heap invariant *)

Hypothesis lt_irrefl : forall x, lt x x = false.
Hypothesis lt_asym : forall x y, lt x y = true -> lt y x = false.
Hypothesis le_trans : forall x y z, le x y = true -> le y z = true -> le x z = true.

Lemma le_refl x : le x x = true.
Proof using lt_irrefl. unfold heapq.le. by rewrite lt_irrefl. Qed.

Lemma lt_le x y : lt x y = true -> le x y = true.
Proof using lt_asym. intros E. unfold heapq.le. by rewrite (lt_asym _ _ E). Qed.

Lemma below_le s pos : heapq.below s pos -> s <= pos.
Proof. induction 1; lia. Qed.

Lemma below_parent s pos :
  heapq.below s pos -> pos <> s -> heapq.below s ((pos - 1) / 2).
Proof. destruct 1 as [|p c Hb Hc Hp]; [done|]. by rewrite Hp. Qed.

Lemma below_parent_le s pos :
  heapq.below s pos -> pos <> s -> s <= (pos - 1) / 2.
Proof. intros Hb Hne. by apply below_le, below_parent. Qed.

Ltac lk :=
  repeat first
    [ rewrite list_lookup_total_insert_eq by (rewrite ?length_insert; lia)
    | rewrite list_lookup_total_insert_ne by lia
    | rewrite length_insert ].

(** Filling the hole once the loop of [_siftdown] has stopped. *)
Lemma hole_up_fill s (l : list A) pos x :
  heapq.hole_up lt s l pos x ->
  pos = s \/ le (l !!! ((pos - 1) / 2)) x = true ->
  heap_from s (<[pos := x]> l).
Proof using lt_irrefl.
  intros (Hb & Hp & Hi & Hii & Hiii) Hstop c Hc0 Hc Hs.
  rewrite length_insert in Hc.
  destruct (decide (c = pos)) as [->|Hne].
  - lk. destruct Hstop as [->|Hle]; [lia|done].
  - destruct (decide ((c - 1) / 2 = pos)) as [Hpar|Hpar].
    + rewrite Hpar. lk. by apply Hiii.
    + lk. by apply Hi.
Qed.

(** One turn of the loop of [_siftdown]. *)
Lemma hole_up_step s (l : list A) pos x :
  heapq.hole_up lt s l pos x -> s < pos ->
  lt x (l !!! ((pos - 1) / 2)) = true ->
  heapq.hole_up lt s (<[pos := l !!! ((pos - 1) / 2)]> l) ((pos - 1) / 2) x.
Proof using lt_irrefl lt_asym le_trans.
  intros (Hb & Hp & Hi & Hii & Hiii) Hs Hlt.
  assert (Hne : pos <> s) by lia.
  pose proof (below_parent_le _ _ Hb Hne) as Hps.
  set (p := l !!! ((pos - 1) / 2)) in *.
  repeat split.
  - by apply below_parent.
  - rewrite length_insert. lia.
  - intros c Hc0 Hc Hcp Hsc. rewrite length_insert in Hc.
    destruct (decide (c = pos)) as [->|Hcne].
    + lk. apply le_refl.
    + destruct (decide ((c - 1) / 2 = pos)) as [Hpar|Hpar].
      * rewrite Hpar. lk. by apply Hii.
      * lk. by apply Hi.
  - intros Hps' c Hc0 Hc Hpar. rewrite length_insert in Hc.
    assert (Hpp : s <= ((pos - 1) / 2 - 1) / 2)
      by (apply below_parent_le; [by apply below_parent|done]).
    assert (Hgp : le (l !!! (((pos - 1) / 2 - 1) / 2)) p = true)
      by (apply Hi; lia).
    destruct (decide (c = pos)) as [->|Hcne].
    + lk. done.
    + lk. eapply le_trans; [exact Hgp|].
      subst p. rewrite <- Hpar. apply Hi; lia.
  - intros c Hc0 Hc Hpar. rewrite length_insert in Hc.
    destruct (decide (c = pos)) as [->|Hcne].
    + lk. by apply lt_le.
    + lk. eapply le_trans; [apply lt_le, Hlt|].
      subst p. rewrite <- Hpar. apply Hi; lia.
Qed.

Lemma _siftdown_loop_heap fuel (l : list A) x s pos :
  pos <= fuel -> heapq.hole_up lt s l pos x ->
  let r := heapq._siftdown_loop lt fuel l x s pos in
  heap_from s (<[r.2 := x]> r.1).
Proof using lt_irrefl lt_asym le_trans.
  revert l pos. induction fuel as [|fuel IH]; intros l pos Hf HK;
    cbn [heapq._siftdown_loop].
  - apply hole_up_fill; [done|]. left.
    destruct HK as (Hb & _). apply below_le in Hb. cbn [fst snd]. lia.
  - destruct (s <? pos) eqn:E.
    + apply Nat.ltb_lt in E.
      destruct (lt x _) eqn:Elt.
      * apply IH; [lia|]. by apply hole_up_step.
      * apply hole_up_fill; [done|]. right. cbn [fst snd]. unfold heapq.le.
        by rewrite Elt.
    + apply Nat.ltb_ge in E. apply hole_up_fill; [done|]. left.
      destruct HK as (Hb & _). apply below_le in Hb. cbn [fst snd]. lia.
Qed.

(** [_siftdown] restores the heap below [startpos] when only the slot
    [pos] may be smaller than its parent. *)
Lemma _siftdown_heap (l : list A) s pos :
  heapq.hole_up lt s l pos (l !!! pos) ->
  heap_from s (heapq._siftdown lt l s pos).
Proof using lt_irrefl lt_asym le_trans.
  intros HK. unfold heapq._siftdown.
  pose proof (_siftdown_loop_heap pos l (l !!! pos) s pos (le_n _) HK) as Hh.
  by destruct (heapq._siftdown_loop _ _ _ _ _) as [l' p'].
Qed.


(** ** The first loop of [_siftup] *)

Lemma _siftup_loop_length fuel (l : list A) e pos :
  length (heapq._siftup_loop lt fuel l e pos).1 = length l.
Proof.
  revert l pos. induction fuel as [|fuel IH]; intros l pos;
    cbn [heapq._siftup_loop]; [done|].
  destruct (2 * pos + 1 <? e); [|done].
  rewrite IH. apply length_insert.
Qed.

(** Any fuel from [endpos - pos] on gives the same result. *)
Lemma _siftup_loop_fuel fuel fuel' (l : list A) e pos :
  e - pos <= fuel -> e - pos <= fuel' ->
  heapq._siftup_loop lt fuel l e pos = heapq._siftup_loop lt fuel' l e pos.
Proof.
  revert fuel' l pos.
  induction fuel as [|fuel IH]; intros [|fuel'] l pos Hf Hf'; try done.
  - cbn [heapq._siftup_loop].
    destruct (2 * pos + 1 <? e) eqn:E; [|done]. apply Nat.ltb_lt in E. lia.
  - cbn [heapq._siftup_loop].
    destruct (2 * pos + 1 <? e) eqn:E; [|done]. apply Nat.ltb_lt in E. lia.
  - cbn [heapq._siftup_loop].
    destruct (2 * pos + 1 <? e) eqn:E; [|done]. apply Nat.ltb_lt in E.
    destruct (_ && _); apply IH; lia.
Qed.

Lemma _siftup_loop_perm fuel (l : list A) e x pos :
  e = length l -> pos < length l ->
  let r := heapq._siftup_loop lt fuel l e pos in
  <[r.2 := x]> r.1 ≡ₚ <[pos := x]> l.
Proof.
  revert l pos. induction fuel as [|fuel IH]; intros l pos -> Hp;
    cbn [heapq._siftup_loop]; [done|].
  destruct (2 * pos + 1 <? length l) eqn:E; [|done]. apply Nat.ltb_lt in E.
  set (child := if _ && _ then _ else _).
  assert (Hchild : child < length l /\ child <> pos).
  { subst child. destruct (2 * pos + 1 + 1 <? length l) eqn:E2; cbn [andb].
    - apply Nat.ltb_lt in E2. destruct (negb _); lia.
    - lia. }
  destruct Hchild as [Hc Hcp].
  cbn zeta.
  etrans; [apply IH; rewrite length_insert; [done|lia]|].
  apply hole_move; lia.
Qed.

(** One turn of the first loop of [_siftup]: the smaller child moves up. *)
Lemma hole_down_step s (l : list A) pos :
  heapq.hole_down lt s l pos -> 2 * pos + 1 < length l ->
  let child :=
    if (2 * pos + 1 + 1 <? length l)
       && negb (lt (l !!! (2 * pos + 1)) (l !!! (2 * pos + 1 + 1)))
    then 2 * pos + 1 + 1 else 2 * pos + 1 in
  heapq.hole_down lt s (<[pos := l !!! child]> l) child.
Proof using lt_irrefl lt_asym le_trans.
  intros (Hb & Hp & Ha & Hbb) Hleft child.
  assert (Hchild : (child = 2 * pos + 1 \/ child = 2 * pos + 2)
            /\ child < length l
            /\ forall c, 0 < c -> c < length l -> (c - 1) / 2 = pos ->
                 le (l !!! child) (l !!! c) = true).
  { subst child. destruct (2 * pos + 1 + 1 <? length l) eqn:E2; cbn [andb].
    - apply Nat.ltb_lt in E2.
      destruct (lt (l !!! (2 * pos + 1)) (l !!! (2 * pos + 1 + 1))) eqn:Elt; cbn [negb].
      + split; [lia|]. split; [lia|]. intros c Hc0 Hc Hpar.
        assert (c = 2 * pos + 1 \/ c = 2 * pos + 1 + 1) as [->| ->] by lia.
        * apply le_refl.
        * by apply lt_le.
      + split; [lia|]. split; [lia|]. intros c Hc0 Hc Hpar.
        assert (c = 2 * pos + 1 \/ c = 2 * pos + 1 + 1) as [->| ->] by lia.
        * unfold heapq.le. by rewrite Elt.
        * apply le_refl.
    - apply Nat.ltb_ge in E2. split; [lia|]. split; [lia|].
      intros c Hc0 Hc Hpar. assert (c = 2 * pos + 1) as -> by lia.
      apply le_refl. }
  destruct Hchild as (Hcis & Hclt & Hmin).
  assert (Hcpar : (child - 1) / 2 = pos) by lia.
  assert (Hsp : s <= pos) by by apply below_le.
  repeat split.
  - eapply heapq.below_child; [exact Hb|lia|done].
  - rewrite length_insert. lia.
  - intros c Hc0 Hc Hcne Hparne Hsc. rewrite length_insert in Hc.
    destruct (decide (c = pos)) as [->|Hcp].
    + lk. apply Hbb; [lia|lia|done|done].
    + destruct (decide ((c - 1) / 2 = pos)) as [Hpar|Hpar].
      * rewrite Hpar. lk. by apply Hmin.
      * lk. by apply Ha.
  - intros _ c Hc0 Hc Hpar. rewrite length_insert in Hc.
    rewrite Hcpar. lk. rewrite <- Hpar. apply Ha; lia.
Qed.

Lemma _siftup_loop_heap fuel (l : list A) e s pos :
  e = length l -> e - pos <= fuel -> heapq.hole_down lt s l pos ->
  let r := heapq._siftup_loop lt fuel l e pos in
  heapq.hole_down lt s r.1 r.2 /\ e <= 2 * r.2 + 1.
Proof using lt_irrefl lt_asym le_trans.
  revert l pos. induction fuel as [|fuel IH]; intros l pos -> Hf HQ;
    cbn [heapq._siftup_loop].
  - destruct HQ as (_ & Hp & _). lia.
  - destruct (2 * pos + 1 <? length l) eqn:E.
    + apply Nat.ltb_lt in E.
      pose proof (hole_down_step s l pos HQ E) as Hstep. cbn zeta in Hstep.
      set (child := if _ && _ then _ else _) in *.
      assert (Hcp : pos < child).
      { subst child. destruct (_ && _); lia. }
      cbn zeta.
      apply IH; [by rewrite length_insert|lia|done].
    + apply Nat.ltb_ge in E. cbn [fst snd]. split; [done|lia].
Qed.

(** A hole at a leaf is a hole that [_siftdown] can fill. *)
Lemma hole_down_leaf s (l : list A) pos x :
  heapq.hole_down lt s l pos -> length l <= 2 * pos + 1 ->
  heapq.hole_up lt s (<[pos := x]> l) pos x.
Proof.
  intros (Hb & Hp & Ha & Hbb) Hleaf. repeat split.
  - done.
  - by rewrite length_insert.
  - intros c Hc0 Hc Hcne Hsc. rewrite length_insert in Hc.
    assert ((c - 1) / 2 <> pos) by lia. lk. by apply Ha.
  - intros _ c Hc0 Hc Hpar. rewrite length_insert in Hc. lia.
  - intros c Hc0 Hc Hpar. rewrite length_insert in Hc. lia.
Qed.

Lemma _siftup_length (l : list A) pos :
  length (heapq._siftup lt l pos) = length l.
Proof.
  unfold heapq._siftup.
  pose proof (_siftup_loop_length (length l) l (length l) pos) as Hl.
  destruct (heapq._siftup_loop _ _ _ _ _) as [l' p']. simpl in Hl.
  by rewrite _siftdown_length, length_insert.
Qed.

Lemma _siftup_loop_pos fuel (l : list A) e pos :
  pos < e -> (heapq._siftup_loop lt fuel l e pos).2 < e.
Proof.
  revert l pos. induction fuel as [|fuel IH]; intros l pos Hp;
    cbn [heapq._siftup_loop]; [done|].
  destruct (2 * pos + 1 <? e) eqn:E; [|done]. apply Nat.ltb_lt in E.
  apply IH.
  destruct (2 * pos + 1 + 1 <? e) eqn:E2; cbn [andb]; [|lia].
  apply Nat.ltb_lt in E2. destruct (negb _); lia.
Qed.

Lemma _siftup_perm (l : list A) pos :
  pos < length l -> heapq._siftup lt l pos ≡ₚ l.
Proof.
  intros Hp. unfold heapq._siftup.
  pose proof (_siftup_loop_perm (length l) l (length l) (l !!! pos) pos eq_refl Hp) as Hperm.
  pose proof (_siftup_loop_length (length l) l (length l) pos) as Hl.
  pose proof (_siftup_loop_pos (length l) l (length l) pos Hp) as Hlt.
  destruct (heapq._siftup_loop _ _ _ _ _) as [l' p']. cbn [fst snd] in *.
  rewrite _siftdown_perm by (rewrite length_insert; lia).
  rewrite Hperm. rewrite list_insert_id; [done|].
  by apply list_lookup_lookup_total_lt.
Qed.

(** [_siftup] at [pos] extends a heap below [pos + 1] to a heap below
    [pos]. *)
Lemma _siftup_heap (l : list A) pos :
  pos < length l -> heap_from (S pos) l -> heap_from pos (heapq._siftup lt l pos).
Proof using lt_irrefl lt_asym le_trans.
  intros Hp Hh. unfold heapq._siftup.
  assert (HQ : heapq.hole_down lt pos l pos).
  { repeat split; [constructor|done| |done].
    intros c Hc0 Hc Hcne Hpar Hs. apply Hh; lia. }
  pose proof (_siftup_loop_heap (length l) l (length l) pos pos eq_refl
                ltac:(lia) HQ) as [HQ' Hleaf].
  pose proof (_siftup_loop_length (length l) l (length l) pos) as Hl.
  destruct (heapq._siftup_loop _ _ _ _ _) as [l' p']. cbn [fst snd] in *.
  apply _siftdown_heap.
  assert (Hp' : p' < length l') by (by destruct HQ' as (_ & ? & _)).
  rewrite list_lookup_total_insert_eq by done.
  apply hole_down_leaf; [done|lia].
Qed.

(** ** heappush *)

Lemma heappush_length (l : list A) x :
  length (heapq.heappush lt l x) = S (length l).
Proof.
  unfold heapq.heappush. rewrite _siftdown_length, length_app. simpl. lia.
Qed.

Lemma heappush_perm (l : list A) x : heapq.heappush lt l x ≡ₚ x :: l.
Proof.
  unfold heapq.heappush. rewrite _siftdown_perm.
  - symmetry. apply Permutation_cons_append.
  - rewrite length_app. simpl. lia.
Qed.

Lemma below_0 pos : heapq.below 0 pos.
Proof.
  induction pos as [pos IH] using lt_wf_ind.
  destruct (decide (pos = 0)) as [->|Hne]; [constructor|].
  apply (heapq.below_child 0 ((pos - 1) / 2)); [apply IH; lia|lia|done].
Qed.

Lemma heappush_heap (l : list A) x :
  heap_inv l -> heap_inv (heapq.heappush lt l x).
Proof using lt_irrefl lt_asym le_trans.
  intros Hh. unfold heapq.heappush. apply _siftdown_heap.
  rewrite length_app. cbn [length].
  replace (length l + 1 - 1) with (length l) by lia.
  repeat split.
  - apply below_0.
  - rewrite length_app. simpl. lia.
  - intros c Hc0 Hc Hcne _. rewrite length_app in Hc. cbn [length] in Hc.
    rewrite !lookup_total_app_l by lia. apply Hh; lia.
  - intros _ c Hc0 Hc Hpar. rewrite length_app in Hc. cbn [length] in Hc. lia.
  - intros c Hc0 Hc Hpar. rewrite length_app in Hc. cbn [length] in Hc. lia.
Qed.

(** ** The root of a heap is a least item *)

Lemma heap_root_le (l : list A) i :
  heap_inv l -> i < length l -> le (l !!! 0) (l !!! i) = true.
Proof using lt_irrefl le_trans.
  intros Hh. induction i as [i IH] using lt_wf_ind. intros Hi.
  destruct (decide (i = 0)) as [->|Hne]; [apply le_refl|].
  eapply le_trans; [apply (IH ((i - 1) / 2)); lia|].
  apply Hh; lia.
Qed.

(** ** heappop *)

Lemma heappop_None (l : list A) : heapq.heappop lt l = None <-> l = [].
Proof.
  unfold heapq.heappop. destruct (last l) eqn:E.
  - split; [|intros ->; done].
    destruct (take _ _); done.
  - apply last_None in E. by subst.
Qed.

Lemma heappop_perm (l : list A) x l' :
  heapq.heappop lt l = Some (x, l') -> x :: l' ≡ₚ l.
Proof.
  unfold heapq.heappop. destruct (last l) as [lastelt|] eqn:E; [|done].
  apply last_Some in E as [l0 ->].
  rewrite length_app. cbn [length].
  replace (length l0 + 1 - 1) with (length l0) by lia.
  rewrite take_app_length.
  destruct l0 as [|returnitem l0].
  - intros [= <- <-]. done.
  - intros [= <- <-]. rewrite _siftup_perm by (simpl; lia).
    simpl. apply perm_skip, Permutation_cons_append.
Qed.

Lemma heappop_length (l : list A) x l' :
  heapq.heappop lt l = Some (x, l') -> length l = S (length l').
Proof.
  intros Hpop. apply heappop_perm in Hpop.
  apply Permutation_length in Hpop. simpl in Hpop. lia.
Qed.

Lemma heappop_root (l : list A) x l' :
  heapq.heappop lt l = Some (x, l') -> l !! 0 = Some x.
Proof.
  unfold heapq.heappop. destruct (last l) as [lastelt|] eqn:E; [|done].
  apply last_Some in E as [l0 ->].
  rewrite length_app. cbn [length].
  replace (length l0 + 1 - 1) with (length l0) by lia.
  rewrite take_app_length.
  destruct l0 as [|returnitem l0]; by intros [= <- <-].
Qed.

Lemma heappop_heap (l : list A) x l' :
  heap_inv l -> heapq.heappop lt l = Some (x, l') -> heap_inv l'.
Proof using lt_irrefl lt_asym le_trans.
  intros Hh. unfold heapq.heappop.
  destruct (last l) as [lastelt|] eqn:E; [|done].
  apply last_Some in E as [l0 ->].
  rewrite length_app. cbn [length].
  replace (length l0 + 1 - 1) with (length l0) by lia.
  rewrite take_app_length.
  destruct l0 as [|returnitem l0].
  - intros [= <- <-]. intros c Hc0 Hc. simpl in Hc. lia.
  - intros [= <- <-]. apply _siftup_heap; [simpl; lia|].
    intros c Hc0 Hc Hs. cbn [length] in Hc.
    change (lastelt :: l0) with (<[0 := lastelt]> (returnitem :: l0)).
    rewrite !list_lookup_total_insert_ne by lia.
    specialize (Hh c Hc0). rewrite length_app in Hh. cbn [length] in Hh.
    rewrite !lookup_total_app_l in Hh by (cbn [length]; lia).
    apply Hh; lia.
Qed.

(** The item [heappop] returns is not greater than any item left. *)
Lemma heappop_min (l : list A) x l' :
  heap_inv l -> heapq.heappop lt l = Some (x, l') ->
  Forall (fun y => le x y = true) l'.
Proof using lt_irrefl le_trans.
  intros Hh Hpop.
  pose proof (heappop_root _ _ _ Hpop) as Hroot.
  apply heappop_perm in Hpop.
  assert (Hall : Forall (fun y => le x y = true) l).
  { apply Forall_lookup. intros i y Hi.
    apply list_lookup_total_correct in Hroot as <-.
    pose proof (lookup_lt_Some _ _ _ Hi) as Hlt.
    apply list_lookup_total_correct in Hi as <-.
    by apply heap_root_le. }
  rewrite <- Hpop in Hall. by apply Forall_cons in Hall as [_ ?].
Qed.

(** ** heapify *)

Lemma heapify_perm (l : list A) : heapq.heapify lt l ≡ₚ l.
Proof.
  unfold heapq.heapify.
  assert (Hgen : forall n, n <= length l / 2 -> 
            foldl (heapq._siftup lt) l (reverse (seq 0 n)) ≡ₚ l).
  2: { by apply Hgen. }
  intros n. revert l. induction n as [|n IH]; intros l Hn; [done|].
  rewrite seq_S, reverse_snoc. cbn [foldl]. simpl.
  assert (Hlt : n < length l) by lia.
  rewrite IH by (rewrite _siftup_length; lia).
  by apply _siftup_perm.
Qed.


Lemma heapify_length (l : list A) : length (heapq.heapify lt l) = length l.
Proof. apply Permutation_length, heapify_perm. Qed.

Lemma heapify_heap (l : list A) : heap_inv (heapq.heapify lt l).
Proof using lt_irrefl lt_asym le_trans.
  unfold heapq.heapify.
  assert (Hgen : forall n (l : list A), n <= length l / 2 -> heap_from n l ->
            heap_inv (foldl (heapq._siftup lt) l (reverse (seq 0 n)))).
  { intros n. induction n as [|n IH]; intros l' Hn Hh; [done|].
    rewrite seq_S, reverse_snoc. cbn [foldl]. simpl.
    apply IH; [rewrite _siftup_length; lia|].
    apply _siftup_heap; [lia|done]. }
  apply Hgen; [done|]. intros c Hc0 Hc Hs. lia.
Qed.

End heapq_facts.

(** * The order on nodes *)

Lemma HeapNode_lt_irrefl a : HeapNode.__lt__ a a = false.
Proof. unfold HeapNode.__lt__. rewrite Z.eqb_refl. apply Z.ltb_irrefl. Qed.

Lemma HeapNode_lt_asym a b :
  HeapNode.__lt__ a b = true -> HeapNode.__lt__ b a = false.
Proof.
  unfold HeapNode.__lt__.
  destruct (Z.eqb_spec (HeapNode.priority a) (HeapNode.priority b)) as [E|E];
    destruct (Z.eqb_spec (HeapNode.priority b) (HeapNode.priority a)); lia.
Qed.

(** [not (b < a)] is the order of the specification. *)
Lemma HeapNode_not_lt a b : negb (HeapNode.__lt__ b a) = HeapNode.leb a b.
Proof.
  unfold HeapNode.__lt__, HeapNode.leb.
  destruct (Z.eqb_spec (HeapNode.priority b) (HeapNode.priority a));
    destruct (Z.eqb_spec (HeapNode.priority a) (HeapNode.priority b));
    destruct (Z.ltb_spec (HeapNode.priority a) (HeapNode.priority b));
    destruct (Z.ltb_spec (HeapNode.priority b) (HeapNode.priority a));
    destruct (Z.ltb_spec (HeapNode.insertion_count b) (HeapNode.insertion_count a));
    destruct (Z.leb_spec (HeapNode.insertion_count a) (HeapNode.insertion_count b));
    cbn [orb andb negb]; try reflexivity; lia.
Qed.

Lemma HeapNode_leb_spec a b :
  HeapNode.leb a b = true <->
  (HeapNode.priority a < HeapNode.priority b
   \/ HeapNode.priority a = HeapNode.priority b
      /\ HeapNode.insertion_count a <= HeapNode.insertion_count b)%Z.
Proof.
  unfold HeapNode.leb.
  rewrite orb_true_iff, andb_true_iff, Z.ltb_lt, Z.eqb_eq, Z.leb_le. done.
Qed.

Lemma HeapNode_leb_trans a b c :
  HeapNode.leb a b = true -> HeapNode.leb b c = true -> HeapNode.leb a c = true.
Proof. rewrite !HeapNode_leb_spec. lia. Qed.

Lemma HeapNode_leb_total a b :
  HeapNode.leb a b = true \/ HeapNode.leb b a = true.
Proof. rewrite !HeapNode_leb_spec. lia. Qed.

Section ref_order.
Variable s : Store.

Lemma ref_lt_irrefl x : ref_lt s x x = false.
Proof. apply HeapNode_lt_irrefl. Qed.

Lemma ref_lt_asym x y : ref_lt s x y = true -> ref_lt s y x = false.
Proof. apply HeapNode_lt_asym. Qed.

Lemma ref_le_leb x y :
  heapq.le (ref_lt s) x y = HeapNode.leb (deref s x) (deref s y).
Proof. apply HeapNode_not_lt. Qed.

Lemma ref_le_trans x y z :
  heapq.le (ref_lt s) x y = true -> heapq.le (ref_lt s) y z = true ->
  heapq.le (ref_lt s) x z = true.
Proof. rewrite !ref_le_leb. apply HeapNode_leb_trans. Qed.

(** heapq on references keeps and restores the heap invariant. *)
Lemma ref_heappush_heap l r :
  heapq.heap_inv (ref_lt s) l ->
  heapq.heap_inv (ref_lt s) (heapq.heappush (ref_lt s) l r).
Proof. apply heappush_heap; [apply ref_lt_irrefl|apply ref_lt_asym|apply ref_le_trans]. Qed.

Lemma ref_heappop_heap l r l' :
  heapq.heap_inv (ref_lt s) l -> heapq.heappop (ref_lt s) l = Some (r, l') ->
  heapq.heap_inv (ref_lt s) l'.
Proof. apply heappop_heap; [apply ref_lt_irrefl|apply ref_lt_asym|apply ref_le_trans]. Qed.

Lemma ref_heappop_min l r l' :
  heapq.heap_inv (ref_lt s) l -> heapq.heappop (ref_lt s) l = Some (r, l') ->
  Forall (fun r' => HeapNode.leb (deref s r) (deref s r') = true) l'.
Proof.
  intros Hh Hpop.
  eapply Forall_impl;
    [eapply heappop_min; [apply ref_lt_irrefl|apply ref_le_trans|exact Hh|exact Hpop]|].
  intros r' Hle. by rewrite <- ref_le_leb.
Qed.

Lemma ref_heap_root_le l i :
  heapq.heap_inv (ref_lt s) l -> i < length l ->
  HeapNode.leb (deref s (l !!! 0)) (deref s (l !!! i)) = true.
Proof.
  intros Hh Hi. rewrite <- ref_le_leb.
  apply heap_root_le; [apply ref_lt_irrefl|apply ref_le_trans|done|done].
Qed.

Lemma ref_heapify_heap l :
  heapq.heap_inv (ref_lt s) (heapq.heapify (ref_lt s) l).
Proof. apply heapify_heap; [apply ref_lt_irrefl|apply ref_lt_asym|apply ref_le_trans]. Qed.

End ref_order.

(** On a consistent heap the invariant of the specification is the one
    heapq maintains. *)
Lemma heap_invariant_heapq st :
  consistent (MinHeap.self st) ->
  heap_invariant st <->
  heapq.heap_inv (ref_lt (MinHeap.store st)) (MinHeap.heap (MinHeap.self st)).
Proof.
  intros Hc. unfold consistent in Hc. split.
  - intros Hinv c Hc0 Hlt _. rewrite ref_le_leb.
    apply (Hinv ((c - 1) / 2) c); lia.
  - intros Hh i c Hic Hlt. unfold node_at.
    replace i with ((c - 1) / 2) by lia.
    rewrite <- ref_le_leb. apply Hh; lia.
Qed.

Lemma heap_invariantb_spec st :
  heap_invariantb st = true ->
  heap_invariant st.
Proof.
  unfold heap_invariantb. rewrite forallb_forall.
  intros Hall i c Hic Hlt.
  replace i with ((c - 1) / 2) by lia.
  apply Hall. apply in_seq. lia.
Qed.

(** * pop, peek, drain and k_smallest on a well-formed heap *)

Lemma pop_empty st :
  MinHeap.heap (MinHeap.self st) = [] -> MinHeap.pop st = (Return PNone, st).
Proof.
  intros E. unfold MinHeap.pop, MinHeap.bind, MinHeap.get. by rewrite E.
Qed.

Lemma pop_some st r rest :
  heapq.heappop (ref_lt (MinHeap.store st)) (MinHeap.heap (MinHeap.self st))
    = Some (r, rest) ->
  MinHeap.pop st =
    (Return (HeapNode.value (deref (MinHeap.store st) r)),
     MinHeap.mkst (MinHeap.store st)
       (MinHeap.with_heap rest
          (MinHeap.with_size (MinHeap.size (MinHeap.self st) - 1)%Z (MinHeap.self st)))).
Proof.
  intros E. unfold MinHeap.pop, MinHeap.bind, MinHeap.get. by rewrite E.
Qed.

Lemma heappop_is_Some {A} `{Inhabited A} (lt : A -> A -> bool) (l : list A) :
  l <> [] -> exists x l', heapq.heappop lt l = Some (x, l').
Proof.
  intros Hne. destruct (heapq.heappop lt l) as [[x l']|] eqn:E; [eauto|].
  by apply heappop_None in E.
Qed.

Lemma peek_empty st :
  MinHeap.heap (MinHeap.self st) = [] -> MinHeap.peek st = (Return PNone, st).
Proof.
  intros E. unfold MinHeap.peek, MinHeap.bind, MinHeap.get. by rewrite E.
Qed.

Lemma peek_root st r :
  MinHeap.heap (MinHeap.self st) !! 0 = Some r ->
  MinHeap.peek st =
    (Return (PTuple [PInt (HeapNode.priority (deref (MinHeap.store st) r));
                     HeapNode.value (deref (MinHeap.store st) r)]), st).
Proof.
  intros E. unfold MinHeap.peek, MinHeap.bind, MinHeap.get.
  destruct (MinHeap.heap (MinHeap.self st)); [done|]. by injection E as ->.
Qed.

Lemma is_empty_eq st :
  MinHeap.is_empty st = (Return (MinHeap.size (MinHeap.self st) =? 0)%Z, st).
Proof. done. Qed.

(** What one [pop] does to a non-empty consistent heap. *)
Lemma pop_nonempty st :
  consistent (MinHeap.self st) ->
  MinHeap.heap (MinHeap.self st) <> [] ->
  exists r rest,
    MinHeap.heap (MinHeap.self st) !! 0 = Some r
    /\ MinHeap.pop st =
         (Return (HeapNode.value (deref (MinHeap.store st) r)),
          MinHeap.mkst (MinHeap.store st)
            (MinHeap.with_heap rest
               (MinHeap.with_size (MinHeap.size (MinHeap.self st) - 1)%Z
                                  (MinHeap.self st))))
    /\ r :: rest ≡ₚ MinHeap.heap (MinHeap.self st)
    /\ (MinHeap.size (MinHeap.self st) - 1)%Z = Z.of_nat (length rest)
    /\ (heapq.heap_inv (ref_lt (MinHeap.store st)) (MinHeap.heap (MinHeap.self st)) ->
        Forall (fun r' => HeapNode.leb (deref (MinHeap.store st) r)
                                       (deref (MinHeap.store st) r') = true) rest
        /\ heapq.heap_inv (ref_lt (MinHeap.store st)) rest).
Proof.
  intros Hc Hne.
  destruct (heappop_is_Some (ref_lt (MinHeap.store st)) _ Hne) as (r & rest & Hpop).
  exists r, rest. split; [by eapply heappop_root|].
  split; [by apply pop_some|].
  split; [by eapply heappop_perm|].
  split.
  - apply heappop_length in Hpop. unfold consistent in Hc. lia.
  - intros Hh. split; [by eapply ref_heappop_min|by eapply ref_heappop_heap].
Qed.

Lemma drain_loop_spec n : forall st fuel,
  length (MinHeap.heap (MinHeap.self st)) = n -> n <= fuel ->
  consistent (MinHeap.self st) ->
  exists rs,
    MinHeap.drain_loop fuel st =
      (Return (values_of (MinHeap.store st) rs),
       MinHeap.mkst (MinHeap.store st)
         (MinHeap.with_heap [] (MinHeap.with_size 0 (MinHeap.self st))))
    /\ rs ≡ₚ MinHeap.heap (MinHeap.self st)
    /\ (heapq.heap_inv (ref_lt (MinHeap.store st)) (MinHeap.heap (MinHeap.self st)) ->
        ascending (MinHeap.store st) rs).
Proof.
  induction n as [|n IH]; intros st fuel Hlen Hfuel Hc.
  - exists []. apply length_zero_iff_nil in Hlen.
    assert (Hsz : MinHeap.size (MinHeap.self st) = 0%Z)
      by (unfold consistent in Hc; rewrite Hc, Hlen; done).
    split; [|split; [by rewrite Hlen|constructor]].
    assert (Hst : MinHeap.mkst (MinHeap.store st)
              (MinHeap.with_heap [] (MinHeap.with_size 0 (MinHeap.self st))) = st).
    { destruct st as [s [h sz cnt key ss]]. simpl in *. by subst. }
    rewrite Hst.
    destruct fuel; cbn [MinHeap.drain_loop]; unfold MinHeap.bind;
      rewrite is_empty_eq, Hsz; done.
  - destruct fuel as [|fuel]; [lia|].
    assert (Hne : MinHeap.heap (MinHeap.self st) <> [])
      by (intros E; by rewrite E in Hlen).
    destruct (pop_nonempty st Hc Hne)
      as (r & rest & Hroot & Hpop & Hperm & Hsz & Hmin).
    set (st1 := MinHeap.mkst _ _) in Hpop.
    assert (Hlen' : length rest = n).
    { apply Permutation_length in Hperm. simpl in Hperm. lia. }
    destruct (IH st1 fuel Hlen' ltac:(lia) Hsz) as (rs & Hrun & Hperm' & Hasc).
    exists (r :: rs). split; [|split].
    + cbn [MinHeap.drain_loop]. unfold MinHeap.bind at 1.
      rewrite is_empty_eq.
      assert ((MinHeap.size (MinHeap.self st) =? 0)%Z = false) as ->
        by (apply Z.eqb_neq; unfold consistent in Hc; lia).
      unfold MinHeap.bind at 1. rewrite Hpop.
      unfold MinHeap.bind at 1. rewrite Hrun. done.
    + rewrite <- Hperm. by apply perm_skip.
    + intros Hh. destruct (Hmin Hh) as [Hall Hh'].
      constructor; [by apply Hasc|]. by rewrite Hperm'.
Qed.

Lemma pop_n_spec n : forall st,
  n <= length (MinHeap.heap (MinHeap.self st)) ->
  consistent (MinHeap.self st) ->
  exists rs rest,
    MinHeap.pop_n n st =
      (Return (values_of (MinHeap.store st) rs),
       MinHeap.mkst (MinHeap.store st)
         (MinHeap.with_heap rest
            (MinHeap.with_size (MinHeap.size (MinHeap.self st) - Z.of_nat n)%Z
                               (MinHeap.self st))))
    /\ length rs = n
    /\ rs ++ rest ≡ₚ MinHeap.heap (MinHeap.self st)
    /\ (heapq.heap_inv (ref_lt (MinHeap.store st)) (MinHeap.heap (MinHeap.self st)) ->
        ascending (MinHeap.store st) rs
        /\ Forall (fun r => Forall (fun r' =>
             HeapNode.leb (deref (MinHeap.store st) r)
                          (deref (MinHeap.store st) r') = true) rest) rs).
Proof.
  induction n as [|n IH]; intros st Hlen Hc.
  - exists [], (MinHeap.heap (MinHeap.self st)).
    split; [|split; [done|split; [done|split; constructor]]].
    cbn [MinHeap.pop_n]. unfold MinHeap.ret. f_equal.
    destruct st as [s [h sz cnt key ss]]. cbn. unfold MinHeap.with_heap, MinHeap.with_size.
    cbn. do 2 f_equal. lia.
  - assert (Hne : MinHeap.heap (MinHeap.self st) <> [])
      by (intros E; rewrite E in Hlen; simpl in Hlen; lia).
    destruct (pop_nonempty st Hc Hne)
      as (r & rest & Hroot & Hpop & Hperm & Hsz & Hmin).
    set (st1 := MinHeap.mkst _ _) in Hpop.
    assert (Hlen' : n <= length rest).
    { apply Permutation_length in Hperm. simpl in Hperm. simpl. lia. }
    destruct (IH st1 Hlen' Hsz) as (rs & rest' & Hrun & Hn & Hperm' & Hasc).
    cbn [MinHeap.store MinHeap.self st1 MinHeap.heap MinHeap.with_heap] in Hperm', Hasc.
    exists (r :: rs), rest'.
    split; [|split; [|split; [|]]].
    + cbn [MinHeap.pop_n]. unfold MinHeap.bind at 1. rewrite Hpop.
      unfold MinHeap.bind at 1. rewrite Hrun. unfold MinHeap.ret.
      cbn [MinHeap.store st1 values_of map]. do 2 f_equal.
      unfold MinHeap.with_heap, MinHeap.with_size. cbn. f_equal. lia.
    + simpl. by rewrite Hn.
    + simpl. rewrite <- Hperm. by apply perm_skip.
    + intros Hh. destruct (Hmin Hh) as [Hall Hh'].
      destruct (Hasc Hh') as [Hasc' Hsplit].
      rewrite <- Hperm' in Hall. apply Forall_app in Hall as [Hrs Hrest].
      split; by constructor.
Qed.

Lemma snapshot_exit_eq st ss saved :
  MinHeap._snapshots (MinHeap.self st) = ss ++ [saved] ->
  MinHeap.snapshot_exit st =
    (Return tt,
     MinHeap.mkst (MinHeap.store st)
       (MinHeap.mk saved (Z.of_nat (length saved))
          (MinHeap._insertion_count (MinHeap.self st))
          (MinHeap.key_func (MinHeap.self st)) ss)).
Proof.
  intros E. unfold MinHeap.snapshot_exit, MinHeap.bind, MinHeap.get.
  rewrite E, last_snoc. unfold MinHeap.set_self. cbn. rewrite E.
  rewrite length_app. cbn [length].
  replace (length ss + 1 - 1) with (length ss) by lia.
  by rewrite take_app_length.
Qed.

Lemma snapshot_exit_empty st :
  MinHeap._snapshots (MinHeap.self st) = [] ->
  MinHeap.snapshot_exit st = (Raise IndexError, st).
Proof.
  intros E. unfold MinHeap.snapshot_exit, MinHeap.bind, MinHeap.get. by rewrite E.
Qed.

(** * Reasoning about methods *)

Lemma bind_Return {A B} (m : MinHeap.M A) (k : A -> MinHeap.M B) st a st1 :
  m st = (Return a, st1) -> MinHeap.bind m k st = k a st1.
Proof. intros E. unfold MinHeap.bind. by rewrite E. Qed.

Lemma bind_Raise {A B} (m : MinHeap.M A) (k : A -> MinHeap.M B) st e st1 :
  m st = (Raise e, st1) -> MinHeap.bind m k st = (Raise e, st1).
Proof. intros E. unfold MinHeap.bind. by rewrite E. Qed.

Lemma getitem_Some st i r :
  MinHeap.heap (MinHeap.self st) !! i = Some r ->
  MinHeap.getitem i st = (Return r, st).
Proof. intros E. unfold MinHeap.getitem. by rewrite E. Qed.

Lemma getitem_lt st i :
  i < length (MinHeap.heap (MinHeap.self st)) ->
  MinHeap.getitem i st = (Return (MinHeap.heap (MinHeap.self st) !!! i), st).
Proof. intros Hi. by apply getitem_Some, list_lookup_lookup_total_lt. Qed.

Lemma setitem_lt st i r :
  i < length (MinHeap.heap (MinHeap.self st)) ->
  MinHeap.setitem i r st =
    (Return tt,
     MinHeap.mkst (MinHeap.store st)
       (MinHeap.with_heap (<[i := r]> (MinHeap.heap (MinHeap.self st)))
                          (MinHeap.self st))).
Proof.
  intros Hi. unfold MinHeap.setitem.
  by apply Nat.ltb_lt in Hi as ->.
Qed.

Section frame.
Variable R : MinHeap.state -> MinHeap.state -> Prop.
Hypothesis R_refl : forall st, R st st.
Hypothesis R_trans : forall a b c, R a b -> R b c -> R a c.

Local Abbreviation frame := (frame R).

Lemma frame_ret {A} (a : A) : frame (MinHeap.ret a).
Proof using R_refl. intros st. apply R_refl. Qed.

Lemma frame_raise {A} e : frame (MinHeap.raise (A:=A) e).
Proof using R_refl. intros st. apply R_refl. Qed.

Lemma frame_lift {A} (o : outcome A) : frame (MinHeap.lift o).
Proof using R_refl. intros st. apply R_refl. Qed.

Lemma frame_get : frame MinHeap.get.
Proof using R_refl. intros st. apply R_refl. Qed.

Lemma frame_getitem i : frame (MinHeap.getitem i).
Proof using R_refl.
  intros st. unfold MinHeap.getitem. destruct (_ !! _); apply R_refl.
Qed.

Lemma frame_bind {A B} (m : MinHeap.M A) (k : A -> MinHeap.M B) :
  frame m -> (forall a, frame (k a)) -> frame (MinHeap.bind m k).
Proof using R_trans.
  intros Hm Hk st. unfold MinHeap.bind. specialize (Hm st).
  destruct (m st) as [[a|e|] st1]; cbn [snd] in *; [|done|done].
  eapply R_trans; [exact Hm|apply Hk].
Qed.

Lemma frame_catch m : frame m -> frame (catch m).
Proof. intros Hm st. unfold catch. specialize (Hm st).
  by destruct (m st) as [[a|e|] st1]. Qed.

Lemma frame_discard {A} (m : MinHeap.M A) : frame m -> frame (discard m).
Proof using R_refl R_trans.
  intros Hm. apply frame_bind; [done|]. intros a. apply frame_ret.
Qed.


Lemma frame_set_self f :
  (forall st, R st (MinHeap.mkst (MinHeap.store st) (f (MinHeap.self st)))) ->
  frame (MinHeap.set_self f).
Proof. intros Hf st. apply Hf. Qed.

Lemma frame_set_store f :
  (forall st, R st (MinHeap.mkst (f (MinHeap.store st)) (MinHeap.self st))) ->
  frame (MinHeap.set_store f).
Proof. intros Hf st. apply Hf. Qed.

(** [R] allows overwriting a slot of the storage. *)
Hypothesis R_setitem : forall st i r,
  R st (MinHeap.mkst (MinHeap.store st)
          (MinHeap.with_heap (<[i := r]> (MinHeap.heap (MinHeap.self st)))
                             (MinHeap.self st))).

Lemma frame_setitem i r : frame (MinHeap.setitem i r).
Proof using R_refl R_setitem.
  intros st. unfold MinHeap.setitem. destruct (_ <? _); [|apply R_refl].
  apply R_setitem.
Qed.

Lemma frame__sift_up_loop fuel temp idx :
  frame (MinHeap._sift_up_loop fuel temp idx).
Proof using R_refl R_trans R_setitem.
  revert idx. induction fuel as [|fuel IH]; intros idx;
    cbn [MinHeap._sift_up_loop]; [apply frame_ret|].
  destruct (0 <? idx); [|apply frame_ret].
  apply frame_bind; [apply frame_getitem|intros parent].
  apply frame_bind; [apply frame_get|intros st].
  apply frame_bind; [apply frame_lift|intros stop].
  destruct stop; [apply frame_ret|].
  apply frame_bind; [apply frame_setitem|intros _]. apply IH.
Qed.

Lemma frame__sift_up idx : frame (MinHeap._sift_up idx).
Proof using R_refl R_trans R_setitem.
  apply frame_bind; [apply frame_getitem|intros temp].
  apply frame_bind; [apply frame__sift_up_loop|intros idx'].
  apply frame_setitem.
Qed.

Lemma frame__sift_down_loop fuel temp idx :
  frame (MinHeap._sift_down_loop fuel temp idx).
Proof using R_refl R_trans R_setitem.
  revert idx. induction fuel as [|fuel IH]; intros idx;
    cbn [MinHeap._sift_down_loop]; [apply frame_ret|].
  apply frame_bind; [apply frame_get|intros st].
  apply frame_bind.
  { destruct (_ <? _)%Z; [|apply frame_ret].
    apply frame_bind; [apply frame_getitem|intros l]. apply frame_ret. }
  intros smallest. apply frame_bind.
  { destruct (_ <? _)%Z; [|apply frame_ret].
    apply frame_bind; [apply frame_getitem|intros r].
    apply frame_bind; [apply frame_getitem|intros s']. apply frame_ret. }
  intros smallest'. destruct (_ =? _); [apply frame_ret|].
  apply frame_bind; [apply frame_getitem|intros s'].
  apply frame_bind; [apply frame_setitem|intros _]. apply IH.
Qed.

Lemma frame__sift_down idx : frame (MinHeap._sift_down idx).
Proof using R_refl R_trans R_setitem.
  apply frame_bind; [apply frame_getitem|intros temp].
  apply frame_bind; [apply frame_get|intros st].
  apply frame_bind; [apply frame__sift_down_loop|intros idx'].
  apply frame_setitem.
Qed.

End frame.

(** * Sequence numbers *)

Lemma numbered_refl st : numbered st st.
Proof. exists 0. split; [lia|]. simpl. by rewrite app_nil_r. Qed.

Lemma seq_shift_map (c : Z) (n m k : nat) :
  map (fun i => (c + Z.of_nat n + Z.of_nat i)%Z) (seq k m)
  = map (fun i => (c + Z.of_nat i)%Z) (seq (k + n) m).
Proof.
  revert k. induction m as [|m IH]; intros k; [done|].
  cbn [seq map]. f_equal; [lia|]. apply (IH (S k)).
Qed.

Lemma numbered_trans a b c : numbered a b -> numbered b c -> numbered a c.
Proof.
  intros (n & Hn & Hs) (m & Hm & Hs'). exists (n + m). split; [lia|].
  rewrite Hs', Hs, <- app_assoc. f_equal.
  rewrite seq_app, map_app. f_equal.
  rewrite Hn. apply seq_shift_map.
Qed.

Lemma numbered_self st f :
  MinHeap._insertion_count (f (MinHeap.self st))
    = MinHeap._insertion_count (MinHeap.self st) ->
  numbered st (MinHeap.mkst (MinHeap.store st) (f (MinHeap.self st))).
Proof. intros E. exists 0. split; [cbn; lia|]. cbn. by rewrite app_nil_r. Qed.

Lemma sequence_numbers_set_priority s r p :
  sequence_numbers (set_priority s r p) = sequence_numbers s.
Proof.
  unfold sequence_numbers, set_priority, deref. revert r.
  induction s as [|a s IH]; intros [|r]; try done.
  cbn. f_equal. apply IH.
Qed.

Lemma numbered_set_priority st r p :
  numbered st (MinHeap.mkst (set_priority (MinHeap.store st) r p) (MinHeap.self st)).
Proof.
  exists 0. split; [cbn; lia|]. cbn.
  by rewrite sequence_numbers_set_priority, app_nil_r.
Qed.

Create HintDb numbered.

Ltac frame_numbered :=
  repeat first
    [ solve [auto 1 with numbered nocore]
    | apply (frame_ret numbered numbered_refl)
    | apply (frame_raise numbered numbered_refl)
    | apply (frame_lift numbered numbered_refl)
    | apply (frame_get numbered numbered_refl)
    | apply (frame_getitem numbered numbered_refl)
    | apply (frame_setitem numbered numbered_refl);
        intros ? ? ?; apply numbered_self; reflexivity
    | apply (frame__sift_up numbered numbered_refl numbered_trans);
        intros ? ? ?; apply numbered_self; reflexivity
    | apply (frame__sift_down numbered numbered_refl numbered_trans);
        intros ? ? ?; apply numbered_self; reflexivity
    | apply (frame_set_self numbered); intros ?; apply numbered_self; reflexivity
    | apply (frame_set_store numbered); intros ?; apply numbered_set_priority
    | apply (frame_discard numbered numbered_refl numbered_trans)
    | apply (frame_bind numbered numbered_trans); [|intros ?]
    | match goal with
      | |- frame _ (match ?x with _ => _ end) => destruct x
      end ].

Lemma numbered_push_with_priority v p :
  frame numbered (MinHeap.push_with_priority v p).
Proof.
  intros st. exists 1. split; [cbn; lia|]. cbn.
  unfold sequence_numbers. rewrite map_app. cbn. do 3 f_equal. lia.
Qed.
#[local] Hint Resolve numbered_push_with_priority : numbered.

Lemma numbered_push v : frame numbered (MinHeap.push v).
Proof.
  unfold MinHeap.push. frame_numbered.
Qed.
#[local] Hint Resolve numbered_push : numbered.

Lemma numbered_pop : frame numbered MinHeap.pop.
Proof. unfold MinHeap.pop. frame_numbered. Qed.
#[local] Hint Resolve numbered_pop : numbered.

Lemma numbered_peek : frame numbered MinHeap.peek.
Proof. unfold MinHeap.peek. frame_numbered. Qed.
#[local] Hint Resolve numbered_peek : numbered.

Lemma numbered__heapify : frame numbered MinHeap._heapify.
Proof. unfold MinHeap._heapify. frame_numbered. Qed.
#[local] Hint Resolve numbered__heapify : numbered.

Lemma numbered_push_all items : frame numbered (MinHeap.push_all items).
Proof.
  induction items as [|item items IH]; cbn [MinHeap.push_all]; frame_numbered.
Qed.
#[local] Hint Resolve numbered_push_all : numbered.

Lemma numbered_bulk_push items : frame numbered (MinHeap.bulk_push items).
Proof.
  unfold MinHeap.bulk_push. frame_numbered.
Qed.
#[local] Hint Resolve numbered_bulk_push : numbered.

Lemma numbered_merge other : frame numbered (MinHeap.merge other).
Proof. unfold MinHeap.merge. frame_numbered. Qed.
#[local] Hint Resolve numbered_merge : numbered.

Lemma numbered_is_empty : frame numbered MinHeap.is_empty.
Proof. unfold MinHeap.is_empty. frame_numbered. Qed.
#[local] Hint Resolve numbered_is_empty : numbered.

Lemma numbered_drain_loop fuel : frame numbered (MinHeap.drain_loop fuel).
Proof.
  induction fuel as [|fuel IH]; cbn [MinHeap.drain_loop]; frame_numbered.
Qed.
#[local] Hint Resolve numbered_drain_loop : numbered.

Lemma numbered_drain : frame numbered MinHeap.drain.
Proof. unfold MinHeap.drain. frame_numbered. Qed.
#[local] Hint Resolve numbered_drain : numbered.

Lemma numbered_snapshot_enter : frame numbered MinHeap.snapshot_enter.
Proof. unfold MinHeap.snapshot_enter. frame_numbered. Qed.
#[local] Hint Resolve numbered_snapshot_enter : numbered.

Lemma numbered_snapshot_exit : frame numbered MinHeap.snapshot_exit.
Proof. unfold MinHeap.snapshot_exit. frame_numbered. Qed.
#[local] Hint Resolve numbered_snapshot_exit : numbered.

Lemma numbered_snapshot {A} (body : MinHeap.M A) :
  frame numbered body -> frame numbered (MinHeap.snapshot body).
Proof.
  intros Hbody st. unfold MinHeap.snapshot.
  pose proof (numbered_snapshot_enter st) as Henter.
  destruct (MinHeap.snapshot_enter st) as [[[]|e|] st1]; cbn [snd] in *; try done.
  pose proof (Hbody st1) as Hb.
  pose proof (numbered_trans _ _ _ Henter Hb) as Hb'.
  destruct (body st1) as [r st2]; cbn [snd] in *.
  pose proof (numbered_snapshot_exit st2) as Hexit.
  pose proof (numbered_trans _ _ _ Hb' Hexit) as Hall.
  destruct r; destruct (MinHeap.snapshot_exit st2) as [[[]|e'|] st3]; done.
Qed.

Lemma numbered_pop_n n : frame numbered (MinHeap.pop_n n).
Proof.
  induction n as [|n IH]; cbn [MinHeap.pop_n]; frame_numbered.
Qed.
#[local] Hint Resolve numbered_pop_n : numbered.

Lemma numbered_k_smallest k : frame numbered (MinHeap.k_smallest k).
Proof.
  unfold MinHeap.k_smallest. apply numbered_snapshot.
  frame_numbered.
Qed.
#[local] Hint Resolve numbered_k_smallest : numbered.

Lemma numbered_update_priority v p : frame numbered (MinHeap.update_priority v p).
Proof. unfold MinHeap.update_priority. frame_numbered. Qed.
#[local] Hint Resolve numbered_update_priority : numbered.

Lemma numbered_remove v : frame numbered (MinHeap.remove v).
Proof. unfold MinHeap.remove. frame_numbered. Qed.
#[local] Hint Resolve numbered_remove : numbered.

(** Induction on calls, through the bodies of scopes. *)
Lemma Call_nested_ind (P : Call -> Prop) :
  (forall v, P (call_push v)) ->
  (forall v p, P (call_push_with_priority v p)) ->
  P call_pop -> P call_peek ->
  (forall items, P (call_bulk_push items)) ->
  (forall other, P (call_merge other)) ->
  (forall k, P (call_k_smallest k)) ->
  (forall v p, P (call_update_priority v p)) ->
  (forall v, P (call_remove v)) ->
  P call_drain ->
  (forall body, Forall P body -> P (with_snapshot body)) ->
  (forall body, Forall P body -> P (try_except body)) ->
  forall c, P c.
Proof.
  intros H1 H2 H3 H4 H5 H6 H7 H8 H9 H10 Hs Ht.
  fix IH 1. intros [v|v p| | |items|other|k|v p|v| |body|body];
    [apply H1|apply H2|apply H3|apply H4|apply H5|apply H6|apply H7
    |apply H8|apply H9|apply H10| |].
  - apply Hs. induction body as [|c body IHb]; constructor; [apply IH|done].
  - apply Ht. induction body as [|c body IHb]; constructor; [apply IH|done].
Qed.

Lemma exec_with_snapshot body :
  exec (with_snapshot body) = MinHeap.snapshot (run body).
Proof. reflexivity. Qed.

Lemma exec_try_except body : exec (try_except body) = catch (run body).
Proof. reflexivity. Qed.

Lemma numbered_run_of body :
  Forall (fun c => frame numbered (exec c)) body -> frame numbered (run body).
Proof.
  induction 1 as [|c body Hc Hbody IH]; cbn [run]; frame_numbered; done.
Qed.

Lemma numbered_exec c : frame numbered (exec c).
Proof.
  induction c using Call_nested_ind;
    try (cbn [exec]; unfold discard; frame_numbered; fail).
  - rewrite exec_with_snapshot. by apply numbered_snapshot, numbered_run_of.
  - rewrite exec_try_except. by apply frame_catch, numbered_run_of.
Qed.

Lemma numbered_run cs : frame numbered (run cs).
Proof.
  apply numbered_run_of, Forall_forall. intros c _. apply numbered_exec.
Qed.

(** * Calls that return *)

Lemma returns_ret {A} (P : MinHeap.state -> Prop) (a : A) (Q : A -> MinHeap.state -> Prop) :
  (forall st, P st -> Q a st) -> returns P (MinHeap.ret a) Q.
Proof. intros HQ st HP. exists a, st. split; [done|by apply HQ]. Qed.

Lemma returns_bind {A B} (P : MinHeap.state -> Prop) (m : MinHeap.M A)
    (Q : A -> MinHeap.state -> Prop) (k : A -> MinHeap.M B)
    (S : B -> MinHeap.state -> Prop) :
  returns P m Q -> (forall a, returns (Q a) (k a) S) ->
  returns P (MinHeap.bind m k) S.
Proof.
  intros Hm Hk st HP. destruct (Hm st HP) as (a & st1 & Em & HQ).
  destruct (Hk a st1 HQ) as (b & st2 & Ek & HS).
  exists b, st2. split; [|done]. by rewrite (bind_Return _ _ _ _ _ Em).
Qed.

Lemma returns_weaken {A} (P P' : MinHeap.state -> Prop) (m : MinHeap.M A)
    (Q Q' : A -> MinHeap.state -> Prop) :
  returns P' m Q' -> (forall st, P st -> P' st) ->
  (forall a st, Q' a st -> Q a st) -> returns P m Q.
Proof.
  intros Hm HP HQ st Hst. destruct (Hm st (HP st Hst)) as (a & st1 & Em & HQ').
  exists a, st1. split; [done|by apply HQ].
Qed.

Lemma returns_get (P : MinHeap.state -> Prop) :
  returns P MinHeap.get (fun a st => a = st /\ P st).
Proof. intros st HP. by exists st, st. Qed.

Lemma returns_getitem (P : MinHeap.state -> Prop) i n :
  (forall st, P st -> length (MinHeap.heap (MinHeap.self st)) = n) -> i < n ->
  returns P (MinHeap.getitem i) (fun _ st => P st).
Proof.
  intros Hlen Hi st HP. eexists _, st. split; [|done].
  apply getitem_lt. rewrite (Hlen st HP). done.
Qed.

Lemma reordered_refl st : reordered st st.
Proof.
  split; [done|]. exists (MinHeap.heap (MinHeap.self st)).
  split; [|done]. by destruct st as [s []].
Qed.

Lemma reordered_trans a b c : reordered a b -> reordered b c -> reordered a c.
Proof.
  intros (Hs & l & Hl & Hlen) (Hs' & l' & Hl' & Hlen').
  split; [congruence|]. exists l'. rewrite Hl', Hl. split; [done|].
  rewrite Hlen', Hl. cbn. done.
Qed.

Lemma reordered_setitem st i r :
  reordered st
    (MinHeap.mkst (MinHeap.store st)
       (MinHeap.with_heap (<[i := r]> (MinHeap.heap (MinHeap.self st)))
                          (MinHeap.self st))).
Proof. split; [done|]. eexists. split; [done|]. apply length_insert. Qed.

Lemma reordered_length st st' :
  reordered st st' ->
  length (MinHeap.heap (MinHeap.self st')) = length (MinHeap.heap (MinHeap.self st)).
Proof. intros (_ & l & -> & Hl). done. Qed.

Lemma reordered_size st st' :
  reordered st st' -> MinHeap.size (MinHeap.self st') = MinHeap.size (MinHeap.self st).
Proof. intros (_ & l & -> & Hl). done. Qed.

Lemma returns_setitem st0 i r :
  i < length (MinHeap.heap (MinHeap.self st0)) ->
  returns (reordered st0) (MinHeap.setitem i r) (fun _ st => reordered st0 st).
Proof.
  intros Hi st Hst. eexists tt, _. split.
  - apply setitem_lt. by rewrite (reordered_length _ _ Hst).
  - eapply reordered_trans; [exact Hst|apply reordered_setitem].
Qed.

(** On a consistent heap the loop of [_sift_down] reads and writes inside
    the storage only: it returns. *)
Lemma returns__sift_down_loop st0 fuel temp : forall idx,
  consistent (MinHeap.self st0) ->
  idx < length (MinHeap.heap (MinHeap.self st0)) ->
  returns (reordered st0) (MinHeap._sift_down_loop fuel temp idx)
    (fun idx' st => reordered st0 st
                    /\ idx' < length (MinHeap.heap (MinHeap.self st0))).
Proof.
  induction fuel as [|fuel IH]; intros idx Hc Hidx; cbn [MinHeap._sift_down_loop].
  - by apply returns_ret.
  - assert (Hlen : forall st, reordered st0 st ->
              length (MinHeap.heap (MinHeap.self st))
              = length (MinHeap.heap (MinHeap.self st0)))
      by apply reordered_length.
    eapply returns_bind; [apply returns_get|]. intros st1.
    set (inside := fun (smallest : nat) (st : MinHeap.state) =>
           st1 = st /\ reordered st0 st
           /\ smallest < length (MinHeap.heap (MinHeap.self st0))
           /\ (smallest = idx \/ idx < smallest)).
    eapply (returns_bind _ _ inside).
    { intros st [<- Hst].
      destruct (Z.ltb_spec (Z.of_nat (2 * idx + 1)) (MinHeap.size (MinHeap.self st1)))
        as [Hl|Hl].
      - assert (Hin : 2 * idx + 1 < length (MinHeap.heap (MinHeap.self st1))).
        { rewrite (Hlen _ Hst). rewrite (reordered_size _ _ Hst) in Hl.
          unfold consistent in Hc. lia. }
        rewrite (bind_Return _ _ _ _ _ (getitem_lt _ _ Hin)).
        eexists _, st1. split; [done|]. rewrite (Hlen _ Hst) in Hin.
        destruct (ref_lt _ _ _); (split; [done|split; [done|split; lia]]).
      - eexists _, st1. split; [done|]. split; [done|split; [done|split; lia]]. }
    intros smallest.
    eapply (returns_bind _ _ inside).
    { intros st (<- & Hst & Hsm & Hge).
      destruct (Z.ltb_spec (Z.of_nat (2 * idx + 2)) (MinHeap.size (MinHeap.self st1)))
        as [Hl|Hl].
      - assert (Hin : 2 * idx + 2 < length (MinHeap.heap (MinHeap.self st1))).
        { rewrite (Hlen _ Hst). rewrite (reordered_size _ _ Hst) in Hl.
          unfold consistent in Hc. lia. }
        rewrite (bind_Return _ _ _ _ _ (getitem_lt _ _ Hin)).
        assert (Hin' : smallest < length (MinHeap.heap (MinHeap.self st1)))
          by by rewrite (Hlen _ Hst).
        rewrite (bind_Return _ _ _ _ _ (getitem_lt _ _ Hin')).
        eexists _, st1. split; [done|]. rewrite (Hlen _ Hst) in Hin.
        destruct (ref_lt _ _ _); (split; [done|split; [done|split; lia]]).
      - eexists _, st1. split; [done|]. done. }
    intros smallest'.
    destruct (Nat.eqb_spec smallest' idx) as [->|Hne].
    + apply returns_ret. intros st (_ & Hst & Hsm & _). done.
    + intros st (<- & Hst & Hsm & Hge).
      assert (Hin : smallest' < length (MinHeap.heap (MinHeap.self st1)))
        by by rewrite (Hlen _ Hst).
      rewrite (bind_Return _ _ _ _ _ (getitem_lt _ _ Hin)).
      destruct (returns_setitem st0 idx (MinHeap.heap (MinHeap.self st1) !!! smallest')
                  Hidx st1 Hst) as ([] & st2 & Eset & Hst2).
      rewrite (bind_Return _ _ _ _ _ Eset).
      by apply (IH smallest' Hc Hsm).
Qed.

Lemma returns__sift_down st idx :
  consistent (MinHeap.self st) ->
  idx < length (MinHeap.heap (MinHeap.self st)) ->
  exists st', MinHeap._sift_down idx st = (Return tt, st') /\ reordered st st'.
Proof.
  intros Hc Hidx. unfold MinHeap._sift_down.
  rewrite (bind_Return _ _ _ _ _ (getitem_lt _ _ Hidx)).
  unfold MinHeap.bind at 1, MinHeap.get.
  destruct (returns__sift_down_loop st (S (Z.to_nat (MinHeap.size (MinHeap.self st))))
              (MinHeap.heap (MinHeap.self st) !!! idx) idx Hc Hidx st
              (reordered_refl st)) as (idx' & st1 & Eloop & Hst1 & Hidx').
  rewrite (bind_Return _ _ _ _ _ Eloop).
  destruct (returns_setitem st idx' (MinHeap.heap (MinHeap.self st) !!! idx)
              Hidx' st1 Hst1) as ([] & st2 & Eset & Hst2).
  exists st2. done.
Qed.

(** * The effect of each call on [size] *)

Lemma effect_same {A} st (a : outcome A) :
  a <> Diverge -> consistent (MinHeap.self st) -> effect st (a, st) 0.
Proof. intros Ha Hc. repeat split; cbn; try done. lia. Qed.

Lemma effect_bind {A B} (m : MinHeap.M A) (k : A -> MinHeap.M B) st d1 d2 a st1 :
  m st = (Return a, st1) -> effect st (m st) d1 -> effect st1 (k a st1) d2 ->
  effect st (MinHeap.bind m k st) (d1 + d2).
Proof.
  intros Em (_ & Hc1 & Hs1 & Hz1) (Hr & Hc2 & Hs2 & Hz2).
  rewrite (bind_Return _ _ _ _ _ Em). rewrite Em in *. cbn [fst snd] in *.
  repeat split; try done; [congruence|lia].
Qed.

Ltac fields :=
  cbn [fst snd MinHeap.self MinHeap.store MinHeap.heap MinHeap.size
       MinHeap._snapshots MinHeap._insertion_count MinHeap.key_func
       MinHeap.with_heap MinHeap.with_size MinHeap.with_count
       MinHeap.with_snapshots] in *.

Lemma push_with_priority_eq st v p :
  MinHeap.push_with_priority v p st =
    (Return tt,
     MinHeap.mkst
       (MinHeap.store st
        ++ [HeapNode.mk p v (MinHeap._insertion_count (MinHeap.self st))])
       (MinHeap.mk
          (heapq.heappush
             (ref_lt (MinHeap.store st
                      ++ [HeapNode.mk p v (MinHeap._insertion_count (MinHeap.self st))]))
             (MinHeap.heap (MinHeap.self st)) (length (MinHeap.store st)))
          (MinHeap.size (MinHeap.self st) + 1)
          (MinHeap._insertion_count (MinHeap.self st) + 1)
          (MinHeap.key_func (MinHeap.self st))
          (MinHeap._snapshots (MinHeap.self st)))).
Proof. reflexivity. Qed.

Lemma _heapify_eq st :
  MinHeap._heapify st =
    (Return tt,
     MinHeap.mkst (MinHeap.store st)
       (MinHeap.with_heap
          (heapq.heapify (ref_lt (MinHeap.store st)) (MinHeap.heap (MinHeap.self st)))
          (MinHeap.self st))).
Proof. reflexivity. Qed.

Lemma merge_eq other st :
  MinHeap.merge other st =
    (Return tt,
     MinHeap.mkst (MinHeap.store st)
       (MinHeap.mk
          (heapq.heapify (ref_lt (MinHeap.store st))
             (MinHeap.heap (MinHeap.self st) ++ MinHeap.heap other))
          (MinHeap.size (MinHeap.self st) + MinHeap.size other)
          (MinHeap._insertion_count (MinHeap.self st))
          (MinHeap.key_func (MinHeap.self st))
          (MinHeap._snapshots (MinHeap.self st)))).
Proof. reflexivity. Qed.

Lemma effect_push_with_priority st v p :
  consistent (MinHeap.self st) -> effect st (MinHeap.push_with_priority v p st) 1.
Proof.
  intros Hc. rewrite push_with_priority_eq. unfold effect. fields.
  unfold consistent in *. fields.
  rewrite heappush_length. repeat split; try done; lia.
Qed.

Lemma push_cases st v :
  (exists p, MinHeap.push v st = MinHeap.push_with_priority v p st)
  \/ MinHeap.push v st = (Raise TypeError, st).
Proof.
  unfold MinHeap.push, MinHeap.bind, MinHeap.get. cbv beta iota.
  destruct (MinHeap.key_func _); [left; eauto|].
  destruct v; [right|left; eauto|right|right]; reflexivity.
Qed.

Lemma effect_push st v :
  consistent (MinHeap.self st) ->
  effect st (MinHeap.push v st)
    (match MinHeap.push v st with (Return _, _) => 1 | _ => 0 end).
Proof.
  intros Hc. destruct (push_cases st v) as [[p ->]| ->].
  - by apply effect_push_with_priority.
  - by apply effect_same.
Qed.

Lemma effect_pop st :
  consistent (MinHeap.self st) ->
  effect st (MinHeap.pop st)
    (match MinHeap.heap (MinHeap.self st) with [] => 0 | _ => -1 end).
Proof.
  intros Hc. destruct (MinHeap.heap (MinHeap.self st)) as [|r0 l] eqn:E.
  - rewrite (pop_empty _ E). by apply effect_same.
  - assert (Hne : MinHeap.heap (MinHeap.self st) <> []) by by rewrite E.
    destruct (pop_nonempty st Hc Hne) as (r & rest & _ & -> & _ & Hsz & _).
    repeat split; cbn; done.
Qed.

Lemma effect_peek st :
  consistent (MinHeap.self st) -> effect st (MinHeap.peek st) 0.
Proof.
  intros Hc. unfold MinHeap.peek, MinHeap.bind, MinHeap.get.
  destruct (MinHeap.heap _); by apply effect_same.
Qed.

Lemma effect__heapify st :
  consistent (MinHeap.self st) -> effect st (MinHeap._heapify st) 0.
Proof.
  intros Hc. rewrite _heapify_eq. unfold effect. fields.
  unfold consistent in *. fields.
  rewrite heapify_length. repeat split; try done; lia.
Qed.

Lemma effect_push_all items : forall st,
  consistent (MinHeap.self st) ->
  effect st (MinHeap.push_all items st) (pushed items st).
Proof.
  induction items as [|item items IH]; intros st Hc; cbn [MinHeap.push_all pushed].
  - by apply effect_same.
  - pose proof (effect_push st item Hc) as Hpush.
    destruct (MinHeap.push item st) as [[[]|e|] st1] eqn:E.
    + rewrite <- E in Hpush.
      eapply effect_bind; [exact E|exact Hpush|].
      apply IH. rewrite E in Hpush. by destruct Hpush as (_ & ? & _).
    + by rewrite (bind_Raise _ _ _ _ _ E).
    + by destruct Hpush as [? _].
Qed.

Lemma effect_bulk_push items st :
  consistent (MinHeap.self st) ->
  effect st (MinHeap.bulk_push items st) (pushed items st).
Proof.
  intros Hc. unfold MinHeap.bulk_push.
  pose proof (effect_push_all items st Hc) as Hall.
  destruct (MinHeap.push_all items st) as [[[]|e|] st1] eqn:E.
  - replace (pushed items st) with (pushed items st + 0)%Z by lia.
    rewrite <- E in Hall. eapply effect_bind; [exact E|exact Hall|].
    apply effect__heapify. rewrite E in Hall. by destruct Hall as (_ & ? & _).
  - by rewrite (bind_Raise _ _ _ _ _ E).
  - by destruct Hall as [? _].
Qed.

Lemma effect_merge other st :
  consistent (MinHeap.self st) -> consistent other ->
  effect st (MinHeap.merge other st) (Z.of_nat (length (MinHeap.heap other))).
Proof.
  intros Hc Ho. rewrite merge_eq. unfold effect. fields.
  unfold consistent in *. fields.
  rewrite heapify_length, length_app. repeat split; try done; lia.
Qed.

(** [k_smallest] leaves a consistent heap exactly as it found it. *)
Lemma k_smallest_restores st k :
  consistent (MinHeap.self st) ->
  exists vs, MinHeap.k_smallest k st = (Return vs, st).
Proof.
  intros Hc.
  set (n := Z.to_nat (Z.min k (MinHeap.size (MinHeap.self st)))).
  set (st1 := MinHeap.mkst (MinHeap.store st)
                (MinHeap.with_snapshots
                   (MinHeap._snapshots (MinHeap.self st)
                    ++ [MinHeap.heap (MinHeap.self st)]) (MinHeap.self st))).
  assert (Hn : n <= length (MinHeap.heap (MinHeap.self st1)))
    by (unfold consistent in Hc; cbn; lia).
  destruct (pop_n_spec n st1 Hn Hc) as (rs & rest & Hrun & _).
  eexists.
  unfold MinHeap.k_smallest, MinHeap.snapshot.
  change (MinHeap.snapshot_enter st) with (Return tt, st1).
  cbn iota beta. unfold MinHeap.bind at 1, MinHeap.get.
  change (MinHeap.size (MinHeap.self st1)) with (MinHeap.size (MinHeap.self st)).
  fold n. rewrite Hrun.
  erewrite snapshot_exit_eq by reflexivity.
  cbn [MinHeap.store st1]. f_equal.
  destruct st as [s [h sz cnt key ss]]. cbn in *. unfold consistent in Hc.
  cbn in Hc. by rewrite Hc.
Qed.

Lemma effect_k_smallest st k :
  consistent (MinHeap.self st) -> effect st (discard (MinHeap.k_smallest k) st) 0.
Proof.
  intros Hc. destruct (k_smallest_restores st k Hc) as (vs & E).
  unfold discard. rewrite (bind_Return _ _ _ _ _ E). by apply effect_same.
Qed.

(** ** update_priority *)

Lemma kept_refl st : kept st st.
Proof. done. Qed.

Lemma kept_trans a b c : kept a b -> kept b c -> kept a c.
Proof. unfold kept. intros (? & ? & ?) (? & ? & ?). repeat split; congruence. Qed.

Lemma kept_setitem st i r :
  kept st (MinHeap.mkst (MinHeap.store st)
             (MinHeap.with_heap (<[i := r]> (MinHeap.heap (MinHeap.self st)))
                                (MinHeap.self st))).
Proof. unfold kept. fields. by rewrite length_insert. Qed.

Lemma kept_update_priority v p : frame kept (MinHeap.update_priority v p).
Proof.
  unfold MinHeap.update_priority.
  apply (frame_bind kept kept_trans); [apply (frame_get kept kept_refl)|intros st].
  destruct (MinHeap.index_of _ _ _ _); [|apply (frame_ret kept kept_refl)].
  apply (frame_bind kept kept_trans);
    [apply (frame_getitem kept kept_refl)|intros node].
  apply (frame_bind kept kept_trans); [by apply (frame_set_store kept)|intros _].
  apply (frame_bind kept kept_trans); [|intros _; apply (frame_ret kept kept_refl)].
  destruct (_ <? _)%Z.
  - apply (frame__sift_up kept kept_refl kept_trans kept_setitem).
  - apply (frame__sift_down kept kept_refl kept_trans kept_setitem).
Qed.

Section terminates.

Lemma terminates_ret {A} (a : A) : terminates (MinHeap.ret a).
Proof. done. Qed.

Lemma terminates_raise {A} e : terminates (MinHeap.raise (A:=A) e).
Proof. done. Qed.

Lemma terminates_bind {A B} (m : MinHeap.M A) (k : A -> MinHeap.M B) :
  terminates m -> (forall a, terminates (k a)) -> terminates (MinHeap.bind m k).
Proof.
  intros Hm Hk st. unfold MinHeap.bind. specialize (Hm st).
  destruct (m st) as [[a|e|] st1]; [apply Hk|done|done].
Qed.

Lemma terminates_getitem i : terminates (MinHeap.getitem i).
Proof. intros st. unfold MinHeap.getitem. by destruct (_ !! _). Qed.

Lemma terminates_setitem i r : terminates (MinHeap.setitem i r).
Proof. intros st. unfold MinHeap.setitem. by destruct (_ <? _). Qed.

Lemma terminates__sift_up_loop fuel temp idx :
  terminates (MinHeap._sift_up_loop fuel temp idx).
Proof.
  revert idx. induction fuel as [|fuel IH]; intros idx;
    cbn [MinHeap._sift_up_loop]; [done|].
  destruct (0 <? idx); [|done].
  apply terminates_bind; [apply terminates_getitem|intros parent].
  apply terminates_bind; [done|intros st].
  apply terminates_bind; [done|intros stop].
  destruct stop; [done|].
  apply terminates_bind; [apply terminates_setitem|intros _]. apply IH.
Qed.

Lemma terminates__sift_up idx : terminates (MinHeap._sift_up idx).
Proof.
  apply terminates_bind; [apply terminates_getitem|intros temp].
  apply terminates_bind; [apply terminates__sift_up_loop|intros idx'].
  apply terminates_setitem.
Qed.

Lemma terminates__sift_down_loop fuel temp idx :
  terminates (MinHeap._sift_down_loop fuel temp idx).
Proof.
  revert idx. induction fuel as [|fuel IH]; intros idx;
    cbn [MinHeap._sift_down_loop]; [done|].
  apply terminates_bind; [done|intros st].
  apply terminates_bind.
  { destruct (_ <? _)%Z; [|done].
    apply terminates_bind; [apply terminates_getitem|done]. }
  intros smallest. apply terminates_bind.
  { destruct (_ <? _)%Z; [|done].
    apply terminates_bind; [apply terminates_getitem|intros r].
    apply terminates_bind; [apply terminates_getitem|done]. }
  intros smallest'. destruct (_ =? _); [done|].
  apply terminates_bind; [apply terminates_getitem|intros s'].
  apply terminates_bind; [apply terminates_setitem|intros _]. apply IH.
Qed.

Lemma terminates__sift_down idx : terminates (MinHeap._sift_down idx).
Proof.
  apply terminates_bind; [apply terminates_getitem|intros temp].
  apply terminates_bind; [done|intros st].
  apply terminates_bind; [apply terminates__sift_down_loop|intros idx'].
  apply terminates_setitem.
Qed.

Lemma terminates_update_priority v p : terminates (MinHeap.update_priority v p).
Proof.
  unfold MinHeap.update_priority.
  apply terminates_bind; [done|intros st].
  destruct (MinHeap.index_of _ _ _ _); [|done].
  apply terminates_bind; [apply terminates_getitem|intros node].
  apply terminates_bind; [done|intros _].
  apply terminates_bind; [|done].
  destruct (_ <? _)%Z; [apply terminates__sift_up|apply terminates__sift_down].
Qed.

End terminates.

Lemma discard_fst {A} (m : MinHeap.M A) st :
  (discard m st).1 <> Diverge <-> (m st).1 <> Diverge.
Proof. unfold discard, MinHeap.bind. by destruct (m st) as [[a|e|] st1]. Qed.

Lemma discard_snd {A} (m : MinHeap.M A) st : (discard m st).2 = (m st).2.
Proof. unfold discard, MinHeap.bind. by destruct (m st) as [[a|e|] st1]. Qed.

Lemma effect_discard {A} (m : MinHeap.M A) st d :
  effect st (m st) d -> effect st (discard m st) d.
Proof.
  unfold effect. rewrite discard_fst, discard_snd. done.
Qed.

Lemma effect_update_priority st v p :
  consistent (MinHeap.self st) ->
  effect st (MinHeap.update_priority v p st) 0.
Proof.
  intros Hc. destruct (kept_update_priority v p st) as (Hl & Hs & Hss).
  split; [apply terminates_update_priority|].
  unfold consistent in *. repeat split; [congruence|done|lia].
Qed.

(** ** remove *)

Lemma index_of_Some s v l k i :
  MinHeap.index_of s v l k = Some i ->
  k <= i /\ i - k < length l
  /\ exists r, l !! (i - k) = Some r
       /\ py_eqb (HeapNode.value (deref s r)) v = true
       /\ forall j r', j < i - k -> l !! j = Some r' ->
            py_eqb (HeapNode.value (deref s r')) v = false.
Proof.
  revert k. induction l as [|r l IH]; intros k; cbn [MinHeap.index_of]; [done|].
  destruct (py_eqb _ _) eqn:E.
  - intros [= ->]. replace (i - i) with 0 by lia.
    split; [lia|]. split; [simpl; lia|]. exists r. split; [done|].
    split; [done|]. intros j r' Hj. lia.
  - intros Hi. destruct (IH _ Hi) as (Hk & Hlt & r1 & Hr1 & Hv & Hfirst).
    split; [lia|]. split; [simpl; lia|]. exists r1.
    replace (i - k) with (S (i - S k)) by lia.
    split; [done|]. split; [done|].
    intros [|j] r' Hj; cbn; [by intros [= <-]|].
    apply Hfirst. lia.
Qed.

Lemma index_of_None s v l k :
  MinHeap.index_of s v l k = None ->
  Forall (fun r => py_eqb (HeapNode.value (deref s r)) v = false) l.
Proof.
  revert k. induction l as [|r l IH]; intros k; cbn [MinHeap.index_of];
    [constructor|].
  destruct (py_eqb _ _) eqn:E; [done|]. intros Hi. constructor; [done|by eapply IH].
Qed.

Lemma remove_missing st v :
  MinHeap.index_of (MinHeap.store st) v (MinHeap.heap (MinHeap.self st)) 0 = None ->
  MinHeap.remove v st = (Return false, st).
Proof.
  intros E. unfold MinHeap.remove, MinHeap.bind at 1, MinHeap.get. by rewrite E.
Qed.

Lemma remove_found st v i :
  consistent (MinHeap.self st) ->
  MinHeap.index_of (MinHeap.store st) v (MinHeap.heap (MinHeap.self st)) 0 = Some i ->
  exists st',
    MinHeap.remove v st = (Return true, st')
    /\ MinHeap.store st' = MinHeap.store st
    /\ MinHeap.size (MinHeap.self st') = (MinHeap.size (MinHeap.self st) - 1)%Z
    /\ S (length (MinHeap.heap (MinHeap.self st')))
       = length (MinHeap.heap (MinHeap.self st))
    /\ MinHeap._snapshots (MinHeap.self st') = MinHeap._snapshots (MinHeap.self st).
Proof.
  intros Hc E.
  destruct (index_of_Some _ _ _ _ _ E) as (_ & Hi & _).
  rewrite Nat.sub_0_r in Hi.
  unfold MinHeap.remove, MinHeap.bind at 1, MinHeap.get. rewrite E.
  destruct (last (MinHeap.heap (MinHeap.self st))) as [lastnode|] eqn:El.
  2: { apply last_None in El. rewrite El in Hi. simpl in Hi. lia. }
  rewrite (bind_Return _ _ _ _ _ (setitem_lt st i lastnode Hi)).
  unfold MinHeap.bind at 1, MinHeap.set_self at 1. fields.
  unfold MinHeap.bind at 1, MinHeap.set_self at 1. fields.
  unfold MinHeap.bind at 1, MinHeap.get. fields.
  set (st2 := MinHeap.mkst _ _).
  assert (Hlen2 : S (length (MinHeap.heap (MinHeap.self st2)))
                  = length (MinHeap.heap (MinHeap.self st))).
  { subst st2. fields. rewrite length_take, length_insert. lia. }
  assert (Hc2 : consistent (MinHeap.self st2)).
  { unfold consistent in *. rewrite <- Hlen2 in Hc. subst st2. fields. lia. }
  destruct (i <? _) eqn:Ei.
  - apply Nat.ltb_lt in Ei.
    destruct (returns__sift_down st2 i Hc2 Ei) as (st3 & Esift & Hre).
    rewrite (bind_Return _ _ _ _ _ Esift).
    exists st3. split; [done|].
    pose proof (reordered_length _ _ Hre) as Hl3.
    pose proof (reordered_size _ _ Hre) as Hs3.
    destruct Hre as (Hst3 & l & Hself & _).
    split; [by rewrite Hst3|]. split; [by rewrite Hs3|].
    split; [by rewrite Hl3|]. by rewrite Hself.
  - exists st2. done.
Qed.

Lemma effect_remove st v :
  consistent (MinHeap.self st) ->
  effect st (MinHeap.remove v st)
    (match MinHeap.remove v st with (Return true, _) => -1 | _ => 0 end).
Proof.
  intros Hc.
  destruct (MinHeap.index_of (MinHeap.store st) v (MinHeap.heap (MinHeap.self st)) 0)
    as [i|] eqn:E.
  - destruct (remove_found st v i Hc E) as (st' & -> & _ & Hsz & Hlen & Hss).
    unfold effect, consistent in *. fields. repeat split; try done; lia.
  - rewrite (remove_missing st v E). by apply effect_same.
Qed.

(** ** drain *)

Lemma drain_returns st :
  consistent (MinHeap.self st) ->
  exists vs st',
    MinHeap.drain st = (Return vs, st')
    /\ Z.of_nat (length vs) = MinHeap.size (MinHeap.self st)
    /\ st' = MinHeap.mkst (MinHeap.store st)
               (MinHeap.with_heap [] (MinHeap.with_size 0 (MinHeap.self st))).
Proof.
  intros Hc.
  destruct (drain_loop_spec (length (MinHeap.heap (MinHeap.self st))) st
              (Z.to_nat (MinHeap.size (MinHeap.self st))) eq_refl
              ltac:(unfold consistent in Hc; lia) Hc)
    as (rs & Hrun & Hperm & _).
  eexists _, _. split; [exact Hrun|]. split; [|done].
  unfold values_of. rewrite length_map, (Permutation_length Hperm). by rewrite Hc.
Qed.

Lemma effect_drain st :
  consistent (MinHeap.self st) ->
  effect st (MinHeap.drain st)
    (match MinHeap.drain st with
     | (Return vs, _) => - Z.of_nat (length vs)
     | _ => 0
     end).
Proof.
  intros Hc. destruct (drain_returns st Hc) as (vs & st' & -> & Hlen & ->).
  unfold effect, consistent. fields. repeat split; try done. lia.
Qed.

(** ** Programs *)

Lemma tally_try_except scopes body st :
  tally scopes (try_except body) st = tally_run scopes body st.
Proof. reflexivity. Qed.

Lemma tally_with_snapshot body st :
  tally true (with_snapshot body) st
  = tally_run true body (MinHeap.snapshot_enter st).2.
Proof. reflexivity. Qed.

Lemma merges_consistent_body body :
  (merges_consistent (with_snapshot body) <-> all_merges_consistent body)
  /\ (merges_consistent (try_except body) <-> all_merges_consistent body).
Proof. split; reflexivity. Qed.

Lemma effect_snapshot {A} (body : MinHeap.M A) st (d : MinHeap.state -> Z) :
  consistent (MinHeap.self st) ->
  (forall st1, consistent (MinHeap.self st1) -> effect st1 (body st1) (d st1)) ->
  effect st (MinHeap.snapshot body st) 0.
Proof.
  intros Hc Hbody. unfold MinHeap.snapshot.
  set (st1 := MinHeap.mkst (MinHeap.store st)
                (MinHeap.with_snapshots
                   (MinHeap._snapshots (MinHeap.self st)
                    ++ [MinHeap.heap (MinHeap.self st)]) (MinHeap.self st))).
  change (MinHeap.snapshot_enter st) with (Return tt, st1). cbv beta iota.
  destruct (Hbody st1 Hc) as (Hr & Hc2 & Hss & _).
  destruct (body st1) as [r st2]. fields.
  rewrite (snapshot_exit_eq st2 _ _ Hss).
  unfold effect, consistent in *.
  destruct r; fields; repeat split; try done; lia.
Qed.

Lemma effect_catch m st d :
  effect st (m st) d -> effect st (catch m st) d.
Proof.
  unfold effect, catch.
  destruct (m st) as [[[]|e|] st1]; cbn [fst snd]; intros (? & ? & ? & ?);
    repeat split; done.
Qed.

Lemma effect_run_of body :
  Forall (fun c => forall st, consistent (MinHeap.self st) -> merges_consistent c ->
            effect st (exec c st) (tally false c st)) body ->
  forall st, consistent (MinHeap.self st) -> all_merges_consistent body ->
    effect st (run body st) (tally_run false body st).
Proof.
  induction 1 as [|c body Hc Hbody IH]; intros st Hst Hm.
  - by apply effect_same.
  - destruct Hm as [Hmc Hmb].
    pose proof (Hc st Hst Hmc) as Hexec.
    change (tally_run false (c :: body) st)
      with (tally false c st
            + match exec c st with
              | (Return _, st1) => tally_run false body st1
              | _ => 0
              end)%Z.
    cbn [run].
    destruct (exec c st) as [[[]|e|] st1] eqn:E.
    + rewrite <- E in Hexec. eapply effect_bind; [exact E|exact Hexec|].
      apply IH; [|done]. rewrite E in Hexec. by destruct Hexec as (_ & ? & _).
    + rewrite (bind_Raise _ _ _ _ _ E). by rewrite Z.add_0_r.
    + by destruct Hexec as [? _].
Qed.

Lemma effect_exec c : forall st,
  consistent (MinHeap.self st) -> merges_consistent c ->
  effect st (exec c st) (tally false c st).
Proof.
  induction c as [v|v p| | |items|other|k|v p|v| |body IH|body IH]
    using Call_nested_ind; intros st Hst Hm.
  - by apply effect_push.
  - by apply effect_push_with_priority.
  - by apply effect_discard, effect_pop.
  - by apply effect_discard, effect_peek.
  - by apply effect_bulk_push.
  - by apply effect_merge.
  - by apply effect_k_smallest.
  - by apply effect_discard, effect_update_priority.
  - by apply effect_discard, effect_remove.
  - by apply effect_discard, effect_drain.
  - rewrite exec_with_snapshot.
    apply (effect_snapshot (run body) st (tally_run false body) Hst).
    intros st1 Hst1. by apply effect_run_of.
  - rewrite exec_try_except, tally_try_except.
    by apply effect_catch, effect_run_of.
Qed.

Lemma effect_run cs st :
  consistent (MinHeap.self st) -> all_merges_consistent cs ->
  effect st (run cs st) (tally_run false cs st).
Proof.
  apply effect_run_of, Forall_forall. intros c _. apply effect_exec.
Qed.

(** * The example states are reached by public calls *)

Example scenario_A_reached : (run scenario_A_calls fresh) = (Return tt, scenario_A).
Proof. vm_compute. reflexivity. Qed.

Example seven_reached :
  run (pushes [1; 10; 2; 11; 12; 3; 4]%Z) fresh = (Return tt, seven).
Proof. vm_compute. reflexivity. Qed.

Example seven'_reached :
  run (pushes [1; 10; 2; 11; 12; 20; 4]%Z) fresh = (Return tt, seven').
Proof. vm_compute. reflexivity. Qed.

Example five_reached : run (pushes [1; 2; 10; 20; 3]%Z) fresh = (Return tt, five).
Proof. vm_compute. reflexivity. Qed.

Example single_reached :
  run [call_push_with_priority (PStr "a") 5] fresh = (Return tt, single).
Proof. vm_compute. reflexivity. Qed.

Example two_heaps_reached :
  World.call 1 (MinHeap.push_with_priority (task "task5" 5) 3)
    (World.call 0 (run scenario_A_calls)
       (World.mk [] [MinHeap.blank None; MinHeap.blank None])).2
  = (Return tt, two_heaps).
Proof. vm_compute. reflexivity. Qed.

(** Scenario A: [peek()] returns (1, task4). *)
Example scenario_A_peek :
  MinHeap.peek scenario_A = (Return (PTuple [PInt 1; task "task4" 4]), scenario_A).
Proof. reflexivity. Qed.

(** * The loops of [_sift_up] and [_sift_down] end by their own conditions *)

Lemma bind_ext {A B} (m : MinHeap.M A) (k k' : A -> MinHeap.M B) st :
  (forall a st1, m st = (Return a, st1) -> k a st1 = k' a st1) ->
  MinHeap.bind m k st = MinHeap.bind m k' st.
Proof.
  intros Hk. unfold MinHeap.bind.
  destruct (m st) as [[a|e|] st1] eqn:E; [by apply Hk|done|done].
Qed.

(** Any fuel from [idx] on gives the same run of the loop of [_sift_up]. *)
Lemma _sift_up_loop_fuel fuel fuel' temp idx st :
  idx <= fuel -> idx <= fuel' ->
  MinHeap._sift_up_loop fuel temp idx st = MinHeap._sift_up_loop fuel' temp idx st.
Proof.
  intros Hf Hf'. destruct idx as [|idx].
  - destruct fuel, fuel'; reflexivity.
  - destruct fuel as [|fuel]; [lia|]. destruct fuel' as [|fuel']; [lia|].
    cbn [MinHeap._sift_up_loop]. replace (0 <? S idx) with true by done.
    apply bind_ext. intros parent st1 _. reflexivity.
Qed.

Lemma getitem_inv st i r st1 :
  MinHeap.getitem i st = (Return r, st1) -> st1 = st.
Proof.
  unfold MinHeap.getitem. destruct (_ !! _); by intros [= <- <-].
Qed.

Lemma setitem_inv st i r st1 :
  MinHeap.setitem i r st = (Return tt, st1) ->
  MinHeap.size (MinHeap.self st1) = MinHeap.size (MinHeap.self st).
Proof.
  unfold MinHeap.setitem. destruct (_ <? _); [|done]. by intros [= <-].
Qed.

(** Any fuel above [size - idx] gives the same run of the loop of
    [_sift_down]: every turn but the last moves [idx] to a child below
    [size]. *)
Lemma _sift_down_loop_fuel fuel : forall fuel' temp idx st,
  Z.to_nat (MinHeap.size (MinHeap.self st)) - idx < fuel ->
  Z.to_nat (MinHeap.size (MinHeap.self st)) - idx < fuel' ->
  MinHeap._sift_down_loop fuel temp idx st
  = MinHeap._sift_down_loop fuel' temp idx st.
Proof.
  induction fuel as [|fuel IH]; intros fuel' temp idx st Hf Hf'; [lia|].
  destruct fuel' as [|fuel']; [lia|].
  cbn [MinHeap._sift_down_loop].
  apply bind_ext. intros st0 st0' [= <- <-].
  set (sz := MinHeap.size (MinHeap.self st)) in *.
  apply bind_ext. intros a st1 E1.
  assert (H1 : st1 = st /\ (a = idx \/ (Z.of_nat a < sz)%Z /\ idx < a)).
  { destruct (Z.ltb_spec (Z.of_nat (2 * idx + 1)) sz) as [Hl|Hl].
    - unfold MinHeap.bind in E1.
      destruct (MinHeap.getitem (2 * idx + 1) st) as [[l|e|] st'] eqn:Eg; try done.
      apply getitem_inv in Eg as ->. injection E1 as <- <-.
      split; [done|]. destruct (ref_lt _ _ _); [right; lia|by left].
    - injection E1 as <- <-. split; [done|by left]. }
  destruct H1 as [-> Ha].
  apply bind_ext. intros b st2 E2.
  assert (H2 : st2 = st /\ (b = idx \/ (Z.of_nat b < sz)%Z /\ idx < b)).
  { destruct (Z.ltb_spec (Z.of_nat (2 * idx + 2)) sz) as [Hr|Hr].
    - unfold MinHeap.bind in E2.
      destruct (MinHeap.getitem (2 * idx + 2) st) as [[r|e|] st'] eqn:Eg; try done.
      apply getitem_inv in Eg as ->.
      destruct (MinHeap.getitem a st) as [[s'|e|] st'] eqn:Eg'; try done.
      apply getitem_inv in Eg' as ->. injection E2 as <- <-.
      split; [done|]. destruct (ref_lt _ _ _); [right; lia|done].
    - injection E2 as <- <-. done. }
  destruct H2 as [-> Hb].
  destruct (Nat.eqb_spec b idx) as [->|Hne]; [done|].
  destruct Hb as [->|[Hb Hlt]]; [done|].
  apply bind_ext. intros s' st3 E3. apply getitem_inv in E3 as ->.
  apply bind_ext. intros [] st4 E4. apply setitem_inv in E4.
  apply IH; rewrite E4; fold sz; lia.
Qed.

(** * Which calls keep the heap invariant *)

Lemma heap_from_ext {A} `{Inhabited A} (lt lt' : A -> A -> bool) s (l : list A) :
  (forall a b, a ∈ l -> b ∈ l -> lt a b = lt' a b) ->
  heapq.heap_from lt s l -> heapq.heap_from lt' s l.
Proof.
  intros Hext Hh c Hc0 Hc Hs. specialize (Hh c Hc0 Hc Hs).
  unfold heapq.le in *. rewrite <- Hext; [done| |].
  - apply list_elem_of_lookup_total_2. done.
  - apply list_elem_of_lookup_total_2. lia.
Qed.

Lemma ref_lt_app s new a b :
  a < length s -> b < length s -> ref_lt (s ++ new) a b = ref_lt s a b.
Proof.
  intros Ha Hb. unfold ref_lt, deref.
  by rewrite (lookup_total_app_l s new a Ha), (lookup_total_app_l s new b Hb).
Qed.

Lemma heap_inv_app s new l :
  Forall (fun r => r < length s) l ->
  heapq.heap_inv (ref_lt s) l -> heapq.heap_inv (ref_lt (s ++ new)) l.
Proof.
  intros Hv. apply heap_from_ext. intros a b Ha Hb.
  rewrite Forall_forall in Hv. symmetry. apply ref_lt_app; by apply Hv.
Qed.

(** [push_with_priority] keeps a well-formed heap well-formed. *)
Lemma push_with_priority_invariant st v p :
  consistent (MinHeap.self st) -> valid st -> heap_invariant st ->
  consistent (MinHeap.self (MinHeap.push_with_priority v p st).2)
  /\ valid (MinHeap.push_with_priority v p st).2
  /\ heap_invariant (MinHeap.push_with_priority v p st).2.
Proof.
  intros Hc Hv Hinv.
  pose proof (effect_push_with_priority st v p Hc) as (_ & Hc' & _).
  split; [done|].
  assert (Hvalid : valid (MinHeap.push_with_priority v p st).2).
  { rewrite push_with_priority_eq. unfold valid in *. fields.
    rewrite heappush_perm. rewrite length_app. constructor; [simpl; lia|].
    eapply Forall_impl; [exact Hv|]. intros r Hr. simpl in Hr. lia. }
  split; [done|].
  apply heap_invariant_heapq; [done|].
  rewrite push_with_priority_eq. fields.
  apply ref_heappush_heap, heap_inv_app; [done|].
  by apply heap_invariant_heapq.
Qed.

(** [merge] and [bulk_push] end with [heapify], which establishes the heap
    order whatever the storage was. *)
Lemma merge_invariant other st :
  consistent (MinHeap.self st) -> consistent other ->
  consistent (MinHeap.self (MinHeap.merge other st).2)
  /\ heap_invariant (MinHeap.merge other st).2.
Proof.
  intros Hc Ho.
  pose proof (effect_merge other st Hc Ho) as (_ & Hc' & _).
  split; [done|]. apply heap_invariant_heapq; [done|].
  rewrite merge_eq. fields. apply ref_heapify_heap.
Qed.

Lemma bulk_push_invariant items st st' :
  consistent (MinHeap.self st) ->
  MinHeap.bulk_push items st = (Return tt, st') ->
  consistent (MinHeap.self st') /\ heap_invariant st'.
Proof.
  intros Hc E.
  pose proof (effect_bulk_push items st Hc) as (_ & Hc' & _).
  rewrite E in Hc'. split; [done|]. apply heap_invariant_heapq; [done|].
  revert E. unfold MinHeap.bulk_push, MinHeap.bind.
  destruct (MinHeap.push_all items st) as [[[]|e|] st1]; try done.
  rewrite _heapify_eq. intros [= <-]. fields. apply ref_heapify_heap.
Qed.

(** * What a broken invariant costs, and the second way to break it *)

(** After the removal of 11 from 1, 10, 2, 11, 12, 20, 4 the heap drains
    10 before 4. *)
Example drain_after_remove :
  heap_invariant seven'
  /\ exists st',
       MinHeap.remove (PInt 11) seven' = (Return true, st')
       /\ (MinHeap.drain st').1
          = Return [PInt 1; PInt 2; PInt 10; PInt 4; PInt 12; PInt 20].
Proof.
  split; [apply heap_invariantb_spec; reflexivity|].
  eexists. split; vm_compute; reflexivity.
Qed.

(** [update_priority(1, 5)] on 1, 2, 10, 20, 3: [_sift_down] compares the
    right child with [self.heap[smallest]], which from the second turn on
    is the node just moved up and not the node being sifted; 5 stops above
    3. *)
Example update_priority_increase_breaks_invariant :
  heap_invariant five
  /\ exists st',
       MinHeap.update_priority (PInt 1) 5 five = (Return true, st')
       /\ map HeapNode.priority (live_nodes st') = [2; 5; 10; 20; 3]%Z
       /\ ~ heap_invariant st'.
Proof.
  split; [apply heap_invariantb_spec; reflexivity|].
  eexists. split; [vm_compute; reflexivity|]. split; [reflexivity|].
  intros Hinv. specialize (Hinv 1 4 ltac:(lia) ltac:(cbn; lia)).
  vm_compute in Hinv. discriminate.
Qed.

(** * The snapshot scope rolls back every call but update_priority *)

Lemma appended_refl st : appended st st.
Proof. exists []. by rewrite app_nil_r. Qed.

Lemma appended_trans a b c : appended a b -> appended b c -> appended a c.
Proof.
  intros [n Hn] [m Hm]. exists (n ++ m). by rewrite Hm, Hn, app_assoc.
Qed.

Lemma appended_self st h :
  appended st (MinHeap.mkst (MinHeap.store st) h).
Proof. exists []. cbn. by rewrite app_nil_r. Qed.

Create HintDb appended.

Ltac frame_appended :=
  repeat first
    [ solve [auto 1 with appended nocore]
    | apply (frame_ret appended appended_refl)
    | apply (frame_raise appended appended_refl)
    | apply (frame_lift appended appended_refl)
    | apply (frame_get appended appended_refl)
    | apply (frame_getitem appended appended_refl)
    | apply (frame_setitem appended appended_refl);
        intros ? ? ?; apply appended_self
    | apply (frame__sift_down appended appended_refl appended_trans);
        intros ? ? ?; apply appended_self
    | apply (frame_set_self appended); intros ?; apply appended_self
    | apply (frame_discard appended appended_refl appended_trans)
    | apply (frame_bind appended appended_trans); [|intros ?]
    | match goal with
      | |- frame _ (match ?x with _ => _ end) => destruct x
      end ].

Lemma appended_push_with_priority v p :
  frame appended (MinHeap.push_with_priority v p).
Proof. intros st. rewrite push_with_priority_eq. by eexists. Qed.
#[local] Hint Resolve appended_push_with_priority : appended.

Lemma appended_push v : frame appended (MinHeap.push v).
Proof. unfold MinHeap.push. frame_appended. Qed.
#[local] Hint Resolve appended_push : appended.

Lemma appended_pop : frame appended MinHeap.pop.
Proof. unfold MinHeap.pop. frame_appended. Qed.
#[local] Hint Resolve appended_pop : appended.

Lemma appended_peek : frame appended MinHeap.peek.
Proof. unfold MinHeap.peek. frame_appended. Qed.
#[local] Hint Resolve appended_peek : appended.

Lemma appended__heapify : frame appended MinHeap._heapify.
Proof. unfold MinHeap._heapify. frame_appended. Qed.
#[local] Hint Resolve appended__heapify : appended.

Lemma appended_push_all items : frame appended (MinHeap.push_all items).
Proof.
  induction items as [|item items IH]; cbn [MinHeap.push_all]; frame_appended.
Qed.
#[local] Hint Resolve appended_push_all : appended.

Lemma appended_bulk_push items : frame appended (MinHeap.bulk_push items).
Proof. unfold MinHeap.bulk_push. frame_appended. Qed.
#[local] Hint Resolve appended_bulk_push : appended.

Lemma appended_merge other : frame appended (MinHeap.merge other).
Proof. unfold MinHeap.merge. frame_appended. Qed.
#[local] Hint Resolve appended_merge : appended.

Lemma appended_is_empty : frame appended MinHeap.is_empty.
Proof. unfold MinHeap.is_empty. frame_appended. Qed.
#[local] Hint Resolve appended_is_empty : appended.

Lemma appended_drain_loop fuel : frame appended (MinHeap.drain_loop fuel).
Proof.
  induction fuel as [|fuel IH]; cbn [MinHeap.drain_loop]; frame_appended.
Qed.
#[local] Hint Resolve appended_drain_loop : appended.

Lemma appended_drain : frame appended MinHeap.drain.
Proof. unfold MinHeap.drain. frame_appended. Qed.
#[local] Hint Resolve appended_drain : appended.

Lemma appended_snapshot_enter : frame appended MinHeap.snapshot_enter.
Proof. unfold MinHeap.snapshot_enter. frame_appended. Qed.

Lemma appended_snapshot_exit : frame appended MinHeap.snapshot_exit.
Proof. unfold MinHeap.snapshot_exit. frame_appended. Qed.

Lemma appended_snapshot {A} (body : MinHeap.M A) :
  frame appended body -> frame appended (MinHeap.snapshot body).
Proof.
  intros Hbody st. unfold MinHeap.snapshot.
  pose proof (appended_snapshot_enter st) as Henter.
  destruct (MinHeap.snapshot_enter st) as [[[]|e|] st1]; cbn [snd] in *; try done.
  pose proof (Hbody st1) as Hb.
  pose proof (appended_trans _ _ _ Henter Hb) as Hb'.
  destruct (body st1) as [r st2]; cbn [snd] in *.
  pose proof (appended_snapshot_exit st2) as Hexit.
  pose proof (appended_trans _ _ _ Hb' Hexit) as Hall.
  destruct r; destruct (MinHeap.snapshot_exit st2) as [[[]|e'|] st3]; done.
Qed.

Lemma appended_pop_n n : frame appended (MinHeap.pop_n n).
Proof. induction n as [|n IH]; cbn [MinHeap.pop_n]; frame_appended. Qed.
#[local] Hint Resolve appended_pop_n : appended.

Lemma appended_k_smallest k : frame appended (MinHeap.k_smallest k).
Proof. unfold MinHeap.k_smallest. apply appended_snapshot. frame_appended. Qed.
#[local] Hint Resolve appended_k_smallest : appended.

Lemma appended_remove v : frame appended (MinHeap.remove v).
Proof. unfold MinHeap.remove. frame_appended. Qed.
#[local] Hint Resolve appended_remove : appended.

Lemma appended_run_of body :
  Forall (fun c => update_free c -> frame appended (exec c)) body ->
  all_update_free body -> frame appended (run body).
Proof.
  induction 1 as [|c body Hc Hbody IH]; intros Hfree; cbn [run].
  - frame_appended.
  - destruct Hfree as [Hfc Hfb].
    apply (frame_bind appended appended_trans); [by apply Hc|intros _; by apply IH].
Qed.

Lemma appended_exec c : update_free c -> frame appended (exec c).
Proof.
  induction c using Call_nested_ind; intros Hfree;
    try (cbn [exec]; unfold discard; frame_appended; fail).
  - done.
  - rewrite exec_with_snapshot. by apply appended_snapshot, appended_run_of.
  - rewrite exec_try_except. by apply frame_catch, appended_run_of.
Qed.

Lemma appended_run cs : all_update_free cs -> frame appended (run cs).
Proof.
  apply appended_run_of, Forall_forall. intros c _. apply appended_exec.
Qed.

Lemma live_nodes_appended s new l :
  Forall (fun r => r < length s) l -> map (deref (s ++ new)) l = map (deref s) l.
Proof.
  induction 1 as [|r l Hr Hl IH]; [done|]. cbn [map]. rewrite IH. f_equal.
  unfold deref. by apply lookup_total_app_l.
Qed.

(** A scope whose body makes no call of [update_priority], entered on a
    well-formed heap: it comes back, by return or by exception, and storage,
    size and entries are what they were on entry. *)
Lemma snapshot_round_trip body st :
  all_update_free body -> all_merges_consistent body ->
  consistent (MinHeap.self st) -> valid st ->
  (exec (with_snapshot body) st).1 <> Diverge
  /\ MinHeap.heap (MinHeap.self (exec (with_snapshot body) st).2)
     = MinHeap.heap (MinHeap.self st)
  /\ MinHeap.size (MinHeap.self (exec (with_snapshot body) st).2)
     = MinHeap.size (MinHeap.self st)
  /\ entries (exec (with_snapshot body) st).2 = entries st.
Proof.
  intros Hfree Hm Hc Hv. rewrite exec_with_snapshot. unfold MinHeap.snapshot.
  set (st1 := MinHeap.mkst (MinHeap.store st)
                (MinHeap.with_snapshots
                   (MinHeap._snapshots (MinHeap.self st)
                    ++ [MinHeap.heap (MinHeap.self st)]) (MinHeap.self st))).
  change (MinHeap.snapshot_enter st) with (Return tt, st1). cbv beta iota.
  destruct (effect_run body st1 Hc Hm) as (Hr & _ & Hss & _).
  destruct (appended_run body Hfree st1) as [new Hnew].
  destruct (run body st1) as [r st2]. fields.
  rewrite (snapshot_exit_eq st2 _ _ Hss).
  assert (Hentries :
    entries (MinHeap.mkst (MinHeap.store st2)
      (MinHeap.mk (MinHeap.heap (MinHeap.self st))
         (Z.of_nat (length (MinHeap.heap (MinHeap.self st))))
         (MinHeap._insertion_count (MinHeap.self st2))
         (MinHeap.key_func (MinHeap.self st2))
         (MinHeap._snapshots (MinHeap.self st)))) = entries st).
  { unfold entries, live_nodes. fields. rewrite Hnew.
    by rewrite live_nodes_appended. }
  unfold consistent in Hc.
  destruct r; fields; repeat split; try done.
Qed.

(** * The properties of the specification *)

(** ** C9: pop and peek *)

(** While the heap order holds.  On an empty heap (size 0) [pop] and [peek]
    return None, raise nothing and change nothing.  On a non-empty heap in
    heap order the root [r] of the storage is a minimum node; [peek] returns
    its (priority, value) and leaves the heap as it is; [pop] returns its
    value, removes exactly that node, decrements [size] by one and leaves a
    well-formed heap. *)
Lemma pop_peek_spec st :
  consistent (MinHeap.self st) -> heap_invariant st ->
  (MinHeap.size (MinHeap.self st) = 0%Z ->
     MinHeap.pop st = (Return PNone, st) /\ MinHeap.peek st = (Return PNone, st))
  /\ (MinHeap.size (MinHeap.self st) <> 0%Z ->
      exists r st',
        MinHeap.heap (MinHeap.self st) !! 0 = Some r
        /\ Forall (fun r' => HeapNode.leb (deref (MinHeap.store st) r)
                                          (deref (MinHeap.store st) r') = true)
                  (MinHeap.heap (MinHeap.self st))
        /\ MinHeap.peek st =
             (Return (PTuple [PInt (HeapNode.priority (deref (MinHeap.store st) r));
                              HeapNode.value (deref (MinHeap.store st) r)]), st)
        /\ MinHeap.pop st =
             (Return (HeapNode.value (deref (MinHeap.store st) r)), st')
        /\ MinHeap.store st' = MinHeap.store st
        /\ r :: MinHeap.heap (MinHeap.self st') ≡ₚ MinHeap.heap (MinHeap.self st)
        /\ MinHeap.size (MinHeap.self st') = (MinHeap.size (MinHeap.self st) - 1)%Z
        /\ consistent (MinHeap.self st')
        /\ heap_invariant st').
Proof.
  intros Hc Hinv.
  pose proof (proj1 (heap_invariant_heapq st Hc) Hinv) as Hh.
  split.
  - intros Hsz.
    assert (E : MinHeap.heap (MinHeap.self st) = []).
    { apply length_zero_iff_nil. unfold consistent in Hc. lia. }
    split; [by apply pop_empty|by apply peek_empty].
  - intros Hsz.
    assert (Hne : MinHeap.heap (MinHeap.self st) <> []).
    { intros E. unfold consistent in Hc. rewrite E in Hc. simpl in Hc. lia. }
    destruct (pop_nonempty st Hc Hne)
      as (r & rest & Hroot & Hpop & Hperm & Hsz' & Hmin).
    destruct (Hmin Hh) as [Hmin' Hh'].
    eexists r, _. split; [done|].
    split.
    { rewrite <- Hperm. constructor; [|done].
      rewrite <- ref_le_leb. apply le_refl, ref_lt_irrefl. }
    split; [by apply peek_root|].
    split; [exact Hpop|].
    split; [done|]. split; [done|]. split; [done|]. split; [exact Hsz'|].
    apply heap_invariant_heapq; [exact Hsz'|exact Hh'].
Qed.

Lemma pop_peek_spec_witness :
  consistent (MinHeap.self scenario_A) /\ heap_invariant scenario_A
  /\ MinHeap.peek scenario_A
     = (Return (PTuple [PInt 1; task "task4" 4]), scenario_A)
  /\ (MinHeap.pop scenario_A).1 = Return (task "task4" 4).
Proof.
  assert (Hc : consistent (MinHeap.self scenario_A)) by reflexivity.
  assert (Hi : heap_invariant scenario_A)
    by (apply heap_invariantb_spec; reflexivity).
  destruct (pop_peek_spec scenario_A Hc Hi) as [_ Hnonempty].
  destruct Hnonempty as (r & st' & Hroot & _ & Hpeek & Hpop & _); [done|].
  injection Hroot as <-.
  split; [exact Hc|]. split; [exact Hi|].
  split; [exact Hpeek|]. rewrite Hpop. reflexivity.
Defined.

(** Scenario A, then [update_priority(task3, 0)] with its exception handled:
    the program returns, (0, task3) is stored below the root, and the
    minimum that [peek] and [pop] give is (1, task4). *)
Lemma scenario_C_handled_run :
  exists st,
    run scenario_C_handled fresh = (Return tt, st)
    /\ entries st
       = [(1, task "task4" 4); (2, task "task2" 2);
          (0, task "task3" 3); (5, task "task1" 1)]%Z.
Proof. eexists. split; vm_compute; reflexivity. Qed.

(** C9.  After Scenario A and a handled [update_priority(task3, 0)], the
    heap holds task3 with priority 0, and [peek] returns (1, task4) and
    [pop] returns task4: neither is the minimum node.  [update_priority]
    has overwritten the priority and [_sift_up] has raised on its first
    comparison, so the node was never moved up. *)
Theorem peek_pop_not_minimum_after_failed_update :
  exists st,
    run scenario_C_handled fresh = (Return tt, st)
    /\ (0%Z, task "task3" 3) ∈ entries st
    /\ MinHeap.size (MinHeap.self st) = 4%Z
    /\ MinHeap.peek st = (Return (PTuple [PInt 1; task "task4" 4]), st)
    /\ (MinHeap.pop st).1 = Return (task "task4" 4).
Proof.
  eexists. split; [vm_compute; reflexivity|].
  split; [apply list_elem_of_In; vm_compute; tauto|].
  split; [reflexivity|]. split; vm_compute; reflexivity.
Qed.

(** ** C4: drain *)

(** While the heap order holds.  Draining a well-formed heap returns the
    values of all its nodes, each once, in ascending order of (priority,
    sequence number): priorities never decrease and nodes of equal priority
    come out by sequence number.  The loop ends, and the heap is empty
    afterwards. *)
Lemma drain_ascending st :
  consistent (MinHeap.self st) -> heap_invariant st ->
  exists rs st',
    MinHeap.drain st = (Return (values_of (MinHeap.store st) rs), st')
    /\ rs ≡ₚ MinHeap.heap (MinHeap.self st)
    /\ ascending (MinHeap.store st) rs
    /\ MinHeap.store st' = MinHeap.store st
    /\ MinHeap.heap (MinHeap.self st') = []
    /\ MinHeap.size (MinHeap.self st') = 0%Z
    /\ MinHeap.is_empty st' = (Return true, st').
Proof.
  intros Hc Hinv.
  pose proof (proj1 (heap_invariant_heapq st Hc) Hinv) as Hh.
  destruct (drain_loop_spec (length (MinHeap.heap (MinHeap.self st))) st
              (Z.to_nat (MinHeap.size (MinHeap.self st))) eq_refl
              ltac:(unfold consistent in Hc; lia) Hc)
    as (rs & Hrun & Hperm & Hasc).
  eexists rs, _. split.
  { unfold MinHeap.drain, MinHeap.bind, MinHeap.get. exact Hrun. }
  repeat split; try done. by apply Hasc.
Qed.

Lemma drain_ascending_witness :
  consistent (MinHeap.self scenario_A) /\ heap_invariant scenario_A
  /\ exists rs st',
       MinHeap.drain scenario_A
         = (Return (values_of (MinHeap.store scenario_A) rs), st')
       /\ rs ≡ₚ MinHeap.heap (MinHeap.self scenario_A)
       /\ ascending (MinHeap.store scenario_A) rs
       /\ MinHeap.store st' = MinHeap.store scenario_A
       /\ MinHeap.heap (MinHeap.self st') = []
       /\ MinHeap.size (MinHeap.self st') = 0%Z
       /\ MinHeap.is_empty st' = (Return true, st').
Proof.
  assert (Hc : consistent (MinHeap.self scenario_A)) by reflexivity.
  assert (Hi : heap_invariant scenario_A)
    by (apply heap_invariantb_spec; reflexivity).
  split; [exact Hc|]. split; [exact Hi|].
  exact (drain_ascending scenario_A Hc Hi).
Defined.

(** C4.  [drain()] after 1, 10, 2, 11, 12, 20, 4 were pushed, each its own
    priority, and 11 was removed: every call returns, the heap holds 4 and
    10, and [drain] yields 1, 2, 10, 4, 12, 20, with 10 before 4: the
    values do not come out in non-decreasing order of priority.  [remove]
    has put 4 under 10 and has not moved it up. *)
Theorem drain_out_of_order_after_remove :
  exists st st',
    run pushes_then_remove fresh = (Return tt, st)
    /\ entries st
       = [(1, PInt 1); (10, PInt 10); (2, PInt 2);
          (4, PInt 4); (12, PInt 12); (20, PInt 20)]%Z
    /\ MinHeap.drain st
       = (Return [PInt 1; PInt 2; PInt 10; PInt 4; PInt 12; PInt 20], st')
    /\ MinHeap.is_empty st' = (Return true, st').
Proof.
  do 2 eexists. split; [vm_compute; reflexivity|].
  split; [vm_compute; reflexivity|].
  split; vm_compute; reflexivity.
Qed.

(** What [ascending] says, index by index. *)
Lemma ascending_lookup s rs i j a b :
  ascending s rs -> i < j -> rs !! i = Some a -> rs !! j = Some b ->
  (HeapNode.priority (deref s a) <= HeapNode.priority (deref s b))%Z
  /\ (HeapNode.priority (deref s a) = HeapNode.priority (deref s b) ->
      (HeapNode.insertion_count (deref s a)
       <= HeapNode.insertion_count (deref s b))%Z).
Proof.
  intros Hasc. revert i j. induction Hasc as [|r rs Hs IH Hall]; intros i j Hij Hi Hj.
  - done.
  - destruct j as [|j]; [lia|]. cbn in Hj.
    destruct i as [|i].
    + injection Hi as <-.
      rewrite Forall_lookup in Hall. specialize (Hall _ _ Hj).
      apply HeapNode_leb_spec in Hall. lia.
    + cbn in Hi. apply (IH i j); [lia|done|done].
Qed.

(** ** C5: k_smallest *)

(** While the heap order holds.  On a well-formed heap [k_smallest k]
    returns [min k size] values (none when [k] is negative): the values of
    the least nodes [rs] of the heap in ascending order, every other node
    [rest] being no smaller; and the call leaves the state exactly as it
    found it, so entries and size are unchanged. *)
Lemma k_smallest_spec st k :
  consistent (MinHeap.self st) -> heap_invariant st ->
  exists rs rest,
    MinHeap.k_smallest k st = (Return (values_of (MinHeap.store st) rs), st)
    /\ length rs = Z.to_nat (Z.min k (MinHeap.size (MinHeap.self st)))
    /\ rs ++ rest ≡ₚ MinHeap.heap (MinHeap.self st)
    /\ ascending (MinHeap.store st) rs
    /\ Forall (fun r => Forall (fun r' =>
         HeapNode.leb (deref (MinHeap.store st) r)
                      (deref (MinHeap.store st) r') = true) rest) rs.
Proof.
  intros Hc Hinv.
  pose proof (proj1 (heap_invariant_heapq st Hc) Hinv) as Hh.
  set (n := Z.to_nat (Z.min k (MinHeap.size (MinHeap.self st)))).
  set (st1 := MinHeap.mkst (MinHeap.store st)
                (MinHeap.with_snapshots
                   (MinHeap._snapshots (MinHeap.self st)
                    ++ [MinHeap.heap (MinHeap.self st)]) (MinHeap.self st))).
  assert (Hn : n <= length (MinHeap.heap (MinHeap.self st1)))
    by (unfold consistent in Hc; cbn; lia).
  destruct (pop_n_spec n st1 Hn Hc) as (rs & rest & Hrun & Hlen & Hperm & Hasc).
  destruct (Hasc Hh) as [Hasc' Hsplit].
  exists rs, rest. split; [|done].
  unfold MinHeap.k_smallest, MinHeap.snapshot.
  change (MinHeap.snapshot_enter st) with (Return tt, st1).
  cbn iota beta. unfold MinHeap.bind at 1, MinHeap.get.
  change (MinHeap.size (MinHeap.self st1)) with (MinHeap.size (MinHeap.self st)).
  fold n. rewrite Hrun.
  erewrite snapshot_exit_eq by reflexivity.
  cbn [MinHeap.store st1]. f_equal.
  destruct st as [s [h sz cnt key ss]]. cbn in *. unfold consistent in Hc.
  cbn in Hc. by rewrite Hc.
Qed.

Lemma k_smallest_spec_witness :
  consistent (MinHeap.self scenario_A) /\ heap_invariant scenario_A
  /\ exists rs rest,
       MinHeap.k_smallest 2 scenario_A
         = (Return (values_of (MinHeap.store scenario_A) rs), scenario_A)
       /\ length rs = Z.to_nat (Z.min 2 (MinHeap.size (MinHeap.self scenario_A)))
       /\ rs ++ rest ≡ₚ MinHeap.heap (MinHeap.self scenario_A)
       /\ ascending (MinHeap.store scenario_A) rs
       /\ Forall (fun r => Forall (fun r' =>
            HeapNode.leb (deref (MinHeap.store scenario_A) r)
                         (deref (MinHeap.store scenario_A) r') = true) rest) rs.
Proof.
  assert (Hc : consistent (MinHeap.self scenario_A)) by reflexivity.
  assert (Hi : heap_invariant scenario_A)
    by (apply heap_invariantb_spec; reflexivity).
  split; [exact Hc|]. split; [exact Hi|].
  exact (k_smallest_spec scenario_A 2 Hc Hi).
Defined.

(** C5.  [k_smallest(3)] after 1, 10, 2, 11, 12, 20, 4 were pushed, each
    its own priority, and 11 was removed: the call returns 1, 2, 10 and
    leaves the heap as it was, while 4 is in the heap: the three values
    are not the three smallest.  [remove] has put 4 under 10 and has not
    moved it up. *)
Theorem k_smallest_not_smallest_after_remove :
  exists st,
    run pushes_then_remove fresh = (Return tt, st)
    /\ (4%Z, PInt 4) ∈ entries st
    /\ MinHeap.size (MinHeap.self st) = 6%Z
    /\ MinHeap.k_smallest 3 st = (Return [PInt 1; PInt 2; PInt 10], st).
Proof.
  eexists. split; [vm_compute; reflexivity|].
  split; [apply list_elem_of_In; vm_compute; tauto|].
  split; vm_compute; reflexivity.
Qed.

(** Scenario B: [k_smallest(2)] returns task4 then task2 and leaves the
    four entries in place. *)
Example scenario_B :
  MinHeap.k_smallest 2 scenario_A
  = (Return [task "task4" 4; task "task2" 2], scenario_A).
Proof. vm_compute. reflexivity. Qed.

(** ** C7: update_priority *)

(** A decrease of priority at an index other than the root reaches the
    comparison [self.heap[parent_idx] <= temp] of [_sift_up], which raises:
    the priority is overwritten, the storage is not repaired and the call
    does not return. *)
Lemma update_priority_decrease_raises st v p i node :
  MinHeap.index_of (MinHeap.store st) v (MinHeap.heap (MinHeap.self st)) 0 = Some i ->
  MinHeap.heap (MinHeap.self st) !! i = Some node ->
  0 < i ->
  (p < HeapNode.priority (deref (MinHeap.store st) node))%Z ->
  MinHeap.update_priority v p st =
    (Raise TypeError,
     MinHeap.mkst (set_priority (MinHeap.store st) node p) (MinHeap.self st)).
Proof.
  intros Ei Hnode Hi Hp.
  unfold MinHeap.update_priority, MinHeap.bind at 1, MinHeap.get. rewrite Ei.
  rewrite (bind_Return _ _ _ _ _ (getitem_Some st i node Hnode)).
  unfold MinHeap.bind at 1, MinHeap.set_store at 1.
  apply Z.ltb_lt in Hp. rewrite Hp.
  set (st1 := MinHeap.mkst _ _).
  assert (Hnode1 : MinHeap.heap (MinHeap.self st1) !! i = Some node) by done.
  assert (Hsift : MinHeap._sift_up i st1 = (Raise TypeError, st1)).
  { unfold MinHeap._sift_up.
    rewrite (bind_Return _ _ _ _ _ (getitem_Some st1 i node Hnode1)).
    destruct i as [|i]; [lia|]. cbn [MinHeap._sift_up_loop].
    replace (0 <? S i) with true by done.
    assert (Hpar : (S i - 1) / 2 < length (MinHeap.heap (MinHeap.self st1))).
    { apply lookup_lt_Some in Hnode1. lia. }
    unfold MinHeap.bind at 1.
    rewrite (bind_Return _ _ _ _ _ (getitem_lt st1 _ Hpar)).
    reflexivity. }
  by rewrite (bind_Raise _ _ _ _ _ Hsift).
Qed.

(** When no node carries the value, [update_priority] returns False and
    changes nothing. *)
Lemma update_priority_missing st v p :
  MinHeap.index_of (MinHeap.store st) v (MinHeap.heap (MinHeap.self st)) 0 = None ->
  MinHeap.update_priority v p st = (Return false, st).
Proof.
  intros E. unfold MinHeap.update_priority, MinHeap.bind at 1, MinHeap.get.
  by rewrite E.
Qed.

(** C7.  Scenario C, [update_priority(task3, 0)] on the heap of Scenario A:
    task3 sits at index 2 with priority 8, the new priority is smaller, and
    the call raises TypeError; the priority of the node is overwritten and
    the storage is left in its old order, task3 below task4. *)
Theorem update_priority_scenario_C_raises :
  MinHeap.index_of (MinHeap.store scenario_A) (task "task3" 3)
    (MinHeap.heap (MinHeap.self scenario_A)) 0 = Some 2
  /\ (MinHeap.update_priority (task "task3" 3) 0 scenario_A).1 = Raise TypeError
  /\ entries (MinHeap.update_priority (task "task3" 3) 0 scenario_A).2
     = [(1, task "task4" 4); (2, task "task2" 2); (0, task "task3" 3);
        (5, task "task1" 1)]%Z
  /\ (MinHeap.peek (MinHeap.update_priority (task "task3" 3) 0 scenario_A).2).1
     = Return (PTuple [PInt 1; task "task4" 4]).
Proof. vm_compute. repeat split; reflexivity. Qed.

(** ** C1: the heap invariant *)

(** C1.  [remove(11)] on the heap 1, 10, 2, 11, 12, 3, 4: the last node, 4,
    takes the slot of 11 under 10 and is only sifted down; the call returns
    True and leaves 10 above 4. *)
Theorem remove_breaks_heap_invariant :
  consistent (MinHeap.self seven) /\ heap_invariant seven
  /\ exists st',
       MinHeap.remove (PInt 11) seven = (Return true, st')
       /\ map HeapNode.priority (live_nodes st') = [1; 10; 2; 4; 12; 3]%Z
       /\ ~ heap_invariant st'.
Proof.
  split; [reflexivity|]. split; [apply heap_invariantb_spec; reflexivity|].
  eexists. split; [vm_compute; reflexivity|]. split; [reflexivity|].
  intros Hinv. specialize (Hinv 1 3 ltac:(lia) ltac:(cbn; lia)).
  vm_compute in Hinv. discriminate.
Qed.

(** ** C2: the snapshot scope *)

(** C2.  [with heap.snapshot(): heap.update_priority("a", 9)] on the heap
    that holds ("a", 5): the scope exits normally and the heap holds
    ("a", 9).  The snapshot is a copy of the list; the node in it is the
    node whose priority the call overwrote. *)
Theorem snapshot_keeps_priority_update :
  entries single = [(5, PStr "a")]%Z
  /\ exists st',
       MinHeap.snapshot (MinHeap.update_priority (PStr "a") 9) single
         = (Return true, st')
       /\ entries st' = [(9, PStr "a")]%Z
       /\ MinHeap.size (MinHeap.self st') = MinHeap.size (MinHeap.self single).
Proof.
  split; [reflexivity|]. eexists. split; [vm_compute; reflexivity|].
  split; reflexivity.
Qed.

(** ** C3: merge *)

(** Scenario D: after [heap.merge(other_heap)] the heap has five entries and
    [other_heap] still holds task5; its node is now in both storages. *)
Lemma merge_does_not_empty_other :
  let w := (World.merge 0 1 two_heaps).2 in
  MinHeap.size (World.heaps w !!! 0) = 5%Z
  /\ MinHeap.heap (World.heaps w !!! 1) = [4]
  /\ MinHeap.size (World.heaps w !!! 1) = 1%Z
  /\ 4 ∈ MinHeap.heap (World.heaps w !!! 0).
Proof.
  vm_compute. repeat split. apply list_elem_of_In. simpl. tauto.
Qed.

(** C3 (amended).  [self.merge(other)], [other] being another heap object:
    the call returns; no node object changes, so every absorbed node keeps
    its sequence number; [other] is exactly as it was; the size of [self]
    is the sum of the two sizes, its storage holds the nodes of both
    storages and satisfies the heap order, and its counter is unchanged. *)
Theorem merge_spec w self other :
  self < length (World.heaps w) -> self <> other ->
  exists w',
    World.merge self other w = (Return tt, w')
    /\ World.nodes w' = World.nodes w
    /\ World.heaps w' !!! other = World.heaps w !!! other
    /\ MinHeap.size (World.heaps w' !!! self)
       = (MinHeap.size (World.heaps w !!! self)
          + MinHeap.size (World.heaps w !!! other))%Z
    /\ MinHeap.heap (World.heaps w' !!! self)
       ≡ₚ MinHeap.heap (World.heaps w !!! self)
          ++ MinHeap.heap (World.heaps w !!! other)
    /\ heapq.heap_inv (ref_lt (World.nodes w')) (MinHeap.heap (World.heaps w' !!! self))
    /\ MinHeap._insertion_count (World.heaps w' !!! self)
       = MinHeap._insertion_count (World.heaps w !!! self).
Proof.
  intros Hself Hne. unfold World.merge, World.call. rewrite merge_eq.
  eexists. split; [reflexivity|]. cbn [World.nodes World.heaps MinHeap.store MinHeap.self].
  rewrite list_lookup_total_insert_ne by done.
  rewrite list_lookup_total_insert_eq by done. cbn.
  repeat split; try done.
  - apply heapify_perm.
  - apply ref_heapify_heap.
Qed.

Lemma merge_spec_witness :
  0 < length (World.heaps two_heaps) /\ 0 <> 1
  /\ exists w',
       World.merge 0 1 two_heaps = (Return tt, w')
       /\ World.nodes w' = World.nodes two_heaps
       /\ World.heaps w' !!! 1 = World.heaps two_heaps !!! 1
       /\ MinHeap.size (World.heaps w' !!! 0)
          = (MinHeap.size (World.heaps two_heaps !!! 0%nat)
             + MinHeap.size (World.heaps two_heaps !!! 1%nat))%Z
       /\ MinHeap.heap (World.heaps w' !!! 0)
          ≡ₚ MinHeap.heap (World.heaps two_heaps !!! 0)
             ++ MinHeap.heap (World.heaps two_heaps !!! 1)
       /\ heapq.heap_inv (ref_lt (World.nodes w'))
            (MinHeap.heap (World.heaps w' !!! 0))
       /\ MinHeap._insertion_count (World.heaps w' !!! 0)
          = MinHeap._insertion_count (World.heaps two_heaps !!! 0).
Proof.
  assert (H0 : 0 < length (World.heaps two_heaps)) by (cbn; lia).
  assert (H1 : 0 <> 1) by lia.
  split; [exact H0|]. split; [exact H1|].
  exact (merge_spec two_heaps 0 1 H0 H1).
Defined.

(** ** C6: construction from raw values *)

Lemma unpack2_error item e :
  unpack2 item = Raise e -> e = TypeError \/ e = ValueError.
Proof.
  destruct item as [|z|s|l]; cbn [unpack2].
  - intros [= <-]. by left.
  - intros [= <-]. by left.
  - destruct s as [|a [|b [|c s]]]; intros [= <-]; by right.
  - destruct l as [|a [|b [|c l]]]; intros [= <-]; by right.
Qed.

(** Construction consumes an accepted item and goes on. *)
Lemma _build_from_items_accepted item items st :
  accepted item ->
  exists st1,
    MinHeap._build_from_items (item :: items) st
    = MinHeap._build_from_items items st1
    /\ MinHeap.key_func (MinHeap.self st1) = MinHeap.key_func (MinHeap.self st).
Proof.
  intros Hacc. cbn [MinHeap._build_from_items].
  destruct item as [|z|s|l]; try done.
  - destruct (push_cases st (PInt z)) as [[p E]|E].
    + rewrite push_with_priority_eq in E. eexists.
      rewrite (bind_Return _ _ _ _ _ E). split; reflexivity.
    + exfalso. revert E. unfold MinHeap.push, MinHeap.bind, MinHeap.get.
      cbv beta iota. destruct (MinHeap.key_func _); discriminate.
  - destruct l as [|[|p|s|l'] [|v [|c l]]]; try done.
    eexists. split; reflexivity.
Qed.

Lemma _build_from_items_raw pre item post e : forall st,
  Forall accepted pre -> unpack2 item = Raise e -> (forall z, item <> PInt z) ->
  (MinHeap._build_from_items (pre ++ item :: post) st).1 = Raise e.
Proof.
  induction pre as [|a pre IH]; intros st Hpre Hraw Hnum.
  - cbn [app MinHeap._build_from_items].
    destruct item as [|z|s|l]; try (by destruct (Hnum z));
      unfold MinHeap.bind at 1, MinHeap.bind at 1, MinHeap.lift; by rewrite Hraw.
  - apply Forall_cons in Hpre as [Ha Hpre].
    destruct (_build_from_items_accepted a (pre ++ item :: post) st Ha)
      as (st1 & E & _).
    cbn [app]. rewrite E. by apply IH.
Qed.

(** Whatever the items, construction never raises [ConfigurationError]. *)
Lemma _build_from_items_no_ConfigurationError items : forall st,
  (MinHeap._build_from_items items st).1 <> Raise ConfigurationError.
Proof.
  induction items as [|item items IH]; intros st; [done|].
  cbn [MinHeap._build_from_items].
  assert (Hstep : forall m : MinHeap.M unit,
            (m st).1 <> Raise ConfigurationError ->
            (MinHeap.bind m (fun _ => MinHeap._build_from_items items) st).1
            <> Raise ConfigurationError).
  { intros m Hm. unfold MinHeap.bind. destruct (m st) as [[[]|e|] st1]; [apply IH|done|done]. }
  destruct item as [|z|s|l]; apply Hstep.
  - done.
  - destruct (push_cases st (PInt z)) as [[p ->]| ->]; done.
  - unfold MinHeap.bind, MinHeap.lift.
    destruct (unpack2 (PStr s)) as [[p v]|e|] eqn:E; [by destruct p| |done].
    cbn. destruct (unpack2_error _ _ E) as [-> | ->]; done.
  - unfold MinHeap.bind, MinHeap.lift.
    destruct (unpack2 (PTuple l)) as [[p v]|e|] eqn:E; [by destruct p| |done].
    cbn. destruct (unpack2_error _ _ E) as [-> | ->]; done.
Qed.

(** A string that is no pair given to the constructor, with no key
    function: ValueError from the unpacking. *)
Lemma init_raw_string_raises_ValueError :
  (MinHeap.__init__ (Some [PStr "task"]) None []).1 = Raise ValueError
  /\ (MinHeap.__init__ (Some [PStr "task"]) None []).1 <> Raise ConfigurationError.
Proof. split; [reflexivity|discriminate]. Qed.

(** C6 (amended).  Construction given, after items it accepts, a raw value
    that is neither a number nor unpackable into two, fails with the error
    of the unpacking: TypeError when the value is not iterable, ValueError
    when it does not have two elements; with or without a key function;
    and it is never ConfigurationError. *)
Theorem init_raw_value_fails key s pre item post e :
  Forall accepted pre -> unpack2 item = Raise e -> (forall z, item <> PInt z) ->
  (MinHeap.__init__ (Some (pre ++ item :: post)) key s).1 = Raise e
  /\ (e = TypeError \/ e = ValueError)
  /\ forall items,
       (MinHeap.__init__ items key s).1 <> Raise ConfigurationError.
Proof.
  intros Hpre Hraw Hnum. split; [|split].
  - unfold MinHeap.__init__.
    destruct (pre ++ item :: post) as [|x l] eqn:E; [by destruct pre|].
    rewrite <- E. by apply _build_from_items_raw.
  - by eapply unpack2_error.
  - intros [[|x l]|]; unfold MinHeap.__init__; try done.
    apply _build_from_items_no_ConfigurationError.
Qed.

Lemma init_raw_value_fails_witness :
  Forall accepted [PInt 3; PTuple [PInt 1; PStr "x"]]
  /\ unpack2 PNone = Raise TypeError
  /\ (forall z, PNone <> PInt z)
  /\ (MinHeap.__init__ (Some ([PInt 3; PTuple [PInt 1; PStr "x"]] ++ PNone :: []))
        None []).1 = Raise TypeError.
Proof.
  assert (H1 : Forall accepted [PInt 3; PTuple [PInt 1; PStr "x"]])
    by (repeat constructor).
  assert (H2 : unpack2 PNone = Raise TypeError) by reflexivity.
  assert (H3 : forall z, PNone <> PInt z) by discriminate.
  split; [exact H1|]. split; [exact H2|]. split; [exact H3|].
  exact (proj1 (init_raw_value_fails None [] _ PNone [] TypeError H1 H2 H3)).
Defined.

(** ** C8: the size law *)




(** ** C10: sequence numbers across rollbacks *)

Lemma consecutive_increasing (c : Z) (k n : nat) :
  StronglySorted Z.lt (map (fun i => (c + Z.of_nat i)%Z) (seq k n)).
Proof.
  revert k. induction n as [|n IH]; intros k; cbn [seq map]; constructor;
    [apply IH|].
  apply Forall_forall. intros x Hx. apply list_elem_of_In in Hx.
  apply in_map_iff in Hx as (i & <- & Hi). apply in_seq in Hi. lia.
Qed.

Lemma numbered_increasing st st' :
  numbered st st' ->
  StronglySorted Z.lt
    (drop (length (MinHeap.store st)) (sequence_numbers (MinHeap.store st'))).
Proof.
  intros (n & _ & Hs). rewrite Hs.
  replace (length (MinHeap.store st))
    with (length (sequence_numbers (MinHeap.store st)))
    by (unfold sequence_numbers; apply length_map).
  rewrite drop_app_length. apply consecutive_increasing.
Qed.

(** C10.  The exit of a snapshot scope puts back the saved storage and the
    size, and leaves [_insertion_count] where it is.  Over any program,
    scopes and exceptions included, no node changes its sequence number,
    the nodes created receive the consecutive numbers from the counter on,
    in order of creation, strictly increasing, and the counter ends past
    all of them. *)
Theorem sequence_numbers_survive_rollback cs st ss saved :
  MinHeap.snapshot_exit
    (MinHeap.mkst (MinHeap.store st)
       (MinHeap.with_snapshots (ss ++ [saved]) (MinHeap.self st)))
  = (Return tt,
     MinHeap.mkst (MinHeap.store st)
       (MinHeap.mk saved (Z.of_nat (length saved))
          (MinHeap._insertion_count (MinHeap.self st))
          (MinHeap.key_func (MinHeap.self st)) ss))
  /\ numbered st (run cs st).2
  /\ StronglySorted Z.lt
       (drop (length (MinHeap.store st))
             (sequence_numbers (MinHeap.store (run cs st).2))).
Proof.
  split; [by rewrite (snapshot_exit_eq _ ss saved)|].
  split; [apply numbered_run|apply numbered_increasing, numbered_run].
Qed.

(** A push rolled back, then a push: the second node is number 1, not 0. *)
Example rolled_back_number_not_reused :
  let st := (run (rolled_back_push ++ [call_push_with_priority (PStr "y") 1])
                 fresh).2 in
  sequence_numbers (MinHeap.store st) = [0; 1]%Z
  /\ map HeapNode.insertion_count (live_nodes st) = [1%Z].
Proof. vm_compute. split; reflexivity. Qed.

(** * Further properties of the methods *)

(** ** Equality of values *)

Lemma PyVal_nested_ind (P : PyVal -> Prop) :
  P PNone -> (forall z, P (PInt z)) -> (forall s, P (PStr s)) ->
  (forall l, Forall P l -> P (PTuple l)) ->
  forall v, P v.
Proof.
  intros Hn Hi Hs Ht. fix IH 1. intros [|z|s|l]; [done|apply Hi|apply Hs|].
  apply Ht. induction l as [|x l IHl]; constructor; [apply IH|done].
Qed.

Lemma py_eqb_eq a b : py_eqb a b = true <-> a = b.
Proof.
  revert b. induction a as [|z|s|l IH] using PyVal_nested_ind;
    intros [|z'|s'|l']; cbn [py_eqb]; try (split; discriminate || done).
  - rewrite Z.eqb_eq. split; congruence.
  - rewrite String.eqb_eq. split; congruence.
  - revert l'. induction IH as [|x l Hx Hl IHl]; intros [|y l'];
      try (split; discriminate || done).
    rewrite andb_true_iff, Hx, IHl. split.
    + by intros [-> [= ->]].
    + by intros [= -> ->].
Qed.

Lemma py_eqb_refl a : py_eqb a a = true.
Proof. by apply py_eqb_eq. Qed.

Lemma py_eqb_neq a b : py_eqb a b = false <-> a <> b.
Proof.
  rewrite <- py_eqb_eq. by destruct (py_eqb a b).
Qed.

(** ** _sift_up and _sift_down *)

Lemma state_eta st :
  MinHeap.mkst (MinHeap.store st)
    (MinHeap.with_heap (MinHeap.heap (MinHeap.self st)) (MinHeap.self st)) = st.
Proof. by destruct st as [s []]. Qed.

Lemma _sift_up_root st :
  0 < length (MinHeap.heap (MinHeap.self st)) ->
  MinHeap._sift_up 0 st = (Return tt, st).
Proof.
  intros Hlt. unfold MinHeap._sift_up.
  rewrite (bind_Return _ _ _ _ _ (getitem_lt st 0 Hlt)).
  cbn [MinHeap._sift_up_loop]. unfold MinHeap.bind, MinHeap.ret.
  rewrite (setitem_lt st 0 _ Hlt). f_equal.
  rewrite list_insert_id by by apply list_lookup_lookup_total_lt.
  apply state_eta.
Qed.

(** X1.  [_sift_up(idx)] never moves a node.  At the root it returns; at any
    other index inside the storage its first comparison,
    [self.heap[parent_idx] <= temp], raises TypeError; outside the storage
    the first read raises IndexError.  The state is left as it was. *)
Theorem _sift_up_outcome st idx :
  MinHeap._sift_up idx st =
    (if length (MinHeap.heap (MinHeap.self st)) <=? idx then Raise IndexError
     else if idx =? 0 then Return tt
     else Raise TypeError,
     st).
Proof.
  unfold MinHeap._sift_up.
  destruct (Nat.leb_spec (length (MinHeap.heap (MinHeap.self st))) idx) as [Hge|Hlt].
  - unfold MinHeap.bind at 1, MinHeap.getitem.
    by rewrite (lookup_ge_None_2 _ _ Hge).
  - destruct idx as [|idx]; [by apply _sift_up_root|].
    rewrite (bind_Return _ _ _ _ _ (getitem_lt st _ Hlt)).
    destruct (S idx) as [|idx'] eqn:Eidx; [done|]. rewrite <- Eidx in *. clear Eidx idx'.
    + cbn [MinHeap._sift_up_loop Nat.eqb]. replace (0 <? S idx) with true by done.
      assert (Hpar : (S idx - 1) / 2 < length (MinHeap.heap (MinHeap.self st)))
        by lia.
      unfold MinHeap.bind at 1, MinHeap.bind at 1.
      rewrite (getitem_lt st _ Hpar). reflexivity.
Qed.

(** The loop of [_sift_down] moves a hole: putting [temp] into the hole
    gives the same nodes before and after. *)
Lemma returns__sift_down_loop_perm st0 L fuel temp : forall idx,
  consistent (MinHeap.self st0) ->
  idx < length (MinHeap.heap (MinHeap.self st0)) ->
  returns
    (fun st => reordered st0 st
               /\ <[idx := temp]> (MinHeap.heap (MinHeap.self st)) ≡ₚ L)
    (MinHeap._sift_down_loop fuel temp idx)
    (fun idx' st => reordered st0 st
                    /\ idx' < length (MinHeap.heap (MinHeap.self st0))
                    /\ <[idx' := temp]> (MinHeap.heap (MinHeap.self st)) ≡ₚ L).
Proof.
  induction fuel as [|fuel IH]; intros idx Hc Hidx; cbn [MinHeap._sift_down_loop].
  - apply returns_ret. intros st [Hst HL]. done.
  - assert (Hlen : forall st, reordered st0 st ->
              length (MinHeap.heap (MinHeap.self st))
              = length (MinHeap.heap (MinHeap.self st0)))
      by apply reordered_length.
    intros st0' [Hst0' HL].
    rewrite (bind_Return _ _ _ _ _ (eq_refl : MinHeap.get st0' = (Return st0', st0'))).
    set (inside := fun (smallest : nat) (st : MinHeap.state) =>
           st0' = st
           /\ smallest < length (MinHeap.heap (MinHeap.self st0))
           /\ (smallest = idx \/ idx < smallest)).
    assert (Hsz : MinHeap.size (MinHeap.self st0')
                  = Z.of_nat (length (MinHeap.heap (MinHeap.self st0')))).
    { rewrite (reordered_size _ _ Hst0'), (Hlen _ Hst0'). exact Hc. }
    assert (H1 : exists a, inside a st0' /\
      (if (Z.of_nat (2 * idx + 1) <? MinHeap.size (MinHeap.self st0'))%Z
       then MinHeap.bind (MinHeap.getitem (2 * idx + 1))
              (fun l => MinHeap.ret
                 (if ref_lt (MinHeap.store st0') l temp then 2 * idx + 1 else idx))
       else MinHeap.ret idx) st0' = (Return a, st0')).
    { destruct (Z.ltb_spec (Z.of_nat (2 * idx + 1)) (MinHeap.size (MinHeap.self st0')))
        as [Hl|Hl].
      - assert (Hin : 2 * idx + 1 < length (MinHeap.heap (MinHeap.self st0'))) by lia.
        rewrite (bind_Return _ _ _ _ _ (getitem_lt _ _ Hin)).
        eexists. split; [|reflexivity]. rewrite (Hlen _ Hst0') in Hin.
        destruct (ref_lt _ _ _); (split; [done|split; lia]).
      - eexists. split; [|reflexivity]. split; [done|split; lia]. }
    destruct H1 as (a & (_ & Ha & Ha') & E1).
    rewrite (bind_Return _ _ _ _ _ E1).
    assert (H2 : exists b, inside b st0' /\
      (if (Z.of_nat (2 * idx + 2) <? MinHeap.size (MinHeap.self st0'))%Z
       then MinHeap.bind (MinHeap.getitem (2 * idx + 2))
              (fun r => MinHeap.bind (MinHeap.getitem a)
                 (fun s => MinHeap.ret
                    (if ref_lt (MinHeap.store st0') r s then 2 * idx + 2 else a)))
       else MinHeap.ret a) st0' = (Return b, st0')).
    { destruct (Z.ltb_spec (Z.of_nat (2 * idx + 2)) (MinHeap.size (MinHeap.self st0')))
        as [Hr|Hr].
      - assert (Hin : 2 * idx + 2 < length (MinHeap.heap (MinHeap.self st0'))) by lia.
        rewrite (bind_Return _ _ _ _ _ (getitem_lt _ _ Hin)).
        assert (Hin' : a < length (MinHeap.heap (MinHeap.self st0')))
          by by rewrite (Hlen _ Hst0').
        rewrite (bind_Return _ _ _ _ _ (getitem_lt _ _ Hin')).
        eexists. split; [|reflexivity]. rewrite (Hlen _ Hst0') in Hin.
        destruct (ref_lt _ _ _); (split; [done|split; lia]).
      - eexists. split; [|reflexivity]. done. }
    destruct H2 as (b & (_ & Hb & Hb') & E2).
    rewrite (bind_Return _ _ _ _ _ E2).
    destruct (Nat.eqb_spec b idx) as [->|Hne].
    + eexists _, st0'. split; [reflexivity|]. done.
    + assert (Hin : b < length (MinHeap.heap (MinHeap.self st0')))
        by by rewrite (Hlen _ Hst0').
      rewrite (bind_Return _ _ _ _ _ (getitem_lt _ _ Hin)).
      assert (Hidx' : idx < length (MinHeap.heap (MinHeap.self st0')))
        by by rewrite (Hlen _ Hst0').
      rewrite (bind_Return _ _ _ _ _ (setitem_lt st0' idx _ Hidx')).
      apply (IH b Hc Hb). split.
      * eapply reordered_trans; [exact Hst0'|apply reordered_setitem].
      * fields. rewrite <- HL. apply hole_move; [done|done|lia].
Qed.

Lemma _sift_down_reorders st idx :
  consistent (MinHeap.self st) ->
  idx < length (MinHeap.heap (MinHeap.self st)) ->
  exists l,
    MinHeap._sift_down idx st
    = (Return tt, MinHeap.mkst (MinHeap.store st) (MinHeap.with_heap l (MinHeap.self st)))
    /\ l ≡ₚ MinHeap.heap (MinHeap.self st).
Proof.
  intros Hc Hidx. unfold MinHeap._sift_down.
  rewrite (bind_Return _ _ _ _ _ (getitem_lt _ _ Hidx)).
  unfold MinHeap.bind at 1, MinHeap.get.
  set (temp := MinHeap.heap (MinHeap.self st) !!! idx).
  destruct (returns__sift_down_loop_perm st (MinHeap.heap (MinHeap.self st))
              (S (Z.to_nat (MinHeap.size (MinHeap.self st)))) temp idx Hc Hidx st)
    as (idx' & st1 & Eloop & Hst1 & Hidx' & HL).
  { split; [apply reordered_refl|].
    rewrite list_insert_id; [done|]. by apply list_lookup_lookup_total_lt. }
  rewrite (bind_Return _ _ _ _ _ Eloop).
  assert (Hin : idx' < length (MinHeap.heap (MinHeap.self st1)))
    by by rewrite (reordered_length _ _ Hst1).
  rewrite (setitem_lt st1 idx' temp Hin).
  destruct Hst1 as (Hs & l & Hself & Hl).
  exists (<[idx' := temp]> l). rewrite Hs, Hself in *. fields. done.
Qed.

(** A node that none of its children is below stays where it is. *)
Lemma _sift_down_stays st idx :
  consistent (MinHeap.self st) ->
  idx < length (MinHeap.heap (MinHeap.self st)) ->
  (forall c, c = 2 * idx + 1 \/ c = 2 * idx + 2 ->
     c < length (MinHeap.heap (MinHeap.self st)) ->
     ref_lt (MinHeap.store st) (MinHeap.heap (MinHeap.self st) !!! c)
                               (MinHeap.heap (MinHeap.self st) !!! idx) = false) ->
  MinHeap._sift_down idx st = (Return tt, st).
Proof.
  intros Hc Hidx Hch. unfold consistent in Hc.
  assert (Hleft :
    (if (Z.of_nat (2 * idx + 1) <? MinHeap.size (MinHeap.self st))%Z
     then MinHeap.bind (MinHeap.getitem (2 * idx + 1))
            (fun l => MinHeap.ret
               (if ref_lt (MinHeap.store st) l (MinHeap.heap (MinHeap.self st) !!! idx)
                then 2 * idx + 1 else idx))
     else MinHeap.ret idx) st = (Return idx, st)).
  { destruct (Z.ltb_spec (Z.of_nat (2 * idx + 1)) (MinHeap.size (MinHeap.self st)));
      [|done].
    assert (Hl : 2 * idx + 1 < length (MinHeap.heap (MinHeap.self st))) by lia.
    rewrite (bind_Return _ _ _ _ _ (getitem_lt _ _ Hl)).
    by rewrite (Hch (2 * idx + 1) ltac:(lia) Hl). }
  assert (Hright :
    (if (Z.of_nat (2 * idx + 2) <? MinHeap.size (MinHeap.self st))%Z
     then MinHeap.bind (MinHeap.getitem (2 * idx + 2))
            (fun r => MinHeap.bind (MinHeap.getitem idx)
               (fun s => MinHeap.ret
                  (if ref_lt (MinHeap.store st) r s then 2 * idx + 2 else idx)))
     else MinHeap.ret idx) st = (Return idx, st)).
  { destruct (Z.ltb_spec (Z.of_nat (2 * idx + 2)) (MinHeap.size (MinHeap.self st)));
      [|done].
    assert (Hr : 2 * idx + 2 < length (MinHeap.heap (MinHeap.self st))) by lia.
    rewrite (bind_Return _ _ _ _ _ (getitem_lt _ _ Hr)).
    rewrite (bind_Return _ _ _ _ _ (getitem_lt _ _ Hidx)).
    by rewrite (Hch (2 * idx + 2) ltac:(lia) Hr). }
  assert (Hloop : forall fuel,
    MinHeap._sift_down_loop (S fuel) (MinHeap.heap (MinHeap.self st) !!! idx) idx st
    = (Return idx, st)).
  { intros fuel. cbn [MinHeap._sift_down_loop].
    unfold MinHeap.bind at 1, MinHeap.get. cbv beta iota.
    rewrite (bind_Return _ _ _ _ _ Hleft).
    rewrite (bind_Return _ _ _ _ _ Hright).
    by rewrite Nat.eqb_refl. }
  unfold MinHeap._sift_down.
  rewrite (bind_Return _ _ _ _ _ (getitem_lt _ _ Hidx)).
  unfold MinHeap.bind at 1, MinHeap.get. cbv beta iota.
  rewrite (bind_Return _ _ _ _ _ (Hloop _)).
  rewrite (setitem_lt st idx _ Hidx). f_equal.
  rewrite list_insert_id by by apply list_lookup_lookup_total_lt.
  apply state_eta.
Qed.

(** X2.  [_sift_down(idx)] on a consistent heap, [idx] inside the storage:
    the call returns, the storage afterwards holds the same nodes as before
    in some order, and nothing else changes; when no child of the node at
    [idx] is below it, the storage is left as it was. *)
Theorem _sift_down_spec st idx :
  consistent (MinHeap.self st) ->
  idx < length (MinHeap.heap (MinHeap.self st)) ->
  exists l,
    MinHeap._sift_down idx st
    = (Return tt, MinHeap.mkst (MinHeap.store st) (MinHeap.with_heap l (MinHeap.self st)))
    /\ l ≡ₚ MinHeap.heap (MinHeap.self st)
    /\ ((forall c, c = 2 * idx + 1 \/ c = 2 * idx + 2 ->
           c < length (MinHeap.heap (MinHeap.self st)) ->
           ref_lt (MinHeap.store st) (MinHeap.heap (MinHeap.self st) !!! c)
                  (MinHeap.heap (MinHeap.self st) !!! idx) = false) ->
        l = MinHeap.heap (MinHeap.self st)).
Proof.
  intros Hc Hidx.
  destruct (_sift_down_reorders st idx Hc Hidx) as (l & E & Hl).
  exists l. split; [exact E|]. split; [exact Hl|].
  intros Hch. rewrite (_sift_down_stays st idx Hc Hidx Hch) in E.
  injection E as E. rewrite E. reflexivity.
Qed.

Lemma _sift_down_spec_witness :
  consistent (MinHeap.self seven_broken)
  /\ 1 < length (MinHeap.heap (MinHeap.self seven_broken))
  /\ exists l,
       MinHeap._sift_down 1 seven_broken
       = (Return tt,
          MinHeap.mkst (MinHeap.store seven_broken)
            (MinHeap.with_heap l (MinHeap.self seven_broken)))
       /\ l ≡ₚ MinHeap.heap (MinHeap.self seven_broken).
Proof.
  assert (Hc : consistent (MinHeap.self seven_broken)) by reflexivity.
  assert (Hi : 1 < length (MinHeap.heap (MinHeap.self seven_broken)))
    by (cbn; lia).
  destruct (_sift_down_spec seven_broken 1 Hc Hi) as (l & E & Hl & _).
  split; [exact Hc|]. split; [exact Hi|].
  exists l. split; [exact E|exact Hl].
Defined.

(** ** remove *)

Lemma insert_swap_out {A} `{Inhabited A} (l : list A) i x :
  i < length l -> (l !!! i) :: <[i := x]> l ≡ₚ x :: l.
Proof.
  revert i. induction l as [|a l IH]; intros [|i] Hi; simpl in Hi; try lia.
  - apply perm_swap.
  - change ((a :: l) !!! S i) with (l !!! i).
    change (<[S i := x]> (a :: l)) with (a :: <[i := x]> l).
    rewrite perm_swap, IH by lia. apply perm_swap.
Qed.

(** [self.heap[i] = self.heap[-1]; self.heap.pop()] takes the node at [i]
    out of the storage. *)
Lemma overwrite_with_last {A} `{Inhabited A} (l : list A) i x :
  last l = Some x -> i < length l ->
  (l !!! i) :: take (length l - 1) (<[i := x]> l) ≡ₚ l.
Proof.
  intros Hlast Hi. apply last_Some in Hlast as [l0 ->].
  rewrite length_app in *. cbn [length] in *.
  replace (length l0 + 1 - 1) with (length l0) by lia.
  destruct (decide (i < length l0)) as [Hlt|Hge].
  - rewrite insert_app_l by done. rewrite lookup_total_app_l by done.
    rewrite take_app_length' by by rewrite length_insert.
    rewrite insert_swap_out by done. apply Permutation_cons_append.
  - assert (i = length l0) as -> by lia.
    rewrite list_insert_id.
    + rewrite take_app_length.
      rewrite lookup_total_app_r by done. rewrite Nat.sub_diag. cbn.
      apply Permutation_cons_append.
    + rewrite lookup_app_r by done. by rewrite Nat.sub_diag.
Qed.

Lemma index_of_found s v l :
  v ∈ map (fun r => HeapNode.value (deref s r)) l ->
  exists i, MinHeap.index_of s v l 0 = Some i.
Proof.
  intros Hin. destruct (MinHeap.index_of s v l 0) as [i|] eqn:E; [eauto|].
  apply index_of_None in E. apply list_elem_of_In, in_map_iff in Hin
    as (r & <- & Hr).
  apply list_elem_of_In in Hr. rewrite Forall_forall in E.
  specialize (E r Hr). by rewrite py_eqb_refl in E.
Qed.

Lemma values_map st :
  values st
  = map (fun r => HeapNode.value (deref (MinHeap.store st) r))
        (MinHeap.heap (MinHeap.self st)).
Proof. unfold values, live_nodes. by rewrite map_map. Qed.

(** X3.  [remove(value)] on a consistent heap.  When some node carries the
    value, the call returns True; the first such node in storage order, and
    only that one, leaves the storage; [size] goes down by one; no node
    object and no other field changes.  When none does, the call returns
    False and changes nothing. *)
Theorem remove_spec st v :
  consistent (MinHeap.self st) ->
  (v ∈ values st ->
   exists i r l,
     MinHeap.heap (MinHeap.self st) !! i = Some r
     /\ HeapNode.value (deref (MinHeap.store st) r) = v
     /\ (forall j r', j < i -> MinHeap.heap (MinHeap.self st) !! j = Some r' ->
           HeapNode.value (deref (MinHeap.store st) r') <> v)
     /\ MinHeap.remove v st
        = (Return true,
           MinHeap.mkst (MinHeap.store st)
             (MinHeap.with_heap l
                (MinHeap.with_size (MinHeap.size (MinHeap.self st) - 1)
                                   (MinHeap.self st))))
     /\ r :: l ≡ₚ MinHeap.heap (MinHeap.self st))
  /\ (v ∉ values st -> MinHeap.remove v st = (Return false, st)).
Proof.
  intros Hc. split.
  - intros Hin. rewrite values_map in Hin.
    destruct (index_of_found _ _ _ Hin) as [i E].
    destruct (index_of_Some _ _ _ _ _ E) as (_ & Hi & r & Hr & Hv & Hfirst).
    rewrite Nat.sub_0_r in *.
    exists i, r. 
    unfold MinHeap.remove, MinHeap.bind at 1, MinHeap.get. rewrite E.
    destruct (last (MinHeap.heap (MinHeap.self st))) as [lastnode|] eqn:El.
    2: { apply last_None in El. rewrite El in Hi. simpl in Hi. lia. }
    rewrite (bind_Return _ _ _ _ _ (setitem_lt st i lastnode Hi)).
    unfold MinHeap.bind at 1, MinHeap.set_self at 1. fields.
    unfold MinHeap.bind at 1, MinHeap.set_self at 1. fields.
    unfold MinHeap.bind at 1, MinHeap.get. fields.
    set (l2 := take _ _).
    assert (Hperm : r :: l2 ≡ₚ MinHeap.heap (MinHeap.self st)).
    { subst l2. rewrite length_insert.
      rewrite <- (list_lookup_total_correct _ _ _ Hr).
      by apply overwrite_with_last. }
    set (st2 := MinHeap.mkst _ _).
    assert (Hlen2 : S (length l2) = length (MinHeap.heap (MinHeap.self st))).
    { apply Permutation_length in Hperm. exact Hperm. }
    assert (Hc2 : consistent (MinHeap.self st2)).
    { unfold consistent in *. subst st2. fields. lia. }
    destruct (i <? _) eqn:Ei.
    + apply Nat.ltb_lt in Ei.
      destruct (_sift_down_reorders st2 i Hc2 Ei) as (l & Esift & Hl).
      rewrite (bind_Return _ _ _ _ _ Esift).
      exists l. split; [done|]. split; [by apply py_eqb_eq|].
      split; [intros j r' Hj Hr'; by apply py_eqb_neq, (Hfirst j)|].
      split; [reflexivity|]. by rewrite Hl.
    + exists l2. split; [done|]. split; [by apply py_eqb_eq|].
      split; [intros j r' Hj Hr'; by apply py_eqb_neq, (Hfirst j)|].
      split; [reflexivity|done].
  - intros Hnot. apply remove_missing.
    destruct (MinHeap.index_of _ _ _ _) as [i|] eqn:E; [|done].
    destruct (index_of_Some _ _ _ _ _ E) as (_ & _ & r & Hr & Hv & _).
    exfalso. apply Hnot. rewrite values_map.
    apply list_elem_of_In, in_map_iff. exists r. split; [by apply py_eqb_eq|].
    apply list_elem_of_In. eapply list_elem_of_lookup_2. exact Hr.
Qed.

Lemma remove_spec_witness :
  consistent (MinHeap.self seven)
  /\ PInt 11 ∈ values seven
  /\ exists i r l,
       MinHeap.heap (MinHeap.self seven) !! i = Some r
       /\ HeapNode.value (deref (MinHeap.store seven) r) = PInt 11
       /\ MinHeap.remove (PInt 11) seven
          = (Return true,
             MinHeap.mkst (MinHeap.store seven)
               (MinHeap.with_heap l
                  (MinHeap.with_size (MinHeap.size (MinHeap.self seven) - 1)
                                     (MinHeap.self seven))))
       /\ r :: l ≡ₚ MinHeap.heap (MinHeap.self seven).
Proof.
  assert (Hc : consistent (MinHeap.self seven)) by reflexivity.
  assert (Hin : PInt 11 ∈ values seven)
    by (apply list_elem_of_In; vm_compute; tauto).
  destruct (remove_spec seven (PInt 11) Hc) as [Hfound _].
  destruct (Hfound Hin) as (i & r & l & Hr & Hv & _ & E & Hperm).
  split; [exact Hc|]. split; [exact Hin|].
  exists i, r, l. split; [exact Hr|]. split; [exact Hv|].
  split; [exact E|exact Hperm].
Defined.

(** ** update_priority *)

(** X4.  [update_priority(value, new_priority)] on a consistent heap.  When no
    node carries the value the call returns False and changes nothing.
    Otherwise the first node in storage order that carries it gets the new
    priority, in place.  If the priority did not decrease, or the node is
    the root, the call returns True with the same nodes in the storage, in
    some order; if it decreased and the node is not the root, the call
    raises TypeError and leaves the storage in its old order. *)
Theorem update_priority_spec st v p :
  consistent (MinHeap.self st) ->
  (v ∈ values st ->
   exists i node,
     MinHeap.heap (MinHeap.self st) !! i = Some node
     /\ HeapNode.value (deref (MinHeap.store st) node) = v
     /\ (forall j r', j < i -> MinHeap.heap (MinHeap.self st) !! j = Some r' ->
           HeapNode.value (deref (MinHeap.store st) r') <> v)
     /\ (i = 0 \/ (HeapNode.priority (deref (MinHeap.store st) node) <= p)%Z ->
         exists l,
           MinHeap.update_priority v p st
           = (Return true,
              MinHeap.mkst (set_priority (MinHeap.store st) node p)
                           (MinHeap.with_heap l (MinHeap.self st)))
           /\ l ≡ₚ MinHeap.heap (MinHeap.self st))
     /\ (0 < i -> (p < HeapNode.priority (deref (MinHeap.store st) node))%Z ->
         MinHeap.update_priority v p st
         = (Raise TypeError,
            MinHeap.mkst (set_priority (MinHeap.store st) node p) (MinHeap.self st))))
  /\ (v ∉ values st -> MinHeap.update_priority v p st = (Return false, st)).
Proof.
  intros Hc. split.
  - intros Hin. rewrite values_map in Hin.
    destruct (index_of_found _ _ _ Hin) as [i E].
    destruct (index_of_Some _ _ _ _ _ E) as (_ & Hi & node & Hnode & Hv & Hfirst).
    rewrite Nat.sub_0_r in *.
    exists i, node. split; [done|]. split; [by apply py_eqb_eq|].
    split; [intros j r' Hj Hr'; by apply py_eqb_neq, (Hfirst j)|].
    split; [|intros Hpos Hlt; by apply (update_priority_decrease_raises st v p i)].
    intros Hcase.
    unfold MinHeap.update_priority, MinHeap.bind at 1, MinHeap.get. rewrite E.
    rewrite (bind_Return _ _ _ _ _ (getitem_Some st i node Hnode)).
    unfold MinHeap.bind at 1, MinHeap.set_store at 1.
    set (st1 := MinHeap.mkst _ _).
    assert (Hi1 : i < length (MinHeap.heap (MinHeap.self st1))) by done.
    destruct (Z.ltb_spec p (HeapNode.priority (deref (MinHeap.store st) node)))
      as [Hlt|Hge].
    + destruct Hcase as [->|Hle]; [|lia].
      unfold MinHeap.bind at 1. rewrite (_sift_up_root st1 Hi1).
      exists (MinHeap.heap (MinHeap.self st)). split; [|done].
      unfold MinHeap.ret. do 2 f_equal. by destruct st as [s []].
    + destruct (_sift_down_reorders st1 i Hc Hi1) as (l & Esift & Hl).
      unfold MinHeap.bind at 1. rewrite Esift.
      exists l. split; [reflexivity|done].
  - intros Hnot. apply update_priority_missing.
    destruct (MinHeap.index_of _ _ _ _) as [i|] eqn:E; [|done].
    destruct (index_of_Some _ _ _ _ _ E) as (_ & _ & r & Hr & Hv & _).
    exfalso. apply Hnot. rewrite values_map.
    apply list_elem_of_In, in_map_iff. exists r. split; [by apply py_eqb_eq|].
    apply list_elem_of_In. eapply list_elem_of_lookup_2. exact Hr.
Qed.

Lemma update_priority_spec_witness :
  consistent (MinHeap.self scenario_A)
  /\ task "task3" 3 ∈ values scenario_A
  /\ exists i node,
       MinHeap.heap (MinHeap.self scenario_A) !! i = Some node
       /\ HeapNode.value (deref (MinHeap.store scenario_A) node) = task "task3" 3
       /\ (i = 0 \/ (HeapNode.priority (deref (MinHeap.store scenario_A) node) <= 9)%Z ->
           exists l,
             MinHeap.update_priority (task "task3" 3) 9 scenario_A
             = (Return true,
                MinHeap.mkst (set_priority (MinHeap.store scenario_A) node 9)
                             (MinHeap.with_heap l (MinHeap.self scenario_A)))
             /\ l ≡ₚ MinHeap.heap (MinHeap.self scenario_A)).
Proof.
  assert (Hc : consistent (MinHeap.self scenario_A)) by reflexivity.
  assert (Hin : task "task3" 3 ∈ values scenario_A)
    by (apply list_elem_of_In; vm_compute; tauto).
  destruct (update_priority_spec scenario_A (task "task3" 3) 9 Hc) as [Hfound _].
  destruct (Hfound Hin) as (i & node & Hnode & Hv & _ & Hup & _).
  split; [exact Hc|]. split; [exact Hin|].
  exists i, node. split; [exact Hnode|]. split; [exact Hv|exact Hup].
Defined.

(** ** push_with_priority, push *)

Lemma deref_new s n : deref (s ++ [n]) (length s) = n.
Proof.
  unfold deref. rewrite (lookup_total_app_r s [n] (length s)) by done.
  by rewrite Nat.sub_diag.
Qed.

Lemma entries_push_with_priority st v p :
  valid st ->
  entries (MinHeap.push_with_priority v p st).2 ≡ₚ (p, v) :: entries st.
Proof.
  intros Hv. rewrite push_with_priority_eq. unfold entries, live_nodes. fields.
  rewrite heappush_perm. cbn [map].
  rewrite live_nodes_appended by done. by rewrite deref_new.
Qed.

Lemma valid_push_with_priority st v p :
  valid st -> valid (MinHeap.push_with_priority v p st).2.
Proof.
  intros Hv. rewrite push_with_priority_eq. unfold valid in *. fields.
  rewrite heappush_perm. rewrite length_app. constructor; [simpl; lia|].
  eapply Forall_impl; [exact Hv|]. intros r Hr. simpl in Hr. lia.
Qed.

(** X5.  [push_with_priority(value, priority)] on a well-formed heap: the call
    returns and leaves a well-formed heap; its entries are the old entries
    and (priority, value); the one node created carries the old value of the
    counter as its sequence number; size and counter go up by one. *)
Theorem push_with_priority_spec st v p :
  well_formed st ->
  exists st',
    MinHeap.push_with_priority v p st = (Return tt, st')
    /\ well_formed st'
    /\ entries st' ≡ₚ (p, v) :: entries st
    /\ MinHeap.store st'
       = MinHeap.store st
         ++ [HeapNode.mk p v (MinHeap._insertion_count (MinHeap.self st))]
    /\ MinHeap.size (MinHeap.self st') = (MinHeap.size (MinHeap.self st) + 1)%Z
    /\ MinHeap._insertion_count (MinHeap.self st')
       = (MinHeap._insertion_count (MinHeap.self st) + 1)%Z
    /\ MinHeap.key_func (MinHeap.self st') = MinHeap.key_func (MinHeap.self st)
    /\ MinHeap._snapshots (MinHeap.self st') = MinHeap._snapshots (MinHeap.self st).
Proof.
  intros (Hc & Hv & Hinv).
  destruct (push_with_priority_invariant st v p Hc Hv Hinv) as (Hc' & Hv' & Hinv').
  pose proof (entries_push_with_priority st v p Hv) as Hent.
  rewrite push_with_priority_eq in *. eexists. split; [reflexivity|].
  split; [done|]. split; [done|]. repeat split.
Qed.

Lemma push_with_priority_spec_witness :
  well_formed scenario_A
  /\ exists st',
       MinHeap.push_with_priority (task "task0" 0) 3 scenario_A = (Return tt, st')
       /\ well_formed st'
       /\ entries st' ≡ₚ (3%Z, task "task0" 0) :: entries scenario_A.
Proof.
  assert (Hwf : well_formed scenario_A).
  { split; [reflexivity|]. split; [repeat constructor|].
    apply heap_invariantb_spec. reflexivity. }
  split; [exact Hwf|].
  destruct (push_with_priority_spec scenario_A (task "task0" 0) 3 Hwf)
    as (st' & E & Hwf' & Hent & _).
  exists st'. split; [exact E|]. split; [exact Hwf'|exact Hent].
Defined.

Lemma push_pushable st v :
  pushable (MinHeap.key_func (MinHeap.self st)) v ->
  MinHeap.push v st
  = MinHeap.push_with_priority v
      (priority_of (MinHeap.key_func (MinHeap.self st)) v) st.
Proof.
  unfold MinHeap.push, MinHeap.bind at 1, MinHeap.get, pushable, priority_of.
  destruct (MinHeap.key_func _); [done|]. by destruct v.
Qed.

Lemma entries_root st r :
  MinHeap.heap (MinHeap.self st) !! 0 = Some r ->
  (HeapNode.priority (deref (MinHeap.store st) r),
   HeapNode.value (deref (MinHeap.store st) r)) ∈ entries st.
Proof.
  intros Hr. unfold entries, live_nodes. rewrite map_map.
  apply list_elem_of_In, in_map_iff. exists r. split; [done|].
  apply list_elem_of_In. by eapply list_elem_of_lookup_2.
Qed.

Lemma entries_min st r :
  consistent (MinHeap.self st) -> heap_invariant st ->
  MinHeap.heap (MinHeap.self st) !! 0 = Some r ->
  forall e, e ∈ entries st ->
    (HeapNode.priority (deref (MinHeap.store st) r) <= e.1)%Z.
Proof.
  intros Hc Hinv Hr e He.
  apply (heap_invariant_heapq st Hc) in Hinv.
  unfold entries, live_nodes in He. rewrite map_map in He.
  apply list_elem_of_In, in_map_iff in He as (r' & <- & Hr').
  apply list_elem_of_In, list_elem_of_lookup in Hr' as [i Hi].
  pose proof (ref_heap_root_le (MinHeap.store st) _ i Hinv (lookup_lt_Some _ _ _ Hi))
    as Hle.
  rewrite (list_lookup_total_correct _ _ _ Hr) in Hle.
  rewrite (list_lookup_total_correct _ _ _ Hi) in Hle.
  apply HeapNode_leb_spec in Hle. cbn. lia.
Qed.

(** X6.  After [push_with_priority(value, priority)] on a well-formed heap,
    [peek] returns an entry of least priority among the old entries and the
    new one, and [pop] returns the value of that entry; when the new
    priority is below every old one, that entry is (priority, value). *)
Theorem push_then_peek st v p :
  well_formed st ->
  exists st' q w,
    MinHeap.push_with_priority v p st = (Return tt, st')
    /\ MinHeap.peek st' = (Return (PTuple [PInt q; w]), st')
    /\ (MinHeap.pop st').1 = Return w
    /\ (q, w) ∈ (p, v) :: entries st
    /\ (q <= p)%Z
    /\ (forall e, e ∈ entries st -> (q <= e.1)%Z)
    /\ ((forall e, e ∈ entries st -> (p < e.1)%Z) -> q = p /\ w = v).
Proof.
  intros Hwf.
  destruct Hwf as (Hc & Hv & Hinv).
  destruct (push_with_priority_invariant st v p Hc Hv Hinv) as (Hc' & Hv' & Hinv').
  pose proof (entries_push_with_priority st v p Hv) as Hent.
  destruct (MinHeap.push_with_priority v p st) as [o st'] eqn:E.
  assert (o = Return tt) as ->
    by (rewrite push_with_priority_eq in E; by injection E as <- _).
  cbn [snd] in Hc', Hv', Hinv', Hent.
  assert (Hne : MinHeap.heap (MinHeap.self st') <> []).
  { intros Hnil. apply Permutation_length in Hent.
    unfold entries, live_nodes in Hent. rewrite !length_map, Hnil in Hent.
    simpl in Hent. lia. }
  destruct (pop_nonempty st' Hc' Hne) as (r & rest & Hroot & Hpop & _).
  exists st', (HeapNode.priority (deref (MinHeap.store st') r)),
    (HeapNode.value (deref (MinHeap.store st') r)).
  pose proof (entries_root st' r Hroot) as Hin. rewrite Hent in Hin.
  pose proof (entries_min st' r Hc' Hinv' Hroot) as Hmin.
  split; [done|]. split; [by apply peek_root|]. split; [by rewrite Hpop|].
  split; [done|].
  split; [apply (Hmin (p, v)); rewrite Hent; apply list_elem_of_here|].
  split.
  { intros e He. apply Hmin. rewrite Hent. by apply list_elem_of_further. }
  intros Hlow. apply elem_of_cons in Hin as [[= -> ->]|Hold]; [done|].
  specialize (Hlow _ Hold). cbn in Hlow.
  specialize (Hmin (p, v)). rewrite Hent in Hmin.
  specialize (Hmin (list_elem_of_here _ _)). cbn in Hmin. lia.
Qed.

Lemma push_then_peek_witness :
  well_formed scenario_A
  /\ exists st' q w,
       MinHeap.push_with_priority (task "task0" 0) 0 scenario_A = (Return tt, st')
       /\ MinHeap.peek st' = (Return (PTuple [PInt q; w]), st')
       /\ (MinHeap.pop st').1 = Return w
       /\ (q, w) ∈ (0%Z, task "task0" 0) :: entries scenario_A
       /\ (q <= 0)%Z
       /\ (forall e, e ∈ entries scenario_A -> (q <= e.1)%Z)
       /\ ((forall e, e ∈ entries scenario_A -> (0 < e.1)%Z) ->
           q = 0%Z /\ w = task "task0" 0).
Proof.
  assert (Hwf : well_formed scenario_A).
  { split; [reflexivity|]. split; [repeat constructor|].
    apply heap_invariantb_spec. reflexivity. }
  split; [exact Hwf|].
  exact (push_then_peek scenario_A (task "task0" 0) 0 Hwf).
Defined.

(** ** _heapify, bulk_push and the constructor *)

Lemma entries_with_heap st l :
  l ≡ₚ MinHeap.heap (MinHeap.self st) ->
  entries (MinHeap.mkst (MinHeap.store st) (MinHeap.with_heap l (MinHeap.self st)))
  ≡ₚ entries st.
Proof. intros Hl. unfold entries, live_nodes. fields. by rewrite Hl. Qed.

(** X7.  [_heapify()] on a consistent heap, whatever the order of its storage:
    the storage afterwards holds the same nodes, in heap order, and nothing
    else changes. *)
Theorem _heapify_spec st :
  consistent (MinHeap.self st) ->
  exists l,
    MinHeap._heapify st
    = (Return tt, MinHeap.mkst (MinHeap.store st) (MinHeap.with_heap l (MinHeap.self st)))
    /\ l ≡ₚ MinHeap.heap (MinHeap.self st)
    /\ heap_invariant
         (MinHeap.mkst (MinHeap.store st) (MinHeap.with_heap l (MinHeap.self st))).
Proof.
  intros Hc. rewrite _heapify_eq. eexists. split; [reflexivity|].
  split; [apply heapify_perm|].
  apply heap_invariant_heapq.
  - unfold consistent in *. fields. by rewrite heapify_length.
  - fields. apply ref_heapify_heap.
Qed.

Lemma _heapify_spec_witness :
  consistent (MinHeap.self seven_broken)
  /\ ~ heap_invariant seven_broken
  /\ exists l,
       MinHeap._heapify seven_broken
       = (Return tt,
          MinHeap.mkst (MinHeap.store seven_broken)
            (MinHeap.with_heap l (MinHeap.self seven_broken)))
       /\ l ≡ₚ MinHeap.heap (MinHeap.self seven_broken)
       /\ heap_invariant
            (MinHeap.mkst (MinHeap.store seven_broken)
               (MinHeap.with_heap l (MinHeap.self seven_broken))).
Proof.
  assert (Hc : consistent (MinHeap.self seven_broken)) by reflexivity.
  split; [exact Hc|]. split.
  - intros Hinv. specialize (Hinv 1 3 ltac:(lia) ltac:(cbn; lia)).
    vm_compute in Hinv. discriminate.
  - exact (_heapify_spec seven_broken Hc).
Defined.

Lemma push_all_spec items : forall st,
  Forall (pushable (MinHeap.key_func (MinHeap.self st))) items ->
  consistent (MinHeap.self st) -> valid st ->
  exists st',
    MinHeap.push_all items st = (Return tt, st')
    /\ consistent (MinHeap.self st') /\ valid st'
    /\ entries st'
       ≡ₚ entries st
          ++ map (fun v => (priority_of (MinHeap.key_func (MinHeap.self st)) v, v))
                 items
    /\ MinHeap.size (MinHeap.self st')
       = (MinHeap.size (MinHeap.self st) + Z.of_nat (length items))%Z
    /\ MinHeap.key_func (MinHeap.self st') = MinHeap.key_func (MinHeap.self st)
    /\ MinHeap._snapshots (MinHeap.self st') = MinHeap._snapshots (MinHeap.self st).
Proof.
  induction items as [|v items IH]; intros st Hp Hc Hv.
  - exists st. cbn. rewrite app_nil_r. repeat split; try done. lia.
  - apply Forall_cons in Hp as [Hpv Hp].
    cbn [MinHeap.push_all].
    pose proof (effect_push_with_priority st v
                  (priority_of (MinHeap.key_func (MinHeap.self st)) v) Hc)
      as (_ & Hc1 & Hss1 & Hsz1).
    pose proof (valid_push_with_priority st v
                  (priority_of (MinHeap.key_func (MinHeap.self st)) v) Hv) as Hv1.
    pose proof (entries_push_with_priority st v
                  (priority_of (MinHeap.key_func (MinHeap.self st)) v) Hv) as He1.
    rewrite <- (push_pushable st v Hpv) in Hc1, Hss1, Hsz1, Hv1, He1.
    destruct (MinHeap.push v st) as [r st1] eqn:E.
    assert (Hr : r = Return tt /\ MinHeap.key_func (MinHeap.self st1)
                                  = MinHeap.key_func (MinHeap.self st)).
    { rewrite (push_pushable st v Hpv), push_with_priority_eq in E.
      by injection E as <- <-. }
    destruct Hr as [-> Hkey]. fields.
    rewrite <- Hkey in Hp.
    destruct (IH st1 Hp Hc1 Hv1) as (st' & E' & Hc' & Hv' & He' & Hsz' & Hk' & Hss').
    exists st'. rewrite (bind_Return _ _ _ _ _ E).
    split; [done|]. split; [done|]. split; [done|].
    split.
    { rewrite He', He1, Hkey. cbn [map]. by rewrite <- Permutation_middle. }
    split; [rewrite Hsz', Hsz1; cbn [length]; lia|].
    split; congruence.
Qed.

(** X8.  [bulk_push(items)], every item being a value [push] takes in (any value
    under a key function, a number without one), on a consistent heap whose
    references are valid, in heap order or not: the call returns and leaves
    a well-formed heap; its entries are the old entries and one entry
    (priority, item) per item; [size] grows by the number of items. *)
Theorem bulk_push_spec st items :
  Forall (pushable (MinHeap.key_func (MinHeap.self st))) items ->
  consistent (MinHeap.self st) -> valid st ->
  exists st',
    MinHeap.bulk_push items st = (Return tt, st')
    /\ well_formed st'
    /\ entries st'
       ≡ₚ entries st
          ++ map (fun v => (priority_of (MinHeap.key_func (MinHeap.self st)) v, v))
                 items
    /\ MinHeap.size (MinHeap.self st')
       = (MinHeap.size (MinHeap.self st) + Z.of_nat (length items))%Z.
Proof.
  intros Hp Hc Hv.
  destruct (push_all_spec items st Hp Hc Hv)
    as (st1 & E & Hc1 & Hv1 & He1 & Hsz1 & _).
  eexists. unfold MinHeap.bulk_push. rewrite (bind_Return _ _ _ _ _ E).
  split; [apply _heapify_eq|]. split; [|split].
  - split; [|split].
    + unfold consistent in *. fields. by rewrite heapify_length.
    + unfold valid in *. fields. by rewrite heapify_perm.
    + apply heap_invariant_heapq.
      * unfold consistent in *. fields. by rewrite heapify_length.
      * fields. apply ref_heapify_heap.
  - rewrite entries_with_heap; [done|apply heapify_perm].
  - done.
Qed.

Lemma bulk_push_spec_witness :
  Forall (pushable (MinHeap.key_func (MinHeap.self seven_broken))) [PInt 6; PInt 0]
  /\ consistent (MinHeap.self seven_broken) /\ valid seven_broken
  /\ exists st',
       MinHeap.bulk_push [PInt 6; PInt 0] seven_broken = (Return tt, st')
       /\ well_formed st'
       /\ entries st'
          ≡ₚ entries seven_broken ++ [(6%Z, PInt 6); (0%Z, PInt 0)]
       /\ MinHeap.size (MinHeap.self st') = 8%Z.
Proof.
  assert (Hp : Forall (pushable (MinHeap.key_func (MinHeap.self seven_broken)))
                 [PInt 6; PInt 0]) by (repeat constructor).
  assert (Hc : consistent (MinHeap.self seven_broken)) by reflexivity.
  assert (Hv : valid seven_broken) by (repeat constructor).
  split; [exact Hp|]. split; [exact Hc|]. split; [exact Hv|].
  exact (bulk_push_spec seven_broken [PInt 6; PInt 0] Hp Hc Hv).
Defined.

Lemma _build_from_items_step key item items st :
  accepted item -> MinHeap.key_func (MinHeap.self st) = key ->
  MinHeap._build_from_items (item :: items) st
  = MinHeap.bind
      (MinHeap.push_with_priority (item_entry key item).2 (item_entry key item).1)
      (fun _ => MinHeap._build_from_items items) st.
Proof.
  intros Hacc Hkey. cbn [MinHeap._build_from_items].
  destruct item as [|z|s|l]; try done.
  - assert (Hp : pushable (MinHeap.key_func (MinHeap.self st)) (PInt z)).
    { unfold pushable. by destruct (MinHeap.key_func _). }
    unfold MinHeap.bind. rewrite (push_pushable st (PInt z) Hp).
    by rewrite Hkey.
  - by destruct l as [|[|p|s|l'] [|v [|c l]]].
Qed.

Lemma _build_from_items_spec key items : forall st,
  Forall accepted items -> MinHeap.key_func (MinHeap.self st) = key ->
  well_formed st ->
  exists st',
    MinHeap._build_from_items items st = (Return tt, st')
    /\ well_formed st'
    /\ entries st' ≡ₚ entries st ++ map (item_entry key) items
    /\ MinHeap.size (MinHeap.self st')
       = (MinHeap.size (MinHeap.self st) + Z.of_nat (length items))%Z
    /\ MinHeap._insertion_count (MinHeap.self st')
       = (MinHeap._insertion_count (MinHeap.self st) + Z.of_nat (length items))%Z
    /\ MinHeap.key_func (MinHeap.self st') = key
    /\ MinHeap._snapshots (MinHeap.self st') = MinHeap._snapshots (MinHeap.self st).
Proof.
  induction items as [|item items IH]; intros st Hacc Hkey Hwf.
  - exists st. cbn. rewrite app_nil_r.
    split; [done|]. split; [done|]. split; [done|]. repeat split; try done; lia.
  - apply Forall_cons in Hacc as [Ha Hacc].
    rewrite (_build_from_items_step key item items st Ha Hkey).
    destruct (item_entry key item) as [p v] eqn:Hentry. cbn [fst snd].
    destruct Hwf as (Hc & Hv & Hinv).
    pose proof (push_with_priority_invariant st v p Hc Hv Hinv) as Hwf1.
    pose proof (entries_push_with_priority st v p Hv) as He1.
    destruct (MinHeap.push_with_priority v p st) as [o st1] eqn:E.
    rewrite push_with_priority_eq in E. injection E as <- Hst1.
    cbn [snd] in Hwf1, He1.
    assert (Hkey1 : MinHeap.key_func (MinHeap.self st1) = key) by (by subst st1).
    destruct (IH st1 Hacc Hkey1 Hwf1)
      as (st' & E' & Hwf' & He' & Hsz' & Hct' & Hk' & Hss').
    exists st'. unfold MinHeap.bind.
    rewrite push_with_priority_eq, Hst1. cbv beta iota.
    split; [done|]. split; [done|]. split.
    { rewrite He', He1. cbn [map]. rewrite Hentry.
      by rewrite <- Permutation_middle. }
    subst st1. revert Hsz' Hct' Hss'. fields. intros Hsz' Hct' Hss'.
    split; [rewrite Hsz'; cbn [length]; lia|].
    split; [rewrite Hct'; cbn [length]; lia|]. done.
Qed.

(** X9.  [MinHeap(items, key)], every item being a number or a pair whose first
    element is a number: construction returns a well-formed heap with one
    entry per item (a pair gives its own priority and value, whatever the key
    function; a number gives itself under priority [key(number)], or under
    itself without a key function); size and counter are the number of
    items, the key function is stored, there is no snapshot. *)
Theorem init_spec items key s :
  Forall accepted items ->
  exists st,
    MinHeap.__init__ (Some items) key s = (Return tt, st)
    /\ well_formed st
    /\ entries st ≡ₚ map (item_entry key) items
    /\ MinHeap.size (MinHeap.self st) = Z.of_nat (length items)
    /\ MinHeap._insertion_count (MinHeap.self st) = Z.of_nat (length items)
    /\ MinHeap.key_func (MinHeap.self st) = key
    /\ MinHeap._snapshots (MinHeap.self st) = [].
Proof.
  intros Hacc.
  assert (Hwf : well_formed (MinHeap.mkst s (MinHeap.blank key))).
  { split; [reflexivity|]. split; [constructor|].
    intros i j Hi Hj. cbn in Hj. lia. }
  destruct (_build_from_items_spec key items (MinHeap.mkst s (MinHeap.blank key))
              Hacc eq_refl Hwf)
    as (st & E & Hwf' & He & Hsz & Hct & Hk & Hss).
  exists st. split.
  { unfold MinHeap.__init__. destruct items; [|exact E].
    cbn in E. by injection E as <-. }
  repeat split; try apply Hwf'; try done.
Qed.

Lemma init_spec_witness :
  Forall accepted [PInt 3; PTuple [PInt 1; PStr "a"]; PInt 2]
  /\ exists st,
       MinHeap.__init__ (Some [PInt 3; PTuple [PInt 1; PStr "a"]; PInt 2]) None []
       = (Return tt, st)
       /\ well_formed st
       /\ entries st ≡ₚ [(3%Z, PInt 3); (1%Z, PStr "a"); (2%Z, PInt 2)]
       /\ MinHeap.size (MinHeap.self st) = 3%Z.
Proof.
  assert (Hacc : Forall accepted [PInt 3; PTuple [PInt 1; PStr "a"]; PInt 2])
    by (repeat constructor).
  split; [exact Hacc|].
  destruct (init_spec [PInt 3; PTuple [PInt 1; PStr "a"]; PInt 2] None [] Hacc)
    as (st & E & Hwf & He & Hsz & _).
  exists st. split; [exact E|]. split; [exact Hwf|]. split; [exact He|exact Hsz].
Defined.

(** ** Programs that keep the heap order *)

Lemma sound_step key s st st' :
  sound key s st -> appended st st' ->
  MinHeap.key_func (MinHeap.self st') = key ->
  MinHeap._snapshots (MinHeap.self st') = MinHeap._snapshots (MinHeap.self st) ->
  well_formed st' ->
  sound key s st'.
Proof.
  intros (Hk & Hlen & Hwf & Hss) [new Hnew] Hk' Hss' Hwf'.
  split; [done|]. split; [rewrite Hnew, length_app; lia|]. split; [done|].
  rewrite Hss', Hnew. eapply Forall_impl; [exact Hss|].
  intros saved [Hv Hh]. split.
  - eapply Forall_impl; [exact Hv|]. intros r Hr. rewrite length_app. simpl in *. lia.
  - by apply heap_inv_app.
Qed.

Lemma sound_push_with_priority key s st v p :
  sound key s st ->
  exists st',
    MinHeap.push_with_priority v p st = (Return tt, st')
    /\ sound key s st'
    /\ MinHeap._snapshots (MinHeap.self st') = MinHeap._snapshots (MinHeap.self st).
Proof.
  intros Hs. pose proof Hs as (Hk & _ & (Hc & Hv & Hinv) & _).
  pose proof (push_with_priority_invariant st v p Hc Hv Hinv) as Hwf'.
  pose proof (appended_push_with_priority v p st) as Happ.
  rewrite push_with_priority_eq in *. eexists. split; [reflexivity|].
  split; [|done]. by eapply sound_step.
Qed.

Lemma sound_pop key s st :
  sound key s st ->
  exists v st',
    MinHeap.pop st = (Return v, st')
    /\ sound key s st'
    /\ MinHeap._snapshots (MinHeap.self st') = MinHeap._snapshots (MinHeap.self st).
Proof.
  intros Hs. pose proof Hs as (Hk & _ & (Hc & Hv & Hinv) & _).
  destruct (MinHeap.heap (MinHeap.self st)) as [|r0 l0] eqn:Hheap.
  - exists PNone, st. by rewrite pop_empty.
  - assert (Hne : MinHeap.heap (MinHeap.self st) <> []) by (by rewrite Hheap).
    destruct (pop_nonempty st Hc Hne) as (r & rest & _ & Hpop & Hperm & Hsz & Hmin).
    apply (heap_invariant_heapq st Hc) in Hinv.
    destruct (Hmin Hinv) as [_ Hrest].
    eexists _, _. split; [exact Hpop|]. split; [|done].
    eapply sound_step; [exact Hs|by exists []; rewrite app_nil_r|done|done|].
    split; [exact Hsz|]. split.
    + unfold valid in *. fields. rewrite <- Hperm in Hv.
      by apply Forall_cons in Hv as [_ Hv].
    + apply heap_invariant_heapq; [exact Hsz|done].
Qed.

Lemma sound_push_all key s items : forall st,
  Forall (pushable key) items -> sound key s st ->
  exists st',
    MinHeap.push_all items st = (Return tt, st')
    /\ sound key s st'
    /\ MinHeap._snapshots (MinHeap.self st') = MinHeap._snapshots (MinHeap.self st).
Proof.
  induction items as [|v items IH]; intros st Hp Hs.
  - by exists st.
  - apply Forall_cons in Hp as [Hpv Hp]. cbn [MinHeap.push_all].
    pose proof Hs as (Hk & _).
    destruct (sound_push_with_priority key s st v (priority_of key v) Hs)
      as (st1 & E & Hs1 & Hss1).
    rewrite <- Hk in E at 1. rewrite <- push_pushable in E by (by rewrite Hk).
    destruct (IH st1 Hp Hs1) as (st' & E' & Hs' & Hss').
    exists st'. rewrite (bind_Return _ _ _ _ _ E).
    split; [done|]. split; [done|]. congruence.
Qed.

Lemma sound__heapify key s st :
  consistent (MinHeap.self st) -> valid st ->
  MinHeap.key_func (MinHeap.self st) = key ->
  length s <= length (MinHeap.store st) ->
  Forall (fun saved =>
       Forall (fun r => r < length (MinHeap.store st)) saved
       /\ heapq.heap_inv (ref_lt (MinHeap.store st)) saved)
     (MinHeap._snapshots (MinHeap.self st)) ->
  exists st',
    MinHeap._heapify st = (Return tt, st')
    /\ sound key s st'
    /\ MinHeap._snapshots (MinHeap.self st') = MinHeap._snapshots (MinHeap.self st).
Proof.
  intros Hc Hv Hk Hlen Hss. rewrite _heapify_eq. eexists. split; [reflexivity|].
  split; [|done]. split; [done|]. split; [done|]. split; [|done].
  split; [|split].
  - unfold consistent in *. fields. by rewrite heapify_length.
  - unfold valid in *. fields. by rewrite heapify_perm.
  - apply heap_invariant_heapq.
    + unfold consistent in *. fields. by rewrite heapify_length.
    + fields. apply ref_heapify_heap.
Qed.

Lemma sound_bulk_push key s items st :
  Forall (pushable key) items -> sound key s st ->
  exists st',
    MinHeap.bulk_push items st = (Return tt, st')
    /\ sound key s st'
    /\ MinHeap._snapshots (MinHeap.self st') = MinHeap._snapshots (MinHeap.self st).
Proof.
  intros Hp Hs.
  destruct (sound_push_all key s items st Hp Hs)
    as (st1 & E & (Hk & Hlen & (Hc & Hv & _) & Hss) & Hss1).
  destruct (sound__heapify key s st1 Hc Hv Hk Hlen Hss) as (st' & E' & Hs' & Hss').
  exists st'. unfold MinHeap.bulk_push. rewrite (bind_Return _ _ _ _ _ E).
  split; [done|]. split; [done|]. congruence.
Qed.

Lemma sound_merge key s other st :
  consistent other -> Forall (fun r => r < length s) (MinHeap.heap other) ->
  sound key s st ->
  exists st',
    MinHeap.merge other st = (Return tt, st')
    /\ sound key s st'
    /\ MinHeap._snapshots (MinHeap.self st') = MinHeap._snapshots (MinHeap.self st).
Proof.
  intros Ho Hvo (Hk & Hlen & (Hc & Hv & _) & Hss).
  rewrite merge_eq. eexists. split; [reflexivity|]. split; [|done].
  split; [done|]. split; [done|]. split; [|done].
  assert (Hc' : (MinHeap.size (MinHeap.self st) + MinHeap.size other)%Z
                = Z.of_nat (length (heapq.heapify (ref_lt (MinHeap.store st))
                     (MinHeap.heap (MinHeap.self st) ++ MinHeap.heap other)))).
  { unfold consistent in *. rewrite heapify_length, length_app. lia. }
  split; [exact Hc'|]. split.
  - unfold valid in *. fields. rewrite heapify_perm. apply Forall_app. split; [done|].
    eapply Forall_impl; [exact Hvo|]. intros r Hr. simpl in *. lia.
  - apply heap_invariant_heapq; [exact Hc'|]. fields. apply ref_heapify_heap.
Qed.

Lemma sound_drain key s st :
  sound key s st ->
  exists vs st',
    MinHeap.drain st = (Return vs, st')
    /\ sound key s st'
    /\ MinHeap._snapshots (MinHeap.self st') = MinHeap._snapshots (MinHeap.self st).
Proof.
  intros (Hk & Hlen & (Hc & Hv & _) & Hss).
  destruct (drain_returns st Hc) as (vs & st' & E & _ & ->).
  eexists _, _. split; [exact E|]. split; [|done].
  split; [done|]. split; [done|]. split; [|done].
  split; [reflexivity|]. split; [constructor|].
  intros i c _ Hlt. cbn in Hlt. lia.
Qed.

Lemma sound_snapshot key s (body : MinHeap.M unit) st :
  (forall st1, sound key s st1 ->
     exists st2, body st1 = (Return tt, st2) /\ sound key s st2
       /\ MinHeap._snapshots (MinHeap.self st2) = MinHeap._snapshots (MinHeap.self st1)) ->
  sound key s st ->
  exists st',
    MinHeap.snapshot body st = (Return tt, st')
    /\ sound key s st'
    /\ MinHeap._snapshots (MinHeap.self st') = MinHeap._snapshots (MinHeap.self st).
Proof.
  intros Hbody Hs. pose proof Hs as (Hk & Hlen & (Hc & Hv & Hinv) & Hss).
  set (st1 := MinHeap.mkst (MinHeap.store st)
                (MinHeap.with_snapshots
                   (MinHeap._snapshots (MinHeap.self st)
                    ++ [MinHeap.heap (MinHeap.self st)]) (MinHeap.self st))).
  assert (Hs1 : sound key s st1).
  { split; [done|]. split; [done|]. split; [done|].
    subst st1. fields. apply Forall_app. split; [done|].
    constructor; [|constructor]. split; [done|]. by apply heap_invariant_heapq. }
  destruct (Hbody st1 Hs1) as (st2 & E & (Hk2 & Hlen2 & _ & Hss2) & Hstack).
  unfold MinHeap.snapshot.
  change (MinHeap.snapshot_enter st) with (Return tt, st1). cbv beta iota.
  rewrite E. rewrite (snapshot_exit_eq st2 _ _ Hstack).
  eexists. split; [reflexivity|]. split; [|done].
  rewrite Hstack in Hss2. subst st1. fields.
  apply Forall_app in Hss2 as [Hold Hsaved].
  apply Forall_cons in Hsaved as [[Hv2 Hh2] _].
  split; [done|]. split; [done|]. split; [|done].
  split; [reflexivity|]. split; [done|].
  by apply heap_invariant_heapq.
Qed.

Lemma sound_run_of key s body :
  Forall (fun c => forall st, order_safe key s c -> sound key s st ->
            exists st', exec c st = (Return tt, st') /\ sound key s st'
              /\ MinHeap._snapshots (MinHeap.self st')
                 = MinHeap._snapshots (MinHeap.self st)) body ->
  forall st, all_order_safe key s body -> sound key s st ->
    exists st', run body st = (Return tt, st') /\ sound key s st'
      /\ MinHeap._snapshots (MinHeap.self st') = MinHeap._snapshots (MinHeap.self st).
Proof.
  induction 1 as [|c body Hc Hbody IH]; intros st Hsafe Hs.
  - by exists st.
  - destruct Hsafe as [Hsc Hsb].
    destruct (Hc st Hsc Hs) as (st1 & E & Hs1 & Hss1).
    destruct (IH st1 Hsb Hs1) as (st' & E' & Hs' & Hss').
    exists st'. cbn [run]. rewrite (bind_Return _ _ _ _ _ E).
    split; [done|]. split; [done|]. congruence.
Qed.

Lemma sound_exec key s c : forall st,
  order_safe key s c -> sound key s st ->
  exists st', exec c st = (Return tt, st') /\ sound key s st'
    /\ MinHeap._snapshots (MinHeap.self st') = MinHeap._snapshots (MinHeap.self st).
Proof.
  induction c as [v|v p| | |items|other|k|v p|v| |body IH|body IH]
    using Call_nested_ind; intros st Hsafe Hs;
    rewrite ?exec_with_snapshot, ?exec_try_except; cbn [exec].
  - pose proof Hs as (Hk & _). cbn in Hsafe.
    rewrite push_pushable by (by rewrite Hk). apply sound_push_with_priority, Hs.
  - apply sound_push_with_priority, Hs.
  - destruct (sound_pop key s st Hs) as (v & st' & E & Hs' & Hss).
    exists st'. unfold discard. by rewrite (bind_Return _ _ _ _ _ E).
  - exists st. split; [|done]. unfold discard.
    destruct (MinHeap.heap (MinHeap.self st)) as [|r l] eqn:Hheap.
    + by rewrite (bind_Return _ _ _ _ _ (peek_empty st Hheap)).
    + assert (Hr : MinHeap.heap (MinHeap.self st) !! 0 = Some r) by (by rewrite Hheap).
      by rewrite (bind_Return _ _ _ _ _ (peek_root st r Hr)).
  - by apply sound_bulk_push.
  - destruct Hsafe as [Ho Hvo]. by apply sound_merge.
  - pose proof Hs as (_ & _ & (Hc & _) & _).
    destruct (k_smallest_restores st k Hc) as (vs & E).
    exists st. unfold discard. by rewrite (bind_Return _ _ _ _ _ E).
  - done.
  - done.
  - destruct (sound_drain key s st Hs) as (vs & st' & E & Hs' & Hss).
    exists st'. unfold discard. by rewrite (bind_Return _ _ _ _ _ E).
  - apply sound_snapshot; [|done]. intros st1 Hs1.
    exact (sound_run_of key s body IH st1 Hsafe Hs1).
  - destruct (sound_run_of key s body IH st Hsafe Hs) as (st' & E & Hs' & Hss).
    exists st'. unfold catch. by rewrite E.
Qed.

(** X10.  A program of public calls that makes no call of [remove] or
    [update_priority], pushes only values [push] takes in and merges only
    consistent heaps of existing nodes, run on a well-formed heap outside
    any snapshot scope: every call returns, and the heap it leaves is
    well-formed again (in heap order in particular), outside any scope, with
    the same key function.  Scopes, [k_smallest] and [drain] included. *)
Theorem heap_order_kept cs st :
  all_order_safe (MinHeap.key_func (MinHeap.self st)) (MinHeap.store st) cs ->
  well_formed st -> MinHeap._snapshots (MinHeap.self st) = [] ->
  exists st',
    run cs st = (Return tt, st')
    /\ well_formed st'
    /\ MinHeap._snapshots (MinHeap.self st') = []
    /\ MinHeap.key_func (MinHeap.self st') = MinHeap.key_func (MinHeap.self st).
Proof.
  intros Hsafe Hwf Hss.
  assert (Hs : sound (MinHeap.key_func (MinHeap.self st)) (MinHeap.store st) st).
  { split; [done|]. split; [done|]. split; [done|]. rewrite Hss. constructor. }
  destruct (sound_run_of _ _ cs
              ltac:(apply Forall_forall; intros c _; apply sound_exec) st Hsafe Hs)
    as (st' & E & (Hk & _ & Hwf' & _) & Hss').
  exists st'. split; [done|]. split; [done|]. split; [congruence|done].
Qed.

Lemma heap_order_kept_witness :
  all_order_safe (MinHeap.key_func (MinHeap.self keyed)) (MinHeap.store keyed)
    demonstration
  /\ well_formed keyed /\ MinHeap._snapshots (MinHeap.self keyed) = []
  /\ exists st',
       run demonstration keyed = (Return tt, st')
       /\ well_formed st'
       /\ MinHeap._snapshots (MinHeap.self st') = []
       /\ MinHeap.key_func (MinHeap.self st') = MinHeap.key_func (MinHeap.self keyed).
Proof.
  assert (Hsafe : all_order_safe (MinHeap.key_func (MinHeap.self keyed))
                    (MinHeap.store keyed) demonstration).
  { cbn. repeat split; repeat constructor. }
  assert (Hwf : well_formed keyed).
  { split; [reflexivity|]. split; [repeat constructor|].
    apply heap_invariantb_spec. reflexivity. }
  split; [exact Hsafe|]. split; [exact Hwf|]. split; [reflexivity|].
  exact (heap_order_kept demonstration keyed Hsafe Hwf eq_refl).
Defined.

(** ** k_smallest and drain *)

Lemma pop_with_snapshots st ss :
  MinHeap.pop
    (MinHeap.mkst (MinHeap.store st) (MinHeap.with_snapshots ss (MinHeap.self st)))
  = ((MinHeap.pop st).1,
     MinHeap.mkst (MinHeap.store (MinHeap.pop st).2)
       (MinHeap.with_snapshots ss (MinHeap.self (MinHeap.pop st).2))).
Proof.
  unfold MinHeap.pop, MinHeap.bind, MinHeap.get. fields.
  by destruct (heapq.heappop _ _) as [[r rest]|].
Qed.

Lemma pop_n_with_snapshots n : forall st ss,
  (MinHeap.pop_n n
     (MinHeap.mkst (MinHeap.store st)
        (MinHeap.with_snapshots ss (MinHeap.self st)))).1
  = (MinHeap.pop_n n st).1.
Proof.
  induction n as [|n IH]; intros st ss; [done|].
  cbn [MinHeap.pop_n]. unfold MinHeap.bind. rewrite pop_with_snapshots.
  destruct (MinHeap.pop st) as [[v|e|] st1]; cbn [fst snd]; try done.
  specialize (IH st1 ss).
  destruct (MinHeap.pop_n n (MinHeap.mkst _ _)) as [o1 s1].
  destruct (MinHeap.pop_n n st1) as [o2 s2].
  cbn [fst] in IH. subst o1. by destruct o2.
Qed.

Lemma pop_n_drain_loop n : forall st fuel,
  consistent (MinHeap.self st) ->
  n <= length (MinHeap.heap (MinHeap.self st)) ->
  length (MinHeap.heap (MinHeap.self st)) <= fuel ->
  exists vs st',
    MinHeap.drain_loop fuel st = (Return vs, st')
    /\ vs ≡ₚ values st
    /\ (MinHeap.pop_n n st).1 = Return (take n vs).
Proof.
  induction n as [|n IH]; intros st fuel Hc Hn Hfuel.
  - destruct (drain_loop_spec _ st fuel eq_refl Hfuel Hc) as (rs & Hrun & Hperm & _).
    eexists _, _. split; [exact Hrun|]. split; [|done].
    rewrite values_map. unfold values_of. by rewrite Hperm.
  - assert (Hne : MinHeap.heap (MinHeap.self st) <> [])
      by (intros E; rewrite E in Hn; simpl in Hn; lia).
    destruct (pop_nonempty st Hc Hne) as (r & rest & _ & Hpop & Hperm & Hsz & _).
    set (st1 := MinHeap.mkst _ _) in Hpop.
    pose proof (Permutation_length Hperm) as Hlen. cbn [length] in Hlen.
    destruct fuel as [|fuel]; [lia|].
    destruct (IH st1 fuel Hsz ltac:(cbn; lia) ltac:(cbn; lia))
      as (vs & st' & Hrun & Hvs & Hpre).
    eexists _, st'. split; [|split].
    + cbn [MinHeap.drain_loop]. unfold MinHeap.bind at 1. rewrite is_empty_eq.
      assert ((MinHeap.size (MinHeap.self st) =? 0)%Z = false) as ->
        by (unfold consistent in Hc; lia).
      unfold MinHeap.bind at 1. rewrite Hpop.
      unfold MinHeap.bind at 1. rewrite Hrun. reflexivity.
    + rewrite Hvs, !values_map. subst st1. fields.
      rewrite <- Hperm. reflexivity.
    + cbn [MinHeap.pop_n]. unfold MinHeap.bind at 1. rewrite Hpop.
      unfold MinHeap.bind at 1.
      destruct (MinHeap.pop_n n st1) as [o s2]. cbn [fst] in Hpre. by subst o.
Qed.

(** X11.  [drain()] and [k_smallest(k)] on a consistent heap, in heap order or
    not: [drain] returns, and yields every value of the heap once per node;
    [k_smallest(k)] returns the first min(k, size) values of what [drain]
    would yield from the same heap, and leaves the heap as it was. *)
Theorem k_smallest_drain_prefix st k :
  consistent (MinHeap.self st) ->
  exists vs st',
    MinHeap.drain st = (Return vs, st')
    /\ vs ≡ₚ values st
    /\ MinHeap.k_smallest k st
       = (Return (take (Z.to_nat (Z.min k (MinHeap.size (MinHeap.self st)))) vs), st).
Proof.
  intros Hc.
  set (n := Z.to_nat (Z.min k (MinHeap.size (MinHeap.self st)))).
  destruct (pop_n_drain_loop n st (Z.to_nat (MinHeap.size (MinHeap.self st))) Hc
              ltac:(unfold consistent in Hc; lia)
              ltac:(unfold consistent in Hc; lia))
    as (vs & st' & Hrun & Hvs & Hpre).
  exists vs, st'. split; [exact Hrun|]. split; [exact Hvs|].
  destruct (k_smallest_restores st k Hc) as (vs0 & Hk). rewrite Hk.
  revert Hk. unfold MinHeap.k_smallest, MinHeap.snapshot.
  set (ss := MinHeap._snapshots (MinHeap.self st) ++ [MinHeap.heap (MinHeap.self st)]).
  change (MinHeap.snapshot_enter st)
    with (Return tt, MinHeap.mkst (MinHeap.store st)
                       (MinHeap.with_snapshots ss (MinHeap.self st))).
  cbv beta iota. unfold MinHeap.bind at 1, MinHeap.get. fields. fold n.
  pose proof (pop_n_with_snapshots n st ss) as Hsame. rewrite Hpre in Hsame.
  destruct (MinHeap.pop_n n (MinHeap.mkst _ _)) as [o s2].
  cbn [fst] in Hsame. subst o.
  destruct (MinHeap.snapshot_exit s2) as [[[]|e|] s3]; intros [= <- _]; done.
Qed.

Lemma k_smallest_drain_prefix_witness :
  consistent (MinHeap.self seven_broken)
  /\ exists vs st',
       MinHeap.drain seven_broken = (Return vs, st')
       /\ vs ≡ₚ values seven_broken
       /\ MinHeap.k_smallest 4 seven_broken = (Return (take 4 vs), seven_broken).
Proof.
  assert (Hc : consistent (MinHeap.self seven_broken)) by reflexivity.
  split; [exact Hc|].
  exact (k_smallest_drain_prefix seven_broken 4 Hc).
Defined.

(** ** snapshot scopes *)

(** X12.  [with heap.snapshot(): body], for any program [body] of public
    calls that pushes only values [push] takes in (calls of [remove] and
    [update_priority], nested scopes and handled exceptions included),
    entered on a consistent heap: the scope ends the
    way its body ends, a return or the exception of the body raised again;
    the storage list, the size and the stack of saved storages are then
    what they were on entry; the node objects and the counter are what the
    body left, so nodes created and priorities changed inside the scope
    are not rolled back. *)
Theorem snapshot_scope_restores body st :
  consistent (MinHeap.self st) -> all_merges_consistent body ->
  all_pushes_accepted (MinHeap.key_func (MinHeap.self st)) body ->
  (exec (with_snapshot body) st).1 = (run body (MinHeap.snapshot_enter st).2).1
  /\ (exec (with_snapshot body) st).1 <> Diverge
  /\ MinHeap.heap (MinHeap.self (exec (with_snapshot body) st).2)
     = MinHeap.heap (MinHeap.self st)
  /\ MinHeap.size (MinHeap.self (exec (with_snapshot body) st).2)
     = MinHeap.size (MinHeap.self st)
  /\ MinHeap._snapshots (MinHeap.self (exec (with_snapshot body) st).2)
     = MinHeap._snapshots (MinHeap.self st)
  /\ MinHeap.store (exec (with_snapshot body) st).2
     = MinHeap.store (run body (MinHeap.snapshot_enter st).2).2
  /\ MinHeap._insertion_count (MinHeap.self (exec (with_snapshot body) st).2)
     = MinHeap._insertion_count
         (MinHeap.self (run body (MinHeap.snapshot_enter st).2).2).
Proof.
  intros Hc Hm _. rewrite exec_with_snapshot. unfold MinHeap.snapshot.
  set (st1 := MinHeap.mkst (MinHeap.store st)
                (MinHeap.with_snapshots
                   (MinHeap._snapshots (MinHeap.self st)
                    ++ [MinHeap.heap (MinHeap.self st)]) (MinHeap.self st))).
  change (MinHeap.snapshot_enter st) with (Return tt, st1). cbn [fst snd].
  destruct (effect_run body st1 Hc Hm) as (Hr & _ & Hss & _).
  destruct (run body st1) as [r st2]. fields.
  rewrite (snapshot_exit_eq st2 _ _ Hss).
  unfold consistent in Hc.
  destruct r; fields; repeat split; done.
Qed.

Lemma snapshot_scope_restores_witness :
  consistent (MinHeap.self scenario_A)
  /\ all_merges_consistent [call_pop; call_update_priority (task "task3" 3) 0]
  /\ all_pushes_accepted (MinHeap.key_func (MinHeap.self scenario_A))
       [call_pop; call_update_priority (task "task3" 3) 0]
  /\ (exec (with_snapshot [call_pop; call_update_priority (task "task3" 3) 0])
        scenario_A).1 = Raise TypeError
  /\ MinHeap.heap
       (MinHeap.self
          (exec (with_snapshot [call_pop; call_update_priority (task "task3" 3) 0])
             scenario_A).2)
     = MinHeap.heap (MinHeap.self scenario_A)
  /\ MinHeap.size
       (MinHeap.self
          (exec (with_snapshot [call_pop; call_update_priority (task "task3" 3) 0])
             scenario_A).2)
     = 4%Z.
Proof.
  assert (Hc : consistent (MinHeap.self scenario_A)) by reflexivity.
  assert (Hm : all_merges_consistent
                 [call_pop; call_update_priority (task "task3" 3) 0])
    by (repeat split).
  assert (Hp : all_pushes_accepted (MinHeap.key_func (MinHeap.self scenario_A))
                 [call_pop; call_update_priority (task "task3" 3) 0])
    by (repeat split).
  destruct (snapshot_scope_restores
              [call_pop; call_update_priority (task "task3" 3) 0] scenario_A
              Hc Hm Hp)
    as (Hout & _ & Hheap & Hsize & _).
  split; [exact Hc|]. split; [exact Hm|]. split; [exact Hp|].
  split; [rewrite Hout; reflexivity|]. split; [exact Hheap|exact Hsize].
Defined.

(** ** is_empty, len, iteration, peek and pop *)

(** X13.  On a consistent heap the observers agree: iteration yields the values
    in storage order and changes nothing, [len] is their number,
    [is_empty] holds exactly when there is none, and then [peek] and [pop]
    return None and change nothing; otherwise [peek] returns the first
    value with its priority and [pop] returns that value, in heap order or
    not. *)
Theorem observers_agree st :
  consistent (MinHeap.self st) ->
  MinHeap.__iter__ st = (Return (values st), st)
  /\ MinHeap.__len__ st = (Return (Z.of_nat (length (values st))), st)
  /\ MinHeap.is_empty st
     = (Return (match values st with [] => true | _ => false end), st)
  /\ (values st = [] ->
      MinHeap.peek st = (Return PNone, st) /\ MinHeap.pop st = (Return PNone, st))
  /\ (forall v vs, values st = v :: vs ->
      (exists p, MinHeap.peek st = (Return (PTuple [PInt p; v]), st))
      /\ (MinHeap.pop st).1 = Return v).
Proof.
  intros Hc0. pose proof Hc0 as Hc. unfold consistent in Hc. rewrite values_map.
  split; [reflexivity|].
  split; [unfold MinHeap.__len__, MinHeap.bind, MinHeap.get, MinHeap.ret;
          by rewrite length_map, Hc|].
  split.
  { rewrite is_empty_eq, Hc. by destruct (MinHeap.heap (MinHeap.self st)). }
  split.
  - intros Hnil. apply map_eq_nil in Hnil.
    split; [by apply peek_empty|by apply pop_empty].
  - intros v vs Hv.
    assert (Hne : MinHeap.heap (MinHeap.self st) <> [])
      by (intros E; by rewrite E in Hv).
    destruct (pop_nonempty st Hc0 Hne) as (r & rest & Hroot & Hpop & _).
    pose proof (peek_root st r Hroot) as Hpeek.
    destruct (MinHeap.heap (MinHeap.self st)) as [|r0 l0]; [done|].
    injection Hroot as ->. injection Hv as <- _.
    split; [by eexists|by rewrite Hpop].
Qed.

Lemma observers_agree_witness :
  consistent (MinHeap.self seven_broken)
  /\ MinHeap.__iter__ seven_broken
     = (Return [PInt 1; PInt 10; PInt 2; PInt 4; PInt 12; PInt 3], seven_broken)
  /\ MinHeap.__len__ seven_broken = (Return 6%Z, seven_broken)
  /\ MinHeap.is_empty seven_broken = (Return false, seven_broken)
  /\ (exists p, MinHeap.peek seven_broken
                = (Return (PTuple [PInt p; PInt 1]), seven_broken))
  /\ (MinHeap.pop seven_broken).1 = Return (PInt 1).
Proof.
  assert (Hc : consistent (MinHeap.self seven_broken)) by reflexivity.
  destruct (observers_agree seven_broken Hc) as (Hiter & Hlen & Hemp & _ & Hhead).
  destruct (Hhead (PInt 1) [PInt 10; PInt 2; PInt 4; PInt 12; PInt 3] eq_refl)
    as [Hpeek Hpop].
  split; [exact Hc|]. split; [exact Hiter|]. split; [exact Hlen|].
  split; [exact Hemp|]. split; [exact Hpeek|exact Hpop].
Defined.

(** ** merge of a heap into itself *)

(** X14.  [heap.merge(heap)]: the call returns; every node of the storage is in
    it twice afterwards, the storage is in heap order, the size is doubled,
    and no node object and no other heap object changes. *)
Theorem merge_self w self :
  self < length (World.heaps w) ->
  exists w',
    World.merge self self w = (Return tt, w')
    /\ World.nodes w' = World.nodes w
    /\ MinHeap.heap (World.heaps w' !!! self)
       ≡ₚ MinHeap.heap (World.heaps w !!! self)
          ++ MinHeap.heap (World.heaps w !!! self)
    /\ MinHeap.size (World.heaps w' !!! self)
       = (2 * MinHeap.size (World.heaps w !!! self))%Z
    /\ heapq.heap_inv (ref_lt (World.nodes w')) (MinHeap.heap (World.heaps w' !!! self))
    /\ (forall other, other <> self ->
          World.heaps w' !!! other = World.heaps w !!! other).
Proof.
  intros Hself. unfold World.merge, World.call. rewrite merge_eq.
  eexists. split; [reflexivity|].
  cbn [World.nodes World.heaps MinHeap.store MinHeap.self].
  rewrite list_lookup_total_insert_eq by done. cbn.
  split; [done|]. split; [apply heapify_perm|]. split; [lia|].
  split; [apply ref_heapify_heap|].
  intros other Hne. by rewrite list_lookup_total_insert_ne.
Qed.

Lemma merge_self_witness :
  0 < length (World.heaps two_heaps)
  /\ exists w',
       World.merge 0 0 two_heaps = (Return tt, w')
       /\ World.nodes w' = World.nodes two_heaps
       /\ MinHeap.heap (World.heaps w' !!! 0)
          ≡ₚ MinHeap.heap (World.heaps two_heaps !!! 0)
             ++ MinHeap.heap (World.heaps two_heaps !!! 0)
       /\ MinHeap.size (World.heaps w' !!! 0) = 8%Z.
Proof.
  assert (H0 : 0 < length (World.heaps two_heaps)) by (cbn; lia).
  split; [exact H0|].
  destruct (merge_self two_heaps 0 H0) as (w' & E & Hn & Hh & Hs & _).
  exists w'. split; [exact E|]. split; [exact Hn|]. split; [exact Hh|exact Hs].
Defined.

(** ** The order on node objects *)

(** X15.  [<] on node objects is a strict order that compares priorities first
    and sequence numbers on a tie: it is irreflexive and transitive, two
    nodes that are not in order either way have the same priority and the
    same sequence number, and among nodes of one priority the node created
    first is the smaller. *)
Theorem HeapNode_lt_strict_total a b c :
  HeapNode.__lt__ a a = false
  /\ (HeapNode.__lt__ a b = true -> HeapNode.__lt__ b c = true ->
      HeapNode.__lt__ a c = true)
  /\ (HeapNode.__lt__ a b = false -> HeapNode.__lt__ b a = false ->
      HeapNode.priority a = HeapNode.priority b
      /\ HeapNode.insertion_count a = HeapNode.insertion_count b)
  /\ (HeapNode.priority a = HeapNode.priority b ->
      HeapNode.__lt__ a b
      = (HeapNode.insertion_count a <? HeapNode.insertion_count b)%Z).
Proof.
  unfold HeapNode.__lt__.
  destruct (Z.eqb_spec (HeapNode.priority a) (HeapNode.priority a)); [|done].
  destruct (Z.eqb_spec (HeapNode.priority a) (HeapNode.priority b));
    destruct (Z.eqb_spec (HeapNode.priority b) (HeapNode.priority c));
    destruct (Z.eqb_spec (HeapNode.priority a) (HeapNode.priority c));
    destruct (Z.eqb_spec (HeapNode.priority b) (HeapNode.priority a));
    rewrite ?Z.ltb_lt, ?Z.ltb_ge; repeat split; try lia; try done.
Qed.

(** ** update_priority that leaves the order as it is *)

Lemma deref_set_priority_ne s node p r :
  r <> node -> deref (set_priority s node p) r = deref s r.
Proof.
  intros Hne. unfold deref, set_priority.
  by apply list_lookup_total_insert_ne.
Qed.

Lemma deref_set_priority_eq s node p :
  node < length s ->
  deref (set_priority s node p) node
  = HeapNode.mk p (HeapNode.value (deref s node))
                  (HeapNode.insertion_count (deref s node)).
Proof.
  intros Hlt. unfold deref at 1, set_priority.
  by apply list_lookup_total_insert_eq.
Qed.

(** X16.  [update_priority(value, new_priority)] on a well-formed heap without
    repeated nodes, the first node that carries the value being at index
    [i]: when the new priority is not below the old one and the node
    under its new priority is not above any of its children, the call
    returns True, the node has the new priority, the storage order is
    unchanged and the heap is well-formed again. *)
Theorem update_priority_in_place st v p i :
  well_formed st -> NoDup (MinHeap.heap (MinHeap.self st)) ->
  MinHeap.index_of (MinHeap.store st) v (MinHeap.heap (MinHeap.self st)) 0 = Some i ->
  (HeapNode.priority (node_at st i) <= p)%Z ->
  (forall c, c = 2 * i + 1 \/ c = 2 * i + 2 ->
     c < length (MinHeap.heap (MinHeap.self st)) ->
     HeapNode.leb (HeapNode.mk p v (HeapNode.insertion_count (node_at st i)))
                  (node_at st c) = true) ->
  MinHeap.update_priority v p st
  = (Return true,
     MinHeap.mkst
       (set_priority (MinHeap.store st) (MinHeap.heap (MinHeap.self st) !!! i) p)
       (MinHeap.self st))
  /\ well_formed
       (MinHeap.mkst
          (set_priority (MinHeap.store st) (MinHeap.heap (MinHeap.self st) !!! i) p)
          (MinHeap.self st)).
Proof.
  intros (Hc & Hv & Hinv) Hnd E Hup Hch.
  destruct (index_of_Some _ _ _ _ _ E) as (_ & Hi & node & Hnode & Hval & _).
  rewrite Nat.sub_0_r in *. apply py_eqb_eq in Hval.
  assert (Hnode' : MinHeap.heap (MinHeap.self st) !!! i = node)
    by by apply list_lookup_total_correct.
  assert (Hvalid : node < length (MinHeap.store st)).
  { unfold valid in Hv. rewrite Forall_lookup in Hv. by apply (Hv i). }
  unfold node_at in Hup, Hch. rewrite Hnode' in *.
  set (st1 := MinHeap.mkst (set_priority (MinHeap.store st) node p) (MinHeap.self st)).
  assert (Hat : forall k, k < length (MinHeap.heap (MinHeap.self st)) ->
            node_at st1 k
            = if decide (k = i)
              then HeapNode.mk p v (HeapNode.insertion_count (deref (MinHeap.store st) node))
              else node_at st k).
  { intros k Hk. unfold node_at. subst st1. fields.
    destruct (decide (k = i)) as [->|Hne].
    - rewrite Hnode', deref_set_priority_eq by done. by rewrite Hval.
    - apply deref_set_priority_ne. intros Heq. apply Hne.
      apply (NoDup_lookup _ k i node Hnd); [|done].
      rewrite <- Heq. by apply list_lookup_lookup_total_lt. }
  split.
  - unfold MinHeap.update_priority, MinHeap.bind at 1, MinHeap.get. rewrite E.
    rewrite (bind_Return _ _ _ _ _ (getitem_Some st i node Hnode)).
    unfold MinHeap.bind at 1, MinHeap.set_store at 1. fold st1.
    assert ((p <? HeapNode.priority (deref (MinHeap.store st) node))%Z = false)
      as -> by lia.
    assert (Hstay : MinHeap._sift_down i st1 = (Return tt, st1)).
    { apply _sift_down_stays; [done|done|].
      intros c Hc_child Hc_lt.
      change (ref_lt (MinHeap.store st1) (MinHeap.heap (MinHeap.self st1) !!! c)
                (MinHeap.heap (MinHeap.self st1) !!! i))
        with (HeapNode.__lt__ (node_at st1 c) (node_at st1 i)).
      rewrite (Hat c Hc_lt), (Hat i Hi).
      destruct (decide (c = i)) as [->|_]; [lia|].
      destruct (decide (i = i)) as [_|]; [|done].
      apply negb_true_iff. rewrite HeapNode_not_lt. by apply Hch. }
    by rewrite (bind_Return _ _ _ _ _ Hstay).
  - fold st1. split; [done|]. split.
    { unfold valid in *. eapply Forall_impl; [exact Hv|].
      intros r Hr.
      change (r < length (set_priority (MinHeap.store st) node p)).
      eapply Nat.lt_le_trans; [exact Hr|].
      apply Nat.eq_le_incl. symmetry. apply length_insert. }
    intros j c Hjc Hlt. unfold consistent in Hc.
    assert (Hc_lt : c < length (MinHeap.heap (MinHeap.self st)))
      by (subst st1; cbn in Hlt; lia).
    rewrite (Hat c Hc_lt), (Hat j ltac:(lia)).
    destruct (decide (j = i)) as [->|Hj], (decide (c = i)) as [->|Hci].
    + lia.
    + by apply Hch.
    + specialize (Hinv j i Hjc ltac:(lia)). unfold node_at in Hinv at 2.
      rewrite Hnode' in Hinv. apply HeapNode_leb_spec in Hinv.
      apply HeapNode_leb_spec. cbn. lia.
    + apply Hinv; [done|lia].
Qed.

Lemma update_priority_in_place_witness :
  well_formed seven /\ NoDup (MinHeap.heap (MinHeap.self seven))
  /\ MinHeap.index_of (MinHeap.store seven) (PInt 10)
       (MinHeap.heap (MinHeap.self seven)) 0 = Some 1
  /\ MinHeap.update_priority (PInt 10) 11 seven
     = (Return true,
        MinHeap.mkst
          (set_priority (MinHeap.store seven)
             (MinHeap.heap (MinHeap.self seven) !!! 1) 11)
          (MinHeap.self seven))
  /\ well_formed
       (MinHeap.mkst
          (set_priority (MinHeap.store seven)
             (MinHeap.heap (MinHeap.self seven) !!! 1) 11)
          (MinHeap.self seven)).
Proof.
  assert (Hwf : well_formed seven).
  { split; [reflexivity|]. split; [repeat constructor|].
    apply heap_invariantb_spec. reflexivity. }
  assert (Hnd : NoDup (MinHeap.heap (MinHeap.self seven)))
    by (apply (bool_decide_unpack _); vm_compute; exact I).
  assert (Hup : (HeapNode.priority (node_at seven 1) <= 11)%Z) by (vm_compute; discriminate).
  assert (Hch : forall c, c = 2 * 1 + 1 \/ c = 2 * 1 + 2 ->
            c < length (MinHeap.heap (MinHeap.self seven)) ->
            HeapNode.leb
              (HeapNode.mk 11 (PInt 10) (HeapNode.insertion_count (node_at seven 1)))
              (node_at seven c) = true)
    by (intros c [->| ->] _; reflexivity).
  split; [exact Hwf|]. split; [exact Hnd|]. split; [reflexivity|].
  exact (update_priority_in_place seven (PInt 10) 11 1 Hwf Hnd eq_refl Hup Hch).
Defined.
